(** * jupyter-mcp-tools: the safe serializer, the tool-id substitution and
    the WebSocket manager of [src/index.ts]

  The development follows the TypeScript source function by function.
  JavaScript values with identity (arrays, keyed objects) live in a heap
  indexed by addresses, so that sharing and cycles are expressible; the
  [seen] WeakSet of [safeSerialize] is a finite set of addresses threaded
  through the recursion exactly as the one mutable object is in the
  source. *)

From Stdlib Require Import ZArith String Ascii List Lia DecimalString.
From stdpp Require Import base decidable option list gmap strings.

Set Warnings "-register-all".

Local Open Scope string_scope.

(* ===================================================================== *)
(** ** JavaScript values *)
(* ===================================================================== *)

Module JS.

Definition addr := nat.

(** What [safeSerialize] lets through untouched (lines 24-30). The
    serializer never inspects a number, it only hands it on. *)
Inductive prim : Type :=
| PNull
| PUndefined
| PBool (b : bool)
| PNum (n : Z)
| PStr (s : string).

(** A value as the serializer can tell them apart: a primitive, a
    reference to an array or keyed object, or anything else (a function,
    a symbol, a bigint), of which only [String(obj)] is ever asked:
    [Some s] when the conversion yields [s], [None] when it throws. *)
Inductive value : Type :=
| VPrim (p : prim)
| VRef (a : addr)
| VOther (str : option string).

(** [obj[key]], for a key or an index, either yields the stored value
    or runs an accessor that throws; [error] is [String(e)] of what it
    throws. *)
Inductive slot : Type :=
| Data (v : value)
| ThrowingGetter (error : string).

(** The two inspections [safeSerialize] makes of an object outside any
    [try]: [Array.isArray(obj)] (line 38) and [Object.keys(obj)]
    (line 51). *)
Inductive inspection : Type := IsArray | OwnKeys.

(** Heap cells. [Array.isArray] holds of the first, whose elements are
    read by [slice] (a hole counts as an element that is [undefined]);
    [typeof obj === 'object'] holds of the second, whose list is in
    [Object.keys] order. The third is an object on which the named
    inspection throws: a revoked proxy for [IsArray], a proxy whose
    [ownKeys] trap throws for [OwnKeys]; [error] is [String(e)] of what
    is thrown. *)
Inductive hobj : Type :=
| HArray (items : list slot)
| HObject (props : list (string * slot))
| HExotic (at_ : inspection) (error : string).

Definition heap := addr -> hobj.

(** The tree a serializer call returns: fresh arrays and fresh objects
    around primitives. *)
Inductive json : Type :=
| JPrim (p : prim)
| JArr (items : list json)
| JObj (fields : list (string * json)).

Definition JStr (s : string) : json := JPrim (PStr s).
Definition JBool (b : bool) : json := JPrim (PBool b).
Definition JNum (n : Z) : json := JPrim (PNum n).
Definition JUndefined : json := JPrim PUndefined.

(** [m.k], a property read on an object literal or a parsed message. *)
Fixpoint assoc (k : string) (fields : list (string * json)) : json :=
  match fields with
  | [] => JUndefined
  | (k', v) :: rest => if String.eqb k k' then v else assoc k rest
  end.

(** [None] stands for the [TypeError] of reading a property of [null]
    or [undefined]. *)
Definition get (m : json) (k : string) : option json :=
  match m with
  | JPrim PNull | JPrim PUndefined => None
  | JObj fields => Some (assoc k fields)
  | _ => Some JUndefined
  end.

(** JavaScript truthiness, for [a || b]. *)
Definition truthy (v : json) : bool :=
  match v with
  | JPrim PNull | JPrim PUndefined => false
  | JPrim (PBool b) => b
  | JPrim (PNum n) => negb (n =? 0)%Z
  | JPrim (PStr s) => negb (String.eqb s EmptyString)
  | _ => true
  end.

Definition or_else (a b : json) : json := if truthy a then a else b.

End JS.

(* ===================================================================== *)
(** ** safeSerialize (index.ts, lines 22-70) *)
(* ===================================================================== *)

Module Serializer.
Import JS.

(** How a call ends: with a value, with an exception ([error] is
    [String(e)] of what was thrown), or, for the fuelled recursion only,
    out of fuel. *)
Inductive outcome (A : Type) : Type :=
| Ret (a : A)
| Throw (error : string)
| OutOfFuel.
Arguments Ret {A} a.
Arguments Throw {A} error.
Arguments OutOfFuel {A}.

(** Computations over the one [seen] set of a top-level call. The set
    survives an exception: it is mutated in place. *)
Definition M (A : Type) : Type := gset addr -> outcome A * gset addr.

Definition ret {A} (a : A) : M A := fun seen => (Ret a, seen).
Definition throw {A} (error : string) : M A := fun seen => (Throw error, seen).
Definition bind {A B} (m : M A) (k : A -> M B) : M B :=
  fun seen =>
    match m seen with
    | (Ret a, seen') => k a seen'
    | (Throw error, seen') => (Throw error, seen')
    | (OutOfFuel, seen') => (OutOfFuel, seen')
    end.
Definition try_catch {A} (body handler : M A) : M A :=
  fun seen =>
    match body seen with
    | (Throw _, seen') => handler seen'
    | r => r
    end.

Notation "'let*' x ':=' m 'in' k" := (bind m (fun x => k))
  (at level 10, x pattern, m at level 100, k at level 200).

Definition seen_has (a : addr) : M bool :=
  fun seen => (Ret (bool_decide (a ∈ seen)), seen).
Definition seen_add (a : addr) : M unit :=
  fun seen => (Ret tt, {[a]} ∪ seen).

(** [arr.map(f)], left to right. *)
Fixpoint mapM {A B} (f : A -> M B) (l : list A) : M (list B) :=
  match l with
  | [] => ret []
  | x :: rest =>
      let* y := f x in
      let* ys := mapM f rest in
      ret (y :: ys)
  end.

Definition read_slot (s : slot) : M value :=
  match s with
  | Data v => ret v
  | ThrowingGetter error => throw error
  end.

(** [result[key] = v] on the object under construction (lines 55 and
    57). A key already there keeps its place and takes the new value, any
    other is appended; the one exception is the key [__proto__], for which
    the assignment runs the setter inherited from [Object.prototype] and
    creates no key. *)
Fixpoint set_key (key : string) (v : json) (result : list (string * json))
    : list (string * json) :=
  match result with
  | [] => [(key, v)]
  | (k, old) :: rest =>
      if String.eqb k key then (k, v) :: rest
      else (k, old) :: set_key key v rest
  end.

Definition assign (result : list (string * json)) (key : string) (v : json)
    : list (string * json) :=
  if String.eqb key "__proto__" then result else set_key key v result.

(** [for (const key of keys) { body }], the body assigning to
    [result]. *)
Fixpoint for_keys (body : string * slot -> M json)
    (keys : list (string * slot)) (result : list (string * json))
    : M (list (string * json)) :=
  match keys with
  | [] => ret result
  | kv :: rest =>
      let* v := body kv in
      for_keys body rest (assign result (fst kv) v)
  end.

Definition max_depth_reached : json := JStr "<max depth reached>".
Definition circular_reference : json := JStr "<circular reference>".
Definition serialization_error : json := JStr "<serialization error>".
Definition unserializable : json := JStr "<unserializable>".

(** [String(obj)] of the fallback; the [catch] around it never reads
    what was thrown. *)
Definition String_of (str : option string) : M json :=
  match str with
  | Some s => ret (JStr s)
  | None => throw "TypeError: Cannot convert object to primitive value"
  end.

Fixpoint safeSerialize_fuel (fuel : nat) (h : heap) (obj : value)
    (maxDepth currentDepth : nat) : M json :=
  match fuel with
  | O => fun seen => (OutOfFuel, seen)
  | S fuel' =>
      match obj with
      | VPrim p => ret (JPrim p)
      | _ =>
          if (maxDepth <? currentDepth)%nat then ret max_depth_reached
          else
            match obj with
            | VPrim p => ret (JPrim p)
            | VRef a =>
                match h a with
                | HExotic IsArray error => throw error
                | HArray items =>
                    let* sliced := mapM read_slot (take 100 items) in
                    let* out :=
                      mapM (fun item =>
                              safeSerialize_fuel fuel' h item maxDepth
                                (currentDepth + 1))
                           sliced in
                    ret (JArr out)
                | HObject props =>
                    let* known := seen_has a in
                    if (known : bool) then ret circular_reference
                    else
                      let* _ := seen_add a in
                      let* result :=
                        for_keys (fun kv : string * slot =>
                                    try_catch
                                      (let* x := read_slot (snd kv) in
                                       safeSerialize_fuel fuel' h x maxDepth
                                         (currentDepth + 1))
                                      (ret serialization_error))
                                 (take 100 props) [] in
                      ret (JObj result)
                | HExotic OwnKeys error =>
                    let* known := seen_has a in
                    if (known : bool) then ret circular_reference
                    else
                      let* _ := seen_add a in
                      throw error
                end
            | VOther str => try_catch (String_of str) (ret unserializable)
            end
      end
  end.

(** The recursion stops one level past [maxDepth], so this much fuel
    reaches every call the source makes. *)
Definition safeSerialize (h : heap) (obj : value)
    (maxDepth currentDepth : nat) : M json :=
  safeSerialize_fuel (S (S maxDepth - currentDepth)) h obj maxDepth
    currentDepth.

(** The defaults of the signature: [maxDepth = 3], [currentDepth = 0],
    [seen = new WeakSet()]. *)
Definition serialize (h : heap) (obj : value) (maxDepth : nat)
    : outcome json :=
  fst (safeSerialize h obj maxDepth 0 ∅).
Definition serialize_default (h : heap) (obj : value) : outcome json :=
  serialize h obj 3.

Definition is_primitive (obj : value) : bool :=
  match obj with VPrim _ => true | _ => false end.

(** The [try] and [catch] of the loop over the keys (lines 54-58), up to
    the assignment: the value that is assigned under the key. *)
Definition serialize_field (h : heap) (maxDepth currentDepth : nat)
    (kv : string * slot) : M (string * json) :=
  let* v :=
    try_catch
      (let* x := read_slot (snd kv) in
       safeSerialize h x maxDepth (currentDepth + 1))
      (ret serialization_error) in
  ret (fst kv, v).

(** The object that assigning the entries of [fields] in order to [{}]
    builds. *)
Definition assign_all (fields : list (string * json))
    : list (string * json) :=
  fold_left (fun result kv => assign result (fst kv) (snd kv)) fields [].

(** What "serialized as its real structure" means for one array element
    and for one key: the output at that position is what a recursive call
    one level down returned; under a key, it is the error sentinel when
    reading the key or that call throws. *)
Definition element_of (h : heap) (maxDepth currentDepth : nat)
    (item : value) (j : json) : Prop :=
  exists s s', safeSerialize h item maxDepth (currentDepth + 1) s = (Ret j, s').

Definition item_of (h : heap) (maxDepth currentDepth : nat)
    (item : slot) (j : json) : Prop :=
  exists v, item = Data v /\ element_of h maxDepth currentDepth v j.

Definition throws_below (h : heap) (maxDepth currentDepth : nat)
    (item : value) : Prop :=
  exists s error s',
    safeSerialize h item maxDepth (currentDepth + 1) s = (Throw error, s').

Definition field_of (h : heap) (maxDepth currentDepth : nat)
    (kv : string * slot) (f : string * json) : Prop :=
  fst f = fst kv /\
  match snd kv with
  | Data v =>
      element_of h maxDepth currentDepth v (snd f)
      \/ (throws_below h maxDepth currentDepth v
          /\ snd f = serialization_error)
  | ThrowingGetter _ => snd f = serialization_error
  end.

(** No array of the heap has an accessor element and no object of it
    throws when inspected. *)
Definition plain (h : heap) : Prop :=
  forall a,
    match h a with
    | HArray items => forall item, item ∈ items -> exists v, item = Data v
    | HObject _ => True
    | HExotic _ _ => False
    end.

End Serializer.

(* ===================================================================== *)
(** ** The tool-id substitution (lines 166 and 318) *)
(* ===================================================================== *)

Module ToolId.

(** [s.replace(/c/g, d)] for a one-character pattern [c]. *)
Fixpoint replace_all (c d : ascii) (s : string) : string :=
  match s with
  | EmptyString => EmptyString
  | String x rest =>
      String (if Ascii.eqb x c then d else x) (replace_all c d rest)
  end.

(** [commandId.replace(/:/g, ' ')] in [registerTools]. *)
Definition toolId_of (commandId : string) : string :=
  replace_all ":"%char " "%char commandId.

(** [toolId.replace(/ /g, ':')] in [applyToolFromServer]. *)
Definition commandId_of (toolId : string) : string :=
  replace_all " "%char ":"%char toolId.

Fixpoint contains (c : ascii) (s : string) : bool :=
  match s with
  | EmptyString => false
  | String x rest => Ascii.eqb x c || contains c rest
  end.

End ToolId.

(* ===================================================================== *)
(** ** MCPToolsWebSocket (lines 75-382) *)
(* ===================================================================== *)

Module Manager.
Import JS Serializer ToolId.

(** *** The collaborators: host command registry, sockets, console, widget *)

(** What awaiting [commands.execute(id, args)] gives: a result value in
    its heap, or a rejection whose [String(error)] is [error]. *)
Inductive completion : Type :=
| Resolved (h : heap) (result : value)
| Rejected (error : string).

Record info : Type := {
  isEnabled : bool;
  label : string;
  caption : string;
  usage : string
}.

(** One registered host command. [cmd_info] is [None] when one of the
    metadata queries of [registerTools] throws for it. *)
Record command : Type := {
  cmd_id : string;
  cmd_info : option info;
  cmd_run : json -> completion
}.

Definition registry := list command.

Definition listCommands (app : registry) : list string := map cmd_id app.

Definition lookup_command (app : registry) (id : string) : option command :=
  find (fun c => String.eqb (cmd_id c) id) app.

Definition hasCommand (app : registry) (id : string) : bool :=
  match lookup_command app id with Some _ => true | None => false end.

Definition execute (app : registry) (id : string) (args : json) : completion :=
  match lookup_command app id with
  | Some c => cmd_run c args
  | None => Rejected ("Error: Command '" +:+ id +:+ "' not registered.")
  end.

Inductive readyState : Type := CONNECTING | OPEN | CLOSING | CLOSED.
Inductive level : Type := LOG | WARN | ERROR.
Inductive direction : Type := Sent | Received.

Record tool : Type := {
  tool_id : string;
  tool_label : string;
  tool_caption : string;
  tool_usage : string;
  tool_isEnabled : bool;
  tool_parameters : json
}.

(** Where a call of a host command came from: a request of the server,
    with its [execution_id], or a click in the panel. *)
Inductive origin : Type :=
| FromServer (executionId : json)
| FromPanel.

(** A call of [applyToolFromServer] or [applyToolLocal] that stands at
    its [await] (line 321 or line 246): what the rest of the function
    still needs, and what the awaited promise settles to. *)
Record call : Type := {
  call_origin : origin;
  call_toolId : string;
  call_parameters : json;
  call_completion : completion
}.

(** The manager's two mutable fields, then the world its handlers act
    on: every [WebSocket] object [connect()] has created (each carries the
    four handlers installed there), the callbacks it has scheduled, the
    traces of what it sent, logged, showed and invoked, and the calls
    that stand at their [await]. *)
Record state : Type := {
  ws : option nat;
  reconnectAttempts : nat;
  sockets : list readyState;
  timers : list nat;
  frames : nat;
  wire : list (nat * json);
  console : list (level * string);
  widget_tools : list tool;
  widget_messages : list (direction * json * json);
  invoked : list (string * json);
  awaiting : list call
}.

Definition maxReconnectAttempts : nat := 5.
Definition reconnectDelay : nat := 2000.

Definition set_ws (v : option nat) (st : state) : state :=
  {| ws := v; reconnectAttempts := reconnectAttempts st;
     sockets := sockets st; timers := timers st; frames := frames st;
     wire := wire st; console := console st;
     widget_tools := widget_tools st;
     widget_messages := widget_messages st; invoked := invoked st;
     awaiting := awaiting st |}.

Definition set_reconnectAttempts (v : nat) (st : state) : state :=
  {| ws := ws st; reconnectAttempts := v; sockets := sockets st;
     timers := timers st; frames := frames st; wire := wire st;
     console := console st; widget_tools := widget_tools st;
     widget_messages := widget_messages st; invoked := invoked st;
     awaiting := awaiting st |}.

Definition set_sockets (v : list readyState) (st : state) : state :=
  {| ws := ws st; reconnectAttempts := reconnectAttempts st; sockets := v;
     timers := timers st; frames := frames st; wire := wire st;
     console := console st; widget_tools := widget_tools st;
     widget_messages := widget_messages st; invoked := invoked st;
     awaiting := awaiting st |}.

Definition set_timers (v : list nat) (st : state) : state :=
  {| ws := ws st; reconnectAttempts := reconnectAttempts st;
     sockets := sockets st; timers := v; frames := frames st;
     wire := wire st; console := console st;
     widget_tools := widget_tools st;
     widget_messages := widget_messages st; invoked := invoked st;
     awaiting := awaiting st |}.

Definition set_frames (v : nat) (st : state) : state :=
  {| ws := ws st; reconnectAttempts := reconnectAttempts st;
     sockets := sockets st; timers := timers st; frames := v;
     wire := wire st; console := console st;
     widget_tools := widget_tools st;
     widget_messages := widget_messages st; invoked := invoked st;
     awaiting := awaiting st |}.

Definition set_wire (v : list (nat * json)) (st : state) : state :=
  {| ws := ws st; reconnectAttempts := reconnectAttempts st;
     sockets := sockets st; timers := timers st; frames := frames st;
     wire := v; console := console st; widget_tools := widget_tools st;
     widget_messages := widget_messages st; invoked := invoked st;
     awaiting := awaiting st |}.

Definition set_console (v : list (level * string)) (st : state) : state :=
  {| ws := ws st; reconnectAttempts := reconnectAttempts st;
     sockets := sockets st; timers := timers st; frames := frames st;
     wire := wire st; console := v; widget_tools := widget_tools st;
     widget_messages := widget_messages st; invoked := invoked st;
     awaiting := awaiting st |}.

Definition set_widget_tools (v : list tool) (st : state) : state :=
  {| ws := ws st; reconnectAttempts := reconnectAttempts st;
     sockets := sockets st; timers := timers st; frames := frames st;
     wire := wire st; console := console st; widget_tools := v;
     widget_messages := widget_messages st; invoked := invoked st;
     awaiting := awaiting st |}.

Definition set_widget_messages (v : list (direction * json * json))
    (st : state) : state :=
  {| ws := ws st; reconnectAttempts := reconnectAttempts st;
     sockets := sockets st; timers := timers st; frames := frames st;
     wire := wire st; console := console st;
     widget_tools := widget_tools st; widget_messages := v;
     invoked := invoked st; awaiting := awaiting st |}.

Definition set_invoked (v : list (string * json)) (st : state) : state :=
  {| ws := ws st; reconnectAttempts := reconnectAttempts st;
     sockets := sockets st; timers := timers st; frames := frames st;
     wire := wire st; console := console st;
     widget_tools := widget_tools st;
     widget_messages := widget_messages st; invoked := v;
     awaiting := awaiting st |}.

Definition set_awaiting (v : list call) (st : state) : state :=
  {| ws := ws st; reconnectAttempts := reconnectAttempts st;
     sockets := sockets st; timers := timers st; frames := frames st;
     wire := wire st; console := console st;
     widget_tools := widget_tools st;
     widget_messages := widget_messages st; invoked := invoked st;
     awaiting := v |}.

(** [console.log], [console.warn], [console.error]: the level and the
    text of the first argument. *)
Definition console_ (lvl : level) (text : string) (st : state) : state :=
  set_console (console st ++ [(lvl, text)]) st.

(** [this.widget.addMessage(direction, type, data)]. *)
Definition addMessage (d : direction) (type data : json) (st : state)
    : state :=
  set_widget_messages (widget_messages st ++ [(d, type, data)]) st.

Definition dec (n : nat) : string := NilZero.string_of_uint (Nat.to_uint n).

(** [m.k] on a value that is an object literal of the source. *)
Definition field (m : json) (k : string) : json :=
  match get m k with Some v => v | None => JUndefined end.

(** *** sendMessage (lines 363-371) *)

Definition sendMessage (message : json) (st : state) : state :=
  match ws st with
  | Some i =>
      match sockets st !! i with
      | Some OPEN =>
          addMessage Sent (or_else (field message "type") (JStr "unknown"))
            message (set_wire (wire st ++ [(i, message)]) st)
      | _ => console_ ERROR "WebSocket is not connected" st
      end
  | None => console_ ERROR "WebSocket is not connected" st
  end.

(** *** connect and its handlers (lines 101-129), attemptReconnect
    (lines 134-144), close (lines 376-381) *)

Definition connect (st : state) : state :=
  let st := console_ LOG "Connecting to WebSocket:" st in
  set_ws (Some (length (sockets st)))
    (set_sockets (sockets st ++ [CONNECTING]) st).

Definition onopen (st : state) : state :=
  let st := console_ LOG "WebSocket connected" st in
  let st := set_reconnectAttempts 0 st in
  set_frames (S (frames st)) st.

Definition onerror (st : state) : state :=
  console_ ERROR "WebSocket error:" st.

Definition attemptReconnect (st : state) : state :=
  if (reconnectAttempts st <? maxReconnectAttempts)%nat then
    let st := set_reconnectAttempts (S (reconnectAttempts st)) st in
    let st :=
      console_ LOG
        ("Attempting to reconnect (" +:+ dec (reconnectAttempts st) +:+ "/"
           +:+ dec maxReconnectAttempts +:+ ")...") st in
    set_timers (timers st ++ [reconnectDelay]) st
  else console_ ERROR "Max reconnection attempts reached" st.

Definition onclose (st : state) : state :=
  let st := console_ LOG "WebSocket closed" st in
  attemptReconnect st.

(** [WebSocket.prototype.close()] of the platform: a socket that is
    connecting or open starts closing, any other is left alone. The close
    event comes later, as an event of its own. *)
Definition ws_close (r : readyState) : readyState :=
  match r with
  | CONNECTING | OPEN => CLOSING
  | CLOSING => CLOSING
  | CLOSED => CLOSED
  end.

Definition close (st : state) : state :=
  match ws st with
  | Some i => set_ws None (set_sockets (alter ws_close i (sockets st)) st)
  | None => st
  end.

(** *** registerTools (lines 149-196) and getCommandParameters *)

Definition getCommandParameters (commandId : string) : json :=
  JObj [("type", JStr "object");
        ("properties", JObj []);
        ("description", JStr "Command arguments (if any)")].

(** [a || b] on strings. *)
Definition or_string (a b : string) : string :=
  if String.eqb a EmptyString then b else a.

(** The body of the [try] for one command id; [None] when it throws. *)
Definition describe (app : registry) (commandId : string) : option tool :=
  match lookup_command app commandId with
  | Some c =>
      match cmd_info c with
      | Some i =>
          let toolId := toolId_of commandId in
          Some {| tool_id := toolId;
                  tool_label := or_string (label i) toolId;
                  tool_caption := or_string (caption i) EmptyString;
                  tool_usage := or_string (usage i) EmptyString;
                  tool_isEnabled := isEnabled i;
                  tool_parameters := getCommandParameters commandId |}
      | None => None
      end
  | None => None
  end.

Fixpoint collect_tools (app : registry) (ids : list string)
    (tools : list tool) (st : state) : list tool * state :=
  match ids with
  | [] => (tools, st)
  | commandId :: rest =>
      match describe app commandId with
      | Some t => collect_tools app rest (tools ++ [t]) st
      | None =>
          collect_tools app rest tools
            (console_ WARN
               ("Error processing command " +:+ commandId +:+ ":") st)
      end
  end.

Definition tool_json (t : tool) : json :=
  JObj [("id", JStr (tool_id t));
        ("label", JStr (tool_label t));
        ("caption", JStr (tool_caption t));
        ("usage", JStr (tool_usage t));
        ("isEnabled", JBool (tool_isEnabled t));
        ("parameters", tool_parameters t)].

Definition registerTools (app : registry) (st : state) : state :=
  let allCommandIds := listCommands app in
  let st :=
    console_ LOG
      ("Total JupyterLab commands available: " +:+ dec (length allCommandIds))
      st in
  let (tools, st) := collect_tools app allCommandIds [] st in
  let st :=
    console_ LOG
      ("Successfully processed " +:+ dec (length tools) +:+ " tools") st in
  let st := set_widget_tools tools st in
  let st :=
    sendMessage (JObj [("type", JStr "register_tools");
                       ("tools", JArr (map tool_json tools))]) st in
  console_ LOG ("Registered " +:+ dec (length tools) +:+ " tools with backend")
    st.

(** *** The three execution paths (lines 241-358)

    An [async] function runs up to its [await] within the event that
    called it and stops there; the rest runs when the awaited promise
    settles, on the manager as it is by then. Each of the two paths that
    await is therefore two functions: [_start], which returns the call
    left standing at the [await], if any, and [_resume]. *)

Definition call_command (id : string) (args : json) (st : state) : state :=
  set_invoked (invoked st ++ [(id, args)]) st.

Definition local_failure (toolId : string) (parameters : json)
    (error : string) : json :=
  JObj [("tool_id", JStr toolId); ("parameters", parameters);
        ("error", JStr error); ("success", JBool false)].

Definition local_success (toolId : string) (parameters result : json)
    : json :=
  JObj [("tool_id", JStr toolId); ("parameters", parameters);
        ("result", result); ("success", JBool true)].

(** The [catch] of [applyToolLocal]. *)
Definition applyToolLocal_catch (toolId : string) (parameters : json)
    (error : string) (st : state) : state :=
  let st :=
    console_ ERROR ("Error executing tool locally " +:+ toolId +:+ ":") st in
  addMessage Sent (JStr "local_execute")
    (local_failure toolId parameters error) st.

(** Lines 243-246 and 259-266. *)
Definition applyToolLocal_start (app : registry) (toolId : string)
    (parameters : json) (st : state) : state * option call :=
  let st := console_ LOG ("Executing tool LOCALLY: " +:+ toolId) st in
  if hasCommand app toolId then
    (call_command toolId parameters st,
     Some {| call_origin := FromPanel; call_toolId := toolId;
             call_parameters := parameters;
             call_completion := execute app toolId parameters |})
  else
    let st := console_ ERROR ("Command not found: " +:+ toolId) st in
    (addMessage Sent (JStr "local_execute")
       (local_failure toolId parameters ("Command not found: " +:+ toolId))
       st,
     None).

(** Lines 246-258, and the [catch] when the promise rejects or
    [safeSerialize] throws. The serializer never runs out of fuel, so the
    last branch is never taken. *)
Definition applyToolLocal_resume (toolId : string) (parameters : json)
    (settled : completion) (st : state) : state :=
  match settled with
  | Resolved h result =>
      let st :=
        console_ LOG ("Tool " +:+ toolId +:+ " executed successfully") st in
      match serialize h result 2 with
      | Ret sanitizedResult =>
          addMessage Sent (JStr "local_execute")
            (local_success toolId parameters sanitizedResult) st
      | Throw error => applyToolLocal_catch toolId parameters error st
      | OutOfFuel => st
      end
  | Rejected error => applyToolLocal_catch toolId parameters error st
  end.

Definition applyToolRemote (toolId : string) (parameters : json)
    (st : state) : state :=
  let st :=
    console_ LOG
      ("Sending tool execution request via WebSocket: " +:+ toolId) st in
  let st :=
    sendMessage (JObj [("type", JStr "apply_tool");
                       ("tool_id", JStr toolId);
                       ("parameters", parameters)]) st in
  console_ LOG ("Sent apply_tool message for " +:+ toolId +:+ " to server") st.

Definition tool_result_success (toolId executionId result : json) : json :=
  JObj [("type", JStr "tool_result"); ("tool_id", toolId);
        ("execution_id", executionId); ("success", JBool true);
        ("result", result)].

Definition tool_result_failure (toolId executionId : json) (error : string)
    : json :=
  JObj [("type", JStr "tool_result"); ("tool_id", toolId);
        ("execution_id", executionId); ("success", JBool false);
        ("error", JStr error)].

(** [Number::toString] for an integer. A number is held as the integer
    its source text denotes and stands for the double nearest to it, as
    [JSON.parse] reads it. What is printed is the shortest decimal that
    reads back as that double, written out in full below [10^21] and with
    an exponent from there on, and [Infinity] past the largest double. *)

(** The double nearest to a positive integer, ties to even. *)
Definition to_double (v : Z) : Z :=
  if (v <? 2 ^ 53)%Z then v
  else
    let shift := (Z.log2 v - 52)%Z in
    let q := Z.shiftr v shift in
    let r := Z.land v (Z.ones shift) in
    let half := Z.shiftl 1 (shift - 1) in
    let q' :=
      if (half <? r)%Z || ((r =? half)%Z && Z.odd q) then (q + 1)%Z else q in
    Z.shiftl q' shift.

Definition digits (v : Z) : string := NilZero.string_of_int (Z.to_int v).

(** The decimal of [k] significant digits that reads back as [m], if
    there is one: [m] cut after [k] digits, or that plus one in the last
    place; the nearer one when both do, the even one on a tie. [d] is the
    number of digits of [m]. *)
Definition with_digits (m : Z) (d k : nat) : option Z :=
  let scale := (10 ^ Z.of_nat (d - k))%Z in
  let lo := (m / scale * scale)%Z in
  let hi := (lo + scale)%Z in
  match (to_double lo =? m)%Z, (to_double hi =? m)%Z with
  | true, true =>
      if (m - lo <? hi - m)%Z then Some lo
      else if (hi - m <? m - lo)%Z then Some hi
      else if Z.even (m / scale) then Some lo else Some hi
  | true, false => Some lo
  | false, true => Some hi
  | false, false => None
  end.

Fixpoint shortest (m : Z) (d k fuel : nat) : Z :=
  match fuel with
  | O => m
  | S fuel' =>
      match with_digits m d k with
      | Some v => v
      | None => shortest m d (S k) fuel'
      end
  end.

Fixpoint strip_zeros (reversed : string) : string :=
  match reversed with
  | String "0" rest => strip_zeros rest
  | _ => reversed
  end.

Definition exponential (v : Z) : string :=
  let all := digits v in
  let s := String.rev (strip_zeros (String.rev all)) in
  match s with
  | EmptyString => all
  | String first EmptyString =>
      String first ("e+" +:+ digits (Z.of_nat (String.length all - 1)))
  | String first rest =>
      String first
        ("." +:+ rest +:+ "e+" +:+ digits (Z.of_nat (String.length all - 1)))
  end.

Definition Number_positive (n : Z) : string :=
  let m := to_double n in
  if (2 ^ 1024 <=? m)%Z then "Infinity"
  else
    let d := String.length (digits m) in
    let v := shortest m d 1 d in
    if (v <? 10 ^ 21)%Z then digits v else exponential v.

Definition Number_toString (n : Z) : string :=
  if (n =? 0)%Z then "0"
  else if (n <? 0)%Z then "-" +:+ Number_positive (- n)
  else Number_positive n.

Fixpoint all_some {A} (l : list (option A)) : option (list A) :=
  match l with
  | [] => Some []
  | Some x :: rest => option_map (cons x) (all_some rest)
  | None :: _ => None
  end.

Fixpoint has_key (k : string) (fields : list (string * json)) : bool :=
  match fields with
  | [] => false
  | (k', _) :: rest => String.eqb k k' || has_key k rest
  end.

(** [String(v)], as a template literal prints a parsed value; [None]
    when the conversion throws. An object prints through the [toString]
    it inherits; one that has a key [toString] of its own holds there a
    parsed value, which is no function, and neither its [valueOf] nor the
    inherited one then yields a primitive: the conversion throws a
    [TypeError]. An array joins what its elements print. *)
Fixpoint String_json (v : json) : option string :=
  match v with
  | JPrim PNull => Some "null"
  | JPrim PUndefined => Some "undefined"
  | JPrim (PBool b) => Some (if b then "true" else "false")
  | JPrim (PNum n) => Some (Number_toString n)
  | JPrim (PStr s) => Some s
  | JArr items =>
      option_map (String.concat ",")
        (all_some
           (List.map (fun x => match x with
                               | JPrim PNull | JPrim PUndefined =>
                                   Some EmptyString
                               | _ => String_json x
                               end) items))
  | JObj fields =>
      if has_key "toString" fields then None else Some "[object Object]"
  end.

(** [String(error)] of the [TypeError] that calling [replace] on a value
    without that method raises, in V8's wording. *)
Definition replace_TypeError (toolId : json) : string :=
  match toolId with
  | JPrim PNull => "TypeError: Cannot read properties of null (reading 'replace')"
  | JPrim PUndefined =>
      "TypeError: Cannot read properties of undefined (reading 'replace')"
  | _ => "TypeError: toolId.replace is not a function"
  end.

(** The [catch] of [applyToolFromServer]. Its first statement prints
    [toolId] in a template literal (line 348); when that throws, the
    exception leaves the function and nothing is logged or sent. *)
Definition applyToolFromServer_catch (toolId executionId : json)
    (error : string) (st : state) : state :=
  match String_json toolId with
  | Some shown =>
      let st :=
        console_ ERROR ("Error applying tool " +:+ shown +:+ ":") st in
      sendMessage (tool_result_failure toolId executionId error) st
  | None => st
  end.

(** Lines 314-321 and 336-346. [toolId] is whatever [message.tool_id]
    was: the template literal of line 314 prints it, which throws for a
    value that cannot be printed, and then so does the [catch]; only a
    string has the [replace] method of line 318. *)
Definition applyToolFromServer_start (app : registry) (toolId : json)
    (parameters executionId : json) (st : state) : state * option call :=
  match String_json toolId with
  | None => (st, None)
  | Some shown =>
      let st := console_ LOG ("Applying tool from server: " +:+ shown) st in
      match toolId with
      | JPrim (PStr id) =>
          let commandId := commandId_of id in
          if hasCommand app commandId then
            (call_command commandId parameters st,
             Some {| call_origin := FromServer executionId;
                     call_toolId := id;
                     call_parameters := parameters;
                     call_completion := execute app commandId parameters |})
          else
            let st :=
              console_ ERROR ("Command not found: " +:+ commandId) st in
            (sendMessage
               (tool_result_failure toolId executionId
                  ("Command not found: " +:+ commandId)) st,
             None)
      | _ =>
          (applyToolFromServer_catch toolId executionId
             (replace_TypeError toolId) st,
           None)
      end
  end.

(** Lines 321-335, and the [catch] when the promise rejects or
    [safeSerialize] throws. [id] is the tool id, a string by now. The
    serializer never runs out of fuel, so the last branch is never
    taken. *)
Definition applyToolFromServer_resume (id : string) (executionId : json)
    (settled : completion) (st : state) : state :=
  match settled with
  | Resolved h result =>
      let st :=
        console_ LOG ("Tool " +:+ id +:+ " executed successfully") st in
      match serialize h result 2 with
      | Ret sanitizedResult =>
          sendMessage
            (tool_result_success (JStr id) executionId sanitizedResult) st
      | Throw error =>
          applyToolFromServer_catch (JStr id) executionId error st
      | OutOfFuel => st
      end
  | Rejected error =>
      applyToolFromServer_catch (JStr id) executionId error st
  end.

(** The rest of a call, from its [await] on. *)
Definition resume (c : call) (st : state) : state :=
  match call_origin c with
  | FromServer executionId =>
      applyToolFromServer_resume (call_toolId c) executionId
        (call_completion c) st
  | FromPanel =>
      applyToolLocal_resume (call_toolId c) (call_parameters c)
        (call_completion c) st
  end.

(** The call is left standing at its [await]. *)
Definition suspend (r : state * option call) : state :=
  match r with
  | (st, Some c) => set_awaiting (awaiting st ++ [c]) st
  | (st, None) => st
  end.

(** The promise settles before anything else happens to the manager. *)
Definition finish (r : state * option call) : state :=
  match r with
  | (st, Some c) => resume c st
  | (st, None) => st
  end.

(** A whole call, for a command that settles before any other event
    reaches the manager. *)
Definition applyToolLocal (app : registry) (toolId : string)
    (parameters : json) (st : state) : state :=
  finish (applyToolLocal_start app toolId parameters st).

Definition applyToolFromServer (app : registry) (toolId : json)
    (parameters executionId : json) (st : state) : state :=
  finish (applyToolFromServer_start app toolId parameters executionId st).

(** *** handleMessage (lines 218-236)

    [data] is [None] when [JSON.parse] throws; reading [message.type] of
    a parsed [null] throws as well. Both land in the [catch]. The call of
    [applyToolFromServer] returns at its [await]; an exception it raises
    rejects its promise and does not reach this [catch]. *)
Definition handleMessage (app : registry) (data : option json) (st : state)
    : state :=
  match data with
  | None => console_ ERROR "Error handling message:" st
  | Some message =>
      let st := console_ LOG "Received message:" st in
      match get message "type" with
      | None => console_ ERROR "Error handling message:" st
      | Some type =>
          let st :=
            addMessage Received (or_else type (JStr "unknown")) message st in
          match type with
          | JPrim (PStr "apply_tool") =>
              suspend
                (applyToolFromServer_start app (field message "tool_id")
                   (or_else (field message "parameters") (JObj []))
                   (field message "execution_id") st)
          | _ => st
          end
      end
  end.

(** *** What the platform and the user do to the manager *)

Inductive event : Type :=
| SocketOpens (i : nat)
| SocketErrors (i : nat)
| SocketCloses (i : nat)
| SocketReceives (i : nat) (data : option json)
| TimerFires
| FrameFires
| CallConnect
| CallClose
| ClickLocal (toolId : string) (parameters : json)
| ClickRemote (toolId : string) (parameters : json)
| CommandSettles (k : nat).

(** A socket opens once, out of [CONNECTING]; it closes once, out of any
    other state than [CLOSED]; it delivers data only while [OPEN]. The
    handlers run are those [connect()] installed on it. *)
Definition socket_opens (i : nat) (st : state) : state :=
  match sockets st !! i with
  | Some CONNECTING => onopen (set_sockets (<[i:=OPEN]> (sockets st)) st)
  | _ => st
  end.

Definition socket_errors (i : nat) (st : state) : state :=
  match sockets st !! i with
  | Some CLOSED | None => st
  | Some _ => onerror st
  end.

Definition socket_closes (i : nat) (st : state) : state :=
  match sockets st !! i with
  | Some CLOSED | None => st
  | Some _ => onclose (set_sockets (<[i:=CLOSED]> (sockets st)) st)
  end.

Definition socket_receives (app : registry) (i : nat) (data : option json)
    (st : state) : state :=
  match sockets st !! i with
  | Some OPEN => handleMessage app data st
  | _ => st
  end.

(** The promise that the [k]-th standing call awaits settles, and the
    call runs on from there. *)
Definition command_settles (k : nat) (st : state) : state :=
  match awaiting st !! k with
  | Some c => resume c (set_awaiting (delete k (awaiting st)) st)
  | None => st
  end.

(** The oldest [setTimeout(() => this.connect(), ...)] comes due. *)
Definition timer_fires (st : state) : state :=
  match timers st with
  | [] => st
  | _ :: rest => connect (set_timers rest st)
  end.

(** A [requestAnimationFrame(() => this.registerTools())] comes due. *)
Definition frame_fires (app : registry) (st : state) : state :=
  match frames st with
  | O => st
  | S n => registerTools app (set_frames n st)
  end.

Definition deliver (app : registry) (e : event) (st : state) : state :=
  match e with
  | SocketOpens i => socket_opens i st
  | SocketErrors i => socket_errors i st
  | SocketCloses i => socket_closes i st
  | SocketReceives i data => socket_receives app i data st
  | TimerFires => timer_fires st
  | FrameFires => frame_fires app st
  | CallConnect => connect st
  | CallClose => close st
  | ClickLocal toolId parameters =>
      suspend (applyToolLocal_start app toolId parameters st)
  | ClickRemote toolId parameters => applyToolRemote toolId parameters st
  | CommandSettles k => command_settles k st
  end.

Definition run (app : registry) (es : list event) (st : state) : state :=
  fold_left (fun s e => deliver app e s) es st.

(** [this.ws && this.ws.readyState === WebSocket.OPEN]. *)
Definition is_open (st : state) : bool :=
  match ws st with
  | Some i =>
      match sockets st !! i with
      | Some OPEN => true
      | _ => false
      end
  | None => false
  end.

(** The transport drops the manager's current socket; the reconnect that
    this schedules, if any, then comes due. *)
Definition connection_lost (st : state) : state :=
  match ws st with
  | Some i => timer_fires (socket_closes i st)
  | None => st
  end.

(** Where the manager stands after [n] consecutive losses that follow an
    open, [base] sockets having existed at the open. *)
Definition after_losses (base n : nat) (s : state) : Prop :=
  timers s = []
  /\ reconnectAttempts s = Nat.min n maxReconnectAttempts
  /\ length (sockets s) = base + Nat.min n maxReconnectAttempts
  /\ exists j, ws s = Some j
       /\ ((n <= maxReconnectAttempts
            /\ exists r, sockets s !! j = Some r /\ r <> CLOSED)
           \/ (maxReconnectAttempts < n /\ sockets s !! j = Some CLOSED)).

(** A state with its console wiped: what is left is everything the
    handlers can read back. *)
Definition mute (st : state) : state := set_console [] st.

(** The manager as the constructor leaves it. *)
Definition initial : state :=
  {| ws := None; reconnectAttempts := 0; sockets := []; timers := [];
     frames := 0; wire := []; console := []; widget_tools := [];
     widget_messages := []; invoked := []; awaiting := [] |}.

End Manager.

(* ===================================================================== *)
(** ** Sample inputs *)
(* ===================================================================== *)

Module Samples.
Import JS Serializer Manager.

(** [const a = {x: 1}; const root = {p: a, q: a}]: [a] is shared by two
    sibling keys and nothing is cyclic. Address 0 is [root], 1 is [a]. *)
Definition shared_heap : heap :=
  fun a =>
    match a with
    | 0 => HObject [("p", Data (VRef 1)); ("q", Data (VRef 1))]
    | 1 => HObject [("x", Data (VPrim (PNum 1)))]
    | _ => HObject []
    end.

(** [const o = {}; o.self = o; const l = []; l.push(l); o.list = l;
    o.f = () => 0; Object.defineProperty(o, 'g', {get() { throw 0 },
    enumerable: true})]. Address 0 is [o], 1 is [l]. *)
Definition cyclic_heap : heap :=
  fun a =>
    match a with
    | 0 => HObject [("self", Data (VRef 0)); ("list", Data (VRef 1));
                    ("f", Data (VOther (Some "() => 0")));
                    ("g", ThrowingGetter "0")]
    | 1 => HArray [Data (VRef 1)]
    | _ => HObject []
    end.

(** An unbounded nest: the array at address [a] holds a primitive and the
    array at address [a + 1]. *)
Definition nested_heap : heap :=
  fun a => HArray [Data (VPrim (PNum (Z.of_nat a))); Data (VRef (S a))].

(** The same nest made of keyed objects. *)
Definition nested_objects : heap :=
  fun a => HObject [("level", Data (VPrim (PNum (Z.of_nat a))));
                    ("next", Data (VRef (S a)))].

Definition no_heap : heap := fun _ => HObject [].

(** [JSON.parse('{"a":1,"__proto__":5,"b":2}')]. *)
Definition proto_heap : heap :=
  fun _ => HObject [("a", Data (VPrim (PNum 1)));
                    ("__proto__", Data (VPrim (PNum 5)));
                    ("b", Data (VPrim (PNum 2)))].

(** [const a = [1]; Object.defineProperty(a, 1, {get() { throw new
    Error('boom') }, enumerable: true}); const o = {items: a, n: 2};
    const p = new Proxy({}, {ownKeys() { throw new Error('no keys') }});
    const l = [p]]. Address 0 is [a], 1 is [o], 2 is [p], 3 is [l]. *)
Definition accessor_heap : heap :=
  fun a =>
    match a with
    | 0 => HArray [Data (VPrim (PNum 1)); ThrowingGetter "Error: boom"]
    | 1 => HObject [("items", Data (VRef 0)); ("n", Data (VPrim (PNum 2)))]
    | 2 => HExotic OwnKeys "Error: no keys"
    | 3 => HArray [Data (VRef 2)]
    | _ => HObject []
    end.

(** A host with [notebook:run], which resolves to 42, and
    [notebook:save], which rejects. *)
Definition host : registry :=
  [ {| cmd_id := "notebook:run";
       cmd_info := Some {| isEnabled := true; label := "Run";
                           caption := EmptyString; usage := EmptyString |};
       cmd_run := fun _ => Resolved no_heap (VPrim (PNum 42)) |};
    {| cmd_id := "notebook:save";
       cmd_info := Some {| isEnabled := true; label := EmptyString;
                           caption := EmptyString; usage := EmptyString |};
       cmd_run := fun _ => Rejected "Error: disk full" |} ].

Definition apply_tool (toolId executionId : string) : json :=
  JObj [("type", JStr "apply_tool"); ("tool_id", JStr toolId);
        ("parameters", JObj []); ("execution_id", JStr executionId)].

(** A manager whose first socket is open. *)
Definition connected : state :=
  run host [CallConnect; SocketOpens 0] initial.

End Samples.

(* ===================================================================== *)
(** ** Sizes of serializer outputs *)
(* ===================================================================== *)

Module Shapes.
Import JS Serializer.

(** [fits n j]: the tree [j] nests arrays and objects at most [n] deep
    and none of them has more than 100 entries. *)
Fixpoint fits (n : nat) (j : json) {struct n} : Prop :=
  match j with
  | JPrim _ => True
  | JArr items =>
      match n with
      | O => False
      | S n' => length items <= 100 /\ Forall (fits n') items
      end
  | JObj fields =>
      match n with
      | O => False
      | S n' =>
          length fields <= 100
          /\ Forall (fun kv : string * json => fits n' (snd kv)) fields
      end
  end.

(** [n] arrays of one element around [j]. *)
Definition nest (n : nat) (j : json) : json :=
  Nat.iter n (fun x => JArr [x]) j.

(** An array of 150 elements and an object of 150 keys. *)
Definition wide_heap : heap :=
  fun a =>
    match a with
    | 0 => HArray (repeat (Data (VPrim PNull)) 150)
    | _ => HObject (map (fun n => (Manager.dec n, Data (VPrim PNull))) (seq 0 150))
    end.

End Shapes.

(* ===================================================================== *)
(** ** What the manager's handlers keep *)
(* ===================================================================== *)

Module Invariants.
Import JS Manager.

(** The fields that make up the connection proper. *)
Definition connection (st : state)
    : option nat * nat * list readyState * list nat * nat :=
  (ws st, reconnectAttempts st, sockets st, timers st, frames st).

(** The retry counter is within its bound and the manager's socket
    reference points at a socket that exists. *)
Definition well_formed (st : state) : Prop :=
  reconnectAttempts st <= maxReconnectAttempts
  /\ forall i, ws st = Some i -> i < length (sockets st).

(** From [st] to [st'] at most one frame went out, and if one did it went
    out on the socket the manager held, which was open. *)
Definition sent_at_most_one (st st' : state) : Prop :=
  wire st' = wire st
  \/ exists i m, ws st = Some i /\ sockets st !! i = Some OPEN
                 /\ wire st' = (wire st ++ [(i, m)])%list.

(** The [register_tools] message for a list of tools. *)
Definition register_tools (tools : list tool) : json :=
  JObj [("type", JStr "register_tools");
        ("tools", JArr (map tool_json tools))].

End Invariants.

(* ===================================================================== *)
(** ** ToolItem and the tool filter (components/MCPToolsPanel.tsx) *)
(* ===================================================================== *)

Module Panel.
Import JS Manager.

(** The three [useState] cells of [ToolItem] (lines 49-51). *)
Record item : Type := {
  showForm : bool;
  parameters : string;
  error : option string
}.

Definition fresh : item :=
  {| showForm := false; parameters := "{}"; error := None |}.

(** [Object.keys(v).length] of a truthy value. *)
Definition keys_length (v : json) : nat :=
  match v with
  | JObj fields => length fields
  | JArr items => length items
  | JPrim (PStr s) => String.length s
  | _ => 0
  end.

(** Lines 54-57, as a truth value. *)
Definition hasParameters (t : tool) : bool :=
  truthy (tool_parameters t)
  && truthy (field (tool_parameters t) "properties")
  && (0 <? keys_length (field (tool_parameters t) "properties"))%nat.

Inductive mode : Type := Local | Remote.

(** A call of [onExecuteLocal] or [onExecuteRemote]. *)
Definition call : Type := (mode * string * json)%type.

(** What the user can do to one item: the two header buttons, the three
    buttons and the close cross of the form, and typing in its text
    area. *)
Inductive action : Type :=
| HeaderLocal
| HeaderRemote
| FormLocal
| FormRemote
| FormCancel
| FormClose
| FormType (text : string).

Section Handlers.

(** [JSON.parse]; [None] when it throws. *)
Variable JSON_parse : string -> option json.

(** Lines 59-80. *)
Definition handleExecute (t : tool) (m : mode) (s : item)
    : item * option call :=
  if hasParameters t && negb (showForm s) then
    ({| showForm := true; parameters := parameters s; error := error s |},
     None)
  else
    match JSON_parse (parameters s) with
    | Some parsedParams => (fresh, Some (m, tool_id t, parsedParams))
    | None =>
        ({| showForm := showForm s; parameters := parameters s;
            error := Some "Invalid JSON format" |}, None)
    end.

(** Lines 82-86. *)
Definition handleCancel (s : item) : item := fresh.

(** The header buttons are rendered while the form is hidden and are
    disabled with the tool (lines 102-120); the form and its controls
    are rendered while [showForm] holds (lines 123-165). *)
Definition offered (t : tool) (s : item) (a : action) : bool :=
  match a with
  | HeaderLocal | HeaderRemote => negb (showForm s) && tool_isEnabled t
  | _ => showForm s
  end.

Definition act (t : tool) (a : action) (s : item) : item * option call :=
  if offered t s a then
    match a with
    | HeaderLocal | FormLocal => handleExecute t Local s
    | HeaderRemote | FormRemote => handleExecute t Remote s
    | FormCancel | FormClose => (handleCancel s, None)
    | FormType text =>
        ({| showForm := showForm s; parameters := text; error := error s |},
         None)
    end
  else (s, None).

(** A sequence of actions: the item it leaves and the calls it made. *)
Fixpoint session (t : tool) (acts : list action) (s : item)
    : item * list call :=
  match acts with
  | [] => (s, [])
  | a :: rest =>
      let (s1, c) := act t a s in
      let (s2, cs) := session t rest s1 in
      (s2, match c with Some x => x :: cs | None => cs end)
  end.

End Handlers.

(** A parser that knows the empty object only. *)
Definition parse_braces (s : string) : option json :=
  if String.eqb s "{}" then Some (JObj []) else None.

Fixpoint starts_with (needle hay : string) : bool :=
  match needle, hay with
  | EmptyString, _ => true
  | String x n', String y h' => Ascii.eqb x y && starts_with n' h'
  | String _ _, EmptyString => false
  end.

(** [hay.includes(needle)]. *)
Fixpoint includes (hay needle : string) : bool :=
  starts_with needle hay
  || match hay with
     | EmptyString => false
     | String _ rest => includes rest needle
     end.

Section Filter.

(** [String.prototype.toLowerCase]. *)
Variable toLowerCase : string -> string.

(** Lines 222-227. *)
Definition filteredTools (tools : list tool) (searchTerm : string)
    : list tool :=
  List.filter
    (fun t =>
       includes (toLowerCase (tool_id t)) (toLowerCase searchTerm)
       || (negb (String.eqb (tool_label t) EmptyString)
           && includes (toLowerCase (tool_label t)) (toLowerCase searchTerm)))
    tools.

End Filter.

End Panel.

(* ===================================================================== *)
(** ** IndexedInputPrompt (index.ts, lines 561-616) and updateCellPrompt
    (inputPrompt.ts, lines 135-190) *)
(* ===================================================================== *)

Module Prompt.
Import JS Manager.

(** [widgets.indexOf(cell)], cells being told apart by identity; [None]
    for [-1]. *)
Fixpoint indexOf (cell : nat) (widgets : list nat) : option nat :=
  match widgets with
  | [] => None
  | w :: rest =>
      if Nat.eqb w cell then Some 0
      else match indexOf cell rest with
           | Some i => Some (S i)
           | None => None
           end
  end.

(** [getCellIndex]: [cell] is [this.parent?.parent], [widgets] the
    [widgets] of the cell's parent, either of which may be missing. *)
Definition getCellIndex (cell : option nat) (widgets : option (list nat))
    : option nat :=
  match cell, widgets with
  | Some c, Some ws => indexOf c ws
  | _, _ => None
  end.

(** The text the setter writes into the node. *)
Definition set_executionCount (value : option string)
    (cellIndex : option nat) : string :=
  match value, cellIndex with
  | Some count, Some i => "[" +:+ count +:+ "|" +:+ dec (i + 1) +:+ "]:"
  | Some count, None => "[" +:+ count +:+ "]:"
  | None, Some i => "[" +:+ dec (i + 1) +:+ "]:"
  | None, None => "[ ]:"
  end.

(** The getter: [this.node.textContent || null]. *)
Definition get_executionCount (textContent : string) : option string :=
  if String.eqb textContent EmptyString then None else Some textContent.

(** *** The function version: spans in the prompt node *)

Record span : Type := {
  textContent : string;
  className : option string
}.

Record cell : Type := {
  type : string;
  executionCount : option nat;
  promptNode : option (list span)
}.

Definition appendChild (child : span) (node : list span) : list span :=
  (node ++ [child])%list.

Definition indexSpan (index : nat) : span :=
  {| textContent := "[" +:+ dec index +:+ "]";
     className := Some "jp-mcp-cell-index" |}.

Definition colon : span := {| textContent := ":"; className := None |}.

(** inputPrompt.ts, lines 135-175. *)
Definition updateCellPrompt (c : cell) (index : nat) : cell :=
  match promptNode c with
  | None => c
  | Some prompt =>
      let prompt : list span := [] in
      let prompt :=
        match executionCount c with
        | Some n =>
            let prompt :=
              appendChild {| textContent := "[" +:+ dec n +:+ "]";
                             className := Some "jp-mcp-exec-count" |}
                prompt in
            let prompt := appendChild (indexSpan index) prompt in
            appendChild colon prompt
        | None =>
            let prompt := appendChild (indexSpan index) prompt in
            appendChild colon prompt
        end in
      {| type := type c; executionCount := executionCount c;
         promptNode := Some prompt |}
  end.

(** The pass over [notebook.widgets] that [setupNotebookPrompts] makes
    at once and again 100 ms after every change of the cell list
    (lines 184-188 and 205-209), [index] being the position of the first
    cell of [widgets]. *)
Fixpoint updateFrom (index : nat) (widgets : list cell) : list cell :=
  match widgets with
  | [] => []
  | c :: rest =>
      (if String.eqb (type c) "code" then updateCellPrompt c index else c)
      :: updateFrom (S index) rest
  end.

Definition updateAll (widgets : list cell) : list cell :=
  updateFrom 0 widgets.

(** A markdown cell, then a code cell that ran third, then a code cell
    that has not run. *)
Definition three_cells : list cell :=
  [ {| type := "markdown"; executionCount := None; promptNode := Some [] |};
    {| type := "code"; executionCount := Some 3;
       promptNode := Some [colon; colon; colon; colon] |};
    {| type := "code"; executionCount := None; promptNode := Some [] |} ].

End Prompt.

(* ===================================================================== *)
(** ** The two commands of registerCommands (commands.ts) *)
(* ===================================================================== *)

Module Commands.
Import JS Serializer Manager.

(** What the commands read of a cell and of the notebook panel. *)
Record cell_model : Type := {
  cell_type : string;
  source : string;
  metadata : value;
  cell_executionCount : option Z
}.

Record notebook : Type := {
  nb_heap : heap;
  widgets : list cell_model;
  activeCellIndex : nat
}.

(** [notebook.activeCell]: the widget at [activeCellIndex], if any. *)
Definition activeCell (nb : notebook) : option cell_model :=
  widgets nb !! activeCellIndex nb.

(** [notebookTracker.currentWidget]. *)
Definition tracker := option notebook.

(** A fresh object literal in front of an existing heap: the literal
    takes address 0 and every older address moves up by one. *)
Definition shift_value (v : value) : value :=
  match v with
  | VRef a => VRef (S a)
  | _ => v
  end.

Definition shift_slot (s : slot) : slot :=
  match s with
  | Data v => Data (shift_value v)
  | ThrowingGetter error => ThrowingGetter error
  end.

Definition shift_hobj (o : hobj) : hobj :=
  match o with
  | HArray items => HArray (map shift_slot items)
  | HObject props => HObject (map (fun kv => (fst kv, shift_slot (snd kv))) props)
  | HExotic at_ error => HExotic at_ error
  end.

Definition literal (fields : list (string * value)) (h : heap)
    : heap * value :=
  (fun a =>
     match a with
     | O => HObject (map (fun kv => (fst kv, Data (shift_value (snd kv))))
                       fields)
     | S a' => shift_hobj (h a')
     end,
   VRef 0).

Definition no_objects : heap := fun _ => HObject [].

Definition VStr (s : string) : value := VPrim (PStr s).
Definition VBool (b : bool) : value := VPrim (PBool b).
Definition VNum (n : Z) : value := VPrim (PNum n).

(** [notebook:get-selected-cell], lines 106-158. What the body prints on
    the console is left out. *)
Definition getSelectedCell (current : tracker) (args : json) : completion :=
  match current with
  | None =>
      let (h, v) :=
        literal [("error", VStr "No active notebook");
                 ("success", VBool false)] no_objects in
      Resolved h v
  | Some nb =>
      match activeCell nb with
      | None =>
          let (h, v) :=
            literal [("error", VStr "No active cell");
                     ("success", VBool false)] no_objects in
          Resolved h v
      | Some c =>
          let cellIndex := activeCellIndex nb in
          let (h, v) :=
            literal
              [("success", VBool true);
               ("cellType", VStr (cell_type c));
               ("cellIndex", VNum (Z.of_nat cellIndex));
               ("source", VStr (source c));
               ("metadata", metadata c);
               ("executionCount",
                if String.eqb (cell_type c) "code"
                then match cell_executionCount c with
                     | Some n => VNum n
                     | None => VPrim PNull
                     end
                else VPrim PNull)]
              (nb_heap nb) in
          Resolved h v
      end
  end.

(** The head of [notebook:append-execute], lines 50-57: [args] is
    destructured, which throws on [null], and without a notebook the
    body throws before it touches anything. [type_error] is
    [String(error)] of the [TypeError] that destructuring [null] raises,
    whose wording is the engine's; [rest] stands for lines 59-97, which
    run on the notebook through [NotebookActions]. *)
Definition appendExecute (type_error : string)
    (rest : notebook -> json -> completion)
    (current : tracker) (args : json) : completion :=
  match args with
  | JPrim PNull => Rejected type_error
  | _ =>
      match current with
      | None => Rejected "Error: No active notebook found"
      | Some nb => rest nb args
      end
  end.

(** What [registerCommands] adds to the host registry. *)
Definition registerCommands (type_error : string)
    (rest : notebook -> json -> completion)
    (current : tracker) : registry :=
  [ {| cmd_id := "notebook:append-execute";
       cmd_info :=
         Some {| isEnabled := true;
                 label := "Append and Execute Cell";
                 caption :=
                   "Append a new cell at the end of the notebook and execute it";
                 usage := EmptyString |};
       cmd_run := appendExecute type_error rest current |};
    {| cmd_id := "notebook:get-selected-cell";
       cmd_info :=
         Some {| isEnabled := match current with Some _ => true | None => false end;
                 label := "Get Selected Cell";
                 caption := "Get information about the currently selected cell";
                 usage := EmptyString |};
       cmd_run := getSelectedCell current |} ].

(** A notebook whose only cell is a code cell that ran twice and whose
    metadata is an object nested five deep. *)
Definition one_cell_notebook : notebook :=
  {| nb_heap := fun a => HObject [("inner", Data (VRef (S a)))];
     widgets := [ {| cell_type := "code"; source := "print(1)";
                     metadata := VRef 0;
                     cell_executionCount := Some 2%Z |} ];
     activeCellIndex := 0 |}.

(** A registry that holds the two commands and nothing else, no
    notebook being open; the rest of append-execute is never reached. *)
Definition bare_host : registry :=
  registerCommands "TypeError" (fun _ _ => Rejected "unreachable") None.

End Commands.

(* ===================================================================== *)
(** ** Facts about safeSerialize *)
(* ===================================================================== *)

Module SerializerFacts.
Import JS Serializer Samples.

(** *** How the monad computes *)

Lemma bind_ret {A B} (m : M A) (k : A -> M B) seen a seen' :
  m seen = (Ret a, seen') -> bind m k seen = k a seen'.
Proof. intros E. unfold bind. now rewrite E. Qed.

Lemma bind_throw {A B} (m : M A) (k : A -> M B) seen error seen' :
  m seen = (Throw error, seen') -> bind m k seen = (Throw error, seen').
Proof. intros E. unfold bind. now rewrite E. Qed.

Lemma try_catch_ret {A} (body handler : M A) seen a seen' :
  body seen = (Ret a, seen') -> try_catch body handler seen = (Ret a, seen').
Proof. intros E. unfold try_catch. now rewrite E. Qed.

Lemma try_catch_throw {A} (body handler : M A) seen error seen' :
  body seen = (Throw error, seen') ->
  try_catch body handler seen = handler seen'.
Proof. intros E. unfold try_catch. now rewrite E. Qed.

(** A [map] whose callback always returns, returns; the [seen] set only
    grows along the way, and the outputs are related to the inputs
    position by position. *)
Lemma mapM_returns {A B} (R : A -> B -> Prop) (f : A -> M B) (l : list A) :
  (forall x seen, exists y seen',
      f x seen = (Ret y, seen') /\ seen ⊆ seen' /\ R x y) ->
  forall seen, exists ys seen',
      mapM f l seen = (Ret ys, seen') /\ seen ⊆ seen' /\ Forall2 R l ys.
Proof.
  intros Hf. induction l as [|x rest IH]; intros seen; simpl.
  - exists [], seen. repeat split; [set_solver | constructor].
  - destruct (Hf x seen) as (y & s1 & E1 & I1 & R1).
    destruct (IH s1) as (ys & s2 & E2 & I2 & R2).
    exists (y :: ys), s2. repeat split.
    + rewrite (bind_ret _ _ _ _ _ E1), (bind_ret _ _ _ _ _ E2). reflexivity.
    + set_solver.
    + now constructor.
Qed.

(** A [map] that returned called its callback on every element, and
    every one of these calls returned. *)
Lemma mapM_inversion {A B} (f : A -> M B) (l : list A) :
  forall seen ys seen',
    mapM f l seen = (Ret ys, seen') ->
    Forall2 (fun x y => exists s s', f x s = (Ret y, s')) l ys.
Proof.
  induction l as [|x rest IH]; intros seen ys seen' E; simpl in E.
  - inversion E. constructor.
  - unfold bind in E.
    destruct (f x seen) as [[y|e|] s1] eqn:E1; try discriminate.
    destruct (mapM f rest s1) as [[ys'|e|] s2] eqn:E2; try discriminate.
    inversion E; subst. constructor; [eauto | eapply IH; eauto].
Qed.

(** A [map] whose callback never runs out of fuel does not either, and
    the [seen] set only grows, however the map ends. *)
Lemma mapM_settles {A B} (f : A -> M B) (l : list A) :
  (forall x seen, fst (f x seen) <> OutOfFuel /\ seen ⊆ snd (f x seen)) ->
  forall seen,
    fst (mapM f l seen) <> OutOfFuel /\ seen ⊆ snd (mapM f l seen).
Proof.
  intros Hf. induction l as [|x rest IH]; intros seen; simpl.
  - split; [discriminate | set_solver].
  - unfold bind. destruct (Hf x seen) as [N I].
    destruct (f x seen) as [[y|e|] s1]; simpl in *.
    + destruct (IH s1) as [N2 I2].
      destruct (mapM f rest s1) as [[ys|e|] s2]; simpl in *;
        (split; [congruence | now transitivity s1]).
    + split; [discriminate | assumption].
    + congruence.
Qed.

Lemma mapM_ext {A B} (f g : A -> M B) (l : list A) :
  (forall x seen, f x seen = g x seen) ->
  forall seen, mapM f l seen = mapM g l seen.
Proof.
  intros H. induction l as [|x rest IH]; intros seen; simpl; [reflexivity|].
  unfold bind. rewrite H.
  destruct (g x seen) as [[y|e|] s1]; try reflexivity.
  now rewrite IH.
Qed.

(** [obj.slice(0, 100)] reads the elements and touches nothing else: it
    yields the values when every element is plain, and throws what the
    first accessor throws otherwise. *)
Lemma slice_inversion (items : list slot) :
  forall seen values seen',
    mapM read_slot items seen = (Ret values, seen') ->
    seen' = seen /\ items = map Data values.
Proof.
  induction items as [|item rest IH]; intros seen values seen' E; simpl in E.
  - inversion E. now split.
  - destruct item as [v|e]; unfold bind in E; simpl in E; [|discriminate].
    destruct (mapM read_slot rest seen) as [[vs|e|] s2] eqn:E2;
      try discriminate.
    inversion E; subst. destruct (IH _ _ _ E2) as [-> ->]. now split.
Qed.

Lemma slice_plain (values : list value) seen :
  mapM read_slot (map Data values) seen = (Ret values, seen).
Proof.
  induction values as [|v rest IH]; simpl; [reflexivity|].
  unfold bind. simpl. now rewrite IH.
Qed.

Lemma slice_outcome (items : list slot) seen :
  (exists values, mapM read_slot items seen = (Ret values, seen))
  \/ (exists error, mapM read_slot items seen = (Throw error, seen)).
Proof.
  induction items as [|item rest IH]; simpl.
  - left. now exists [].
  - destruct item as [v|e]; unfold bind; simpl.
    + destruct IH as [(vs & ->) | (e & ->)]; [left | right]; eauto.
    + right. eauto.
Qed.

(** The accessor that makes [slice] throw is the first one among the
    elements it reads. *)
Lemma slice_throws (before : list value) error (after : list slot) seen :
  mapM read_slot (map Data before ++ ThrowingGetter error :: after) seen
  = (Throw error, seen).
Proof.
  induction before as [|v rest IH]; simpl.
  - reflexivity.
  - unfold bind. simpl. now rewrite IH.
Qed.

Lemma for_keys_ext (f g : string * slot -> M json) keys :
  (forall kv seen, f kv seen = g kv seen) ->
  forall result seen, for_keys f keys result seen = for_keys g keys result seen.
Proof.
  intros H. induction keys as [|kv rest IH]; intros result seen; simpl;
    [reflexivity|].
  unfold bind. rewrite H.
  destruct (g kv seen) as [[v|e|] s1]; try reflexivity.
  apply IH.
Qed.

(** The loop over the keys computes the values first to last and assigns
    each as it comes. *)
Lemma for_keys_mapM (body : string * slot -> M json) keys :
  forall result seen,
    for_keys body keys result seen
    = (let* fields := mapM (fun kv => let* v := body kv in ret (fst kv, v))
                           keys in
       ret (fold_left (fun r kv => assign r (fst kv) (snd kv)) fields result))
        seen.
Proof.
  induction keys as [|kv rest IH]; intros result seen; simpl; [reflexivity|].
  unfold bind, ret in *.
  destruct (body kv seen) as [[v|e|] s1]; simpl; try reflexivity.
  rewrite IH.
  destruct (mapM _ rest s1) as [[fs|e|] s2]; reflexivity.
Qed.

(** *** What assigning the entries builds *)

Lemma set_key_length key v result :
  length (set_key key v result) <= S (length result).
Proof.
  induction result as [|[k old] rest IH]; simpl; [lia|].
  destruct (String.eqb k key); simpl; lia.
Qed.

Lemma set_key_values (P : json -> Prop) key v result :
  P v -> Forall (fun kv : string * json => P (snd kv)) result ->
  Forall (fun kv : string * json => P (snd kv)) (set_key key v result).
Proof.
  intros Hv. induction 1 as [|[k old] rest Hold Hrest IH]; simpl.
  - now repeat constructor.
  - destruct (String.eqb k key); constructor; simpl; assumption.
Qed.

Lemma set_key_fresh key v result :
  key ∉ map fst result -> set_key key v result = (result ++ [(key, v)])%list.
Proof.
  induction result as [|[k old] rest IH]; simpl; intros Hn; [reflexivity|].
  rewrite not_elem_of_cons in Hn. destruct Hn as [Hne Hn].
  destruct (String.eqb k key) eqn:E.
  - apply String.eqb_eq in E. congruence.
  - now rewrite IH.
Qed.

Lemma assign_fold_length fields : forall result,
  length (fold_left (fun r kv => assign r (fst kv) (snd kv)) fields result)
  <= length result + length fields.
Proof.
  induction fields as [|[k v] rest IH]; intros result; simpl; [lia|].
  etransitivity; [apply IH|]. unfold assign.
  destruct (String.eqb k "__proto__"); [lia|].
  pose proof (set_key_length k v result). lia.
Qed.

Lemma assign_fold_values (P : json -> Prop) fields : forall result,
  Forall (fun kv : string * json => P (snd kv)) fields ->
  Forall (fun kv : string * json => P (snd kv)) result ->
  Forall (fun kv : string * json => P (snd kv))
    (fold_left (fun r kv => assign r (fst kv) (snd kv)) fields result).
Proof.
  induction fields as [|[k v] rest IH]; intros result Hf Hr; simpl;
    [assumption|].
  inversion Hf; subst. apply IH; [assumption|]. unfold assign.
  destruct (String.eqb k "__proto__"); [assumption|].
  now apply set_key_values.
Qed.

Lemma assign_all_length fields : length (assign_all fields) <= length fields.
Proof. apply (assign_fold_length fields []). Qed.

Lemma assign_all_values (P : json -> Prop) fields :
  Forall (fun kv : string * json => P (snd kv)) fields ->
  Forall (fun kv : string * json => P (snd kv)) (assign_all fields).
Proof. intros H. apply assign_fold_values; [assumption | constructor]. Qed.

(** Keys that are pairwise distinct, none of them [__proto__], come out
    as they went in. *)
Lemma assign_fold_distinct fields : forall result,
  NoDup (map fst result ++ map fst fields) ->
  "__proto__" ∉ map fst fields ->
  fold_left (fun r kv => assign r (fst kv) (snd kv)) fields result
  = (result ++ fields)%list.
Proof.
  induction fields as [|[k v] rest IH]; intros result Hd Hp; simpl.
  - now rewrite app_nil_r.
  - simpl in Hd, Hp. rewrite not_elem_of_cons in Hp. destruct Hp as [Hk Hp].
    unfold assign. destruct (String.eqb k "__proto__") eqn:E.
    { apply String.eqb_eq in E. congruence. }
    apply NoDup_app in Hd as (D1 & D2 & D3).
    rewrite set_key_fresh.
    2:{ intros Hin. apply (D2 k Hin). left. }
    rewrite IH; [now rewrite <- app_assoc | | assumption].
    rewrite map_app. simpl. rewrite <- app_assoc. simpl.
    apply NoDup_app. repeat split; [assumption | | assumption].
    intros x Hx. apply D2. exact Hx.
Qed.

Lemma assign_all_distinct fields :
  NoDup (map fst fields) -> "__proto__" ∉ map fst fields ->
  assign_all fields = fields.
Proof. intros Hd Hp. now apply (assign_fold_distinct fields []). Qed.

(** An entry named [__proto__] leaves no trace. *)
Lemma assign_fold_proto fields v after : forall result,
  fold_left (fun r kv => assign r (fst kv) (snd kv))
    (fields ++ ("__proto__", v) :: after) result
  = fold_left (fun r kv => assign r (fst kv) (snd kv))
      (fields ++ after) result.
Proof.
  induction fields as [|kv rest IH]; intros result; simpl; [reflexivity|].
  apply IH.
Qed.

(** *** The equations of [safeSerialize], branch by branch *)

Lemma safeSerialize_primitive h p maxDepth currentDepth seen :
  safeSerialize h (VPrim p) maxDepth currentDepth seen = (Ret (JPrim p), seen).
Proof. reflexivity. Qed.

Lemma safeSerialize_too_deep h obj maxDepth currentDepth seen :
  is_primitive obj = false -> maxDepth < currentDepth ->
  safeSerialize h obj maxDepth currentDepth seen = (Ret max_depth_reached, seen).
Proof.
  intros Hp Hd. apply Nat.ltb_lt in Hd. unfold safeSerialize. simpl.
  destruct obj; try discriminate; now rewrite Hd.
Qed.

Lemma fuel_step maxDepth currentDepth :
  currentDepth <= maxDepth ->
  S maxDepth - currentDepth = S (S maxDepth - (currentDepth + 1)).
Proof. lia. Qed.

Lemma safeSerialize_array h a items maxDepth currentDepth :
  h a = HArray items -> currentDepth <= maxDepth ->
  safeSerialize h (VRef a) maxDepth currentDepth =
  (let* sliced := mapM read_slot (take 100 items) in
   let* out := mapM (fun item =>
                       safeSerialize h item maxDepth (currentDepth + 1))
                    sliced in
   ret (JArr out)).
Proof.
  intros Ha Hd. unfold safeSerialize at 1.
  rewrite (fuel_step _ _ Hd). simpl.
  assert (E : (maxDepth <? currentDepth)%nat = false) by (apply Nat.ltb_ge; lia).
  now rewrite E, Ha.
Qed.

Lemma safeSerialize_object h a props maxDepth currentDepth :
  h a = HObject props -> currentDepth <= maxDepth ->
  safeSerialize h (VRef a) maxDepth currentDepth =
  (let* known := seen_has a in
   if (known : bool) then ret circular_reference
   else
     let* _ := seen_add a in
     let* result :=
       for_keys (fun kv : string * slot =>
                   try_catch
                     (let* x := read_slot (snd kv) in
                      safeSerialize h x maxDepth (currentDepth + 1))
                     (ret serialization_error))
                (take 100 props) [] in
     ret (JObj result)).
Proof.
  intros Ha Hd. unfold safeSerialize at 1.
  rewrite (fuel_step _ _ Hd). simpl.
  assert (E : (maxDepth <? currentDepth)%nat = false) by (apply Nat.ltb_ge; lia).
  now rewrite E, Ha.
Qed.

(** [Array.isArray] throws before anything else is looked at. *)
Lemma safeSerialize_revoked h a error maxDepth currentDepth seen :
  h a = HExotic IsArray error -> currentDepth <= maxDepth ->
  safeSerialize h (VRef a) maxDepth currentDepth seen = (Throw error, seen).
Proof.
  intros Ha Hd. unfold safeSerialize.
  rewrite (fuel_step _ _ Hd). simpl.
  assert (E : (maxDepth <? currentDepth)%nat = false) by (apply Nat.ltb_ge; lia).
  now rewrite E, Ha.
Qed.

(** [Object.keys] throws after the object has been checked against
    [seen] and added to it. *)
Lemma safeSerialize_keys_throw h a error maxDepth currentDepth seen :
  h a = HExotic OwnKeys error -> currentDepth <= maxDepth ->
  safeSerialize h (VRef a) maxDepth currentDepth seen
  = if bool_decide (a ∈ seen) then (Ret circular_reference, seen)
    else (Throw error, {[a]} ∪ seen).
Proof.
  intros Ha Hd. unfold safeSerialize.
  rewrite (fuel_step _ _ Hd). simpl.
  assert (E : (maxDepth <? currentDepth)%nat = false) by (apply Nat.ltb_ge; lia).
  rewrite E, Ha. unfold bind, seen_has.
  now destruct (bool_decide (a ∈ seen)).
Qed.

Lemma safeSerialize_other h str maxDepth currentDepth seen :
  currentDepth <= maxDepth ->
  safeSerialize h (VOther str) maxDepth currentDepth seen =
  (Ret (match str with Some s => JStr s | None => unserializable end), seen).
Proof.
  intros Hd. unfold safeSerialize. simpl.
  assert (E : (maxDepth <? currentDepth)%nat = false) by (apply Nat.ltb_ge; lia).
  rewrite E. now destruct str.
Qed.

(** An object met again, anywhere in the same top-level call. *)
Lemma safeSerialize_object_seen h a props maxDepth currentDepth seen :
  h a = HObject props -> currentDepth <= maxDepth -> a ∈ seen ->
  safeSerialize h (VRef a) maxDepth currentDepth seen =
  (Ret circular_reference, seen).
Proof.
  intros Ha Hd Hin. rewrite (safeSerialize_object _ _ _ _ _ Ha Hd).
  unfold bind, seen_has. now rewrite bool_decide_eq_true_2.
Qed.

Lemma safeSerialize_object_fresh h a props maxDepth currentDepth seen :
  h a = HObject props -> currentDepth <= maxDepth -> a ∉ seen ->
  safeSerialize h (VRef a) maxDepth currentDepth seen =
  (let* fields := mapM (serialize_field h maxDepth currentDepth)
                       (take 100 props) in
   ret (JObj (assign_all fields))) ({[a]} ∪ seen).
Proof.
  intros Ha Hd Hin. rewrite (safeSerialize_object _ _ _ _ _ Ha Hd).
  unfold bind at 1. unfold seen_has. rewrite bool_decide_eq_false_2 by assumption.
  unfold bind at 1. unfold seen_add. unfold bind at 1.
  rewrite for_keys_mapM. unfold bind at 1. unfold bind at 3.
  fold (serialize_field h maxDepth currentDepth).
  destruct (mapM _ (take 100 props) ({[a]} ∪ seen)) as [[fs|e|] s2];
    reflexivity.
Qed.

(** *** Every call ends, and a call on a keyed object returns *)

Lemma serialize_field_returns h maxDepth currentDepth :
  (forall obj seen,
      fst (safeSerialize h obj maxDepth (currentDepth + 1) seen) <> OutOfFuel
      /\ seen ⊆ snd (safeSerialize h obj maxDepth (currentDepth + 1) seen)) ->
  forall kv seen, exists y seen',
      serialize_field h maxDepth currentDepth kv seen = (Ret y, seen')
      /\ seen ⊆ seen' /\ field_of h maxDepth currentDepth kv y.
Proof.
  intros IH [k [v|e]] seen; unfold serialize_field; simpl.
  - destruct (IH v seen) as [N I].
    destruct (safeSerialize h v maxDepth (currentDepth + 1) seen)
      as [[j|e|] s1] eqn:E; simpl in *; [| |congruence].
    + exists (k, j), s1. repeat split; [|assumption|left; now exists seen, s1].
      unfold bind at 1.
      rewrite (try_catch_ret _ _ _ _ _ (eq_trans (bind_ret _ _ _ _ _ eq_refl) E)).
      reflexivity.
    + exists (k, serialization_error), s1.
      repeat split; [|assumption|right; split; [now exists seen, e, s1|reflexivity]].
      unfold bind at 1.
      rewrite (try_catch_throw _ _ _ e s1
                 (eq_trans (bind_ret _ _ _ _ _ eq_refl) E)).
      reflexivity.
  - exists (k, serialization_error), seen. repeat split; set_solver.
Qed.

Lemma safeSerialize_settles_within h maxDepth n :
  forall currentDepth, S maxDepth - currentDepth <= n ->
  forall obj seen,
    fst (safeSerialize h obj maxDepth currentDepth seen) <> OutOfFuel
    /\ seen ⊆ snd (safeSerialize h obj maxDepth currentDepth seen).
Proof.
  assert (Deep : forall d obj seen, maxDepth < d ->
            fst (safeSerialize h obj maxDepth d seen) <> OutOfFuel
            /\ seen ⊆ snd (safeSerialize h obj maxDepth d seen)).
  { intros d obj seen Hd. destruct obj as [p|a|str].
    - split; [discriminate | set_solver].
    - rewrite safeSerialize_too_deep by (reflexivity || assumption).
      split; [discriminate | set_solver].
    - rewrite safeSerialize_too_deep by (reflexivity || assumption).
      split; [discriminate | set_solver]. }
  induction n as [|n IH]; intros d Hn obj seen.
  - apply Deep. lia.
  - destruct (le_lt_dec d maxDepth) as [Hd|Hd]; [|now apply Deep].
    assert (Hrec : forall obj seen,
               fst (safeSerialize h obj maxDepth (d + 1) seen) <> OutOfFuel
               /\ seen ⊆ snd (safeSerialize h obj maxDepth (d + 1) seen))
      by (apply IH; lia).
    destruct obj as [p|a|str].
    + split; [discriminate | set_solver].
    + destruct (h a) as [items|props|[|] error] eqn:Ha.
      * rewrite (safeSerialize_array _ _ _ _ _ Ha Hd).
        unfold bind at 1 3.
        destruct (slice_outcome (take 100 items) seen) as [(vs & ->)|(e & ->)].
        2:{ split; [discriminate | set_solver]. }
        pose proof (mapM_settles
                      (fun item => safeSerialize h item maxDepth (d + 1)) vs
                      Hrec seen) as [N I].
        unfold bind.
        destruct (mapM _ vs seen) as [[ys|e|] s1]; simpl in *;
          (split; [congruence | assumption]).
      * destruct (decide (a ∈ seen)) as [Hin|Hin].
        { rewrite (safeSerialize_object_seen _ _ _ _ _ _ Ha Hd Hin).
          split; [discriminate | set_solver]. }
        rewrite (safeSerialize_object_fresh _ _ _ _ _ _ Ha Hd Hin).
        destruct (mapM_returns (field_of h maxDepth d)
                    (serialize_field h maxDepth d) (take 100 props))
          with (seen := {[a]} ∪ seen) as (ys & s1 & E & I & _).
        { apply serialize_field_returns, Hrec. }
        rewrite (bind_ret _ _ _ _ _ E). simpl.
        split; [discriminate|].
        transitivity ({[a]} ∪ seen); [apply union_subseteq_r | exact I].
      * rewrite (safeSerialize_revoked _ _ _ _ _ seen Ha Hd).
        split; [discriminate | reflexivity].
      * rewrite (safeSerialize_keys_throw _ _ _ _ _ seen Ha Hd).
        destruct (bool_decide (a ∈ seen)); simpl;
          (split; [discriminate|]);
          [reflexivity | apply union_subseteq_r].
    + rewrite (safeSerialize_other _ _ _ _ _ Hd).
      split; [discriminate | reflexivity].
Qed.

(** The recursion never runs out of the fuel that [maxDepth] and
    [currentDepth] determine, and the [seen] set only grows, whether the
    call returns or throws. *)
Lemma safeSerialize_settles h obj maxDepth currentDepth seen :
  fst (safeSerialize h obj maxDepth currentDepth seen) <> OutOfFuel
  /\ seen ⊆ snd (safeSerialize h obj maxDepth currentDepth seen).
Proof.
  now apply safeSerialize_settles_within with (n := S maxDepth - currentDepth).
Qed.

Lemma safeSerialize_grows h obj maxDepth currentDepth seen o seen' :
  safeSerialize h obj maxDepth currentDepth seen = (o, seen') -> seen ⊆ seen'.
Proof.
  intros E. destruct (safeSerialize_settles h obj maxDepth currentDepth seen)
    as [_ I]. now rewrite E in I.
Qed.

Lemma serialize_settles h obj maxDepth :
  serialize h obj maxDepth <> OutOfFuel.
Proof. apply safeSerialize_settles. Qed.

(** On a heap without accessor elements and without objects that throw
    when inspected, every call returns. *)
Lemma safeSerialize_returns_within h maxDepth n :
  plain h ->
  forall currentDepth, S maxDepth - currentDepth <= n ->
  forall obj seen, exists j seen',
    safeSerialize h obj maxDepth currentDepth seen = (Ret j, seen')
    /\ seen ⊆ seen'.
Proof.
  intros Hplain.
  assert (Deep : forall d obj seen, maxDepth < d -> exists j seen',
            safeSerialize h obj maxDepth d seen = (Ret j, seen')
            /\ seen ⊆ seen').
  { intros d obj seen Hd. destruct obj as [p|a|str].
    - exists (JPrim p), seen. split; [reflexivity | set_solver].
    - exists max_depth_reached, seen. split; [|set_solver].
      apply safeSerialize_too_deep; [reflexivity | lia].
    - exists max_depth_reached, seen. split; [|set_solver].
      apply safeSerialize_too_deep; [reflexivity | lia]. }
  induction n as [|n IH]; intros d Hn obj seen.
  - apply Deep. lia.
  - destruct (le_lt_dec d maxDepth) as [Hd|Hd]; [|now apply Deep].
    assert (Hrec : forall obj seen, exists j seen',
               safeSerialize h obj maxDepth (d + 1) seen = (Ret j, seen')
               /\ seen ⊆ seen') by (apply IH; lia).
    destruct obj as [p|a|str].
    + exists (JPrim p), seen. split; [reflexivity | set_solver].
    + pose proof (Hplain a) as Hp.
      destruct (h a) as [items|props|at_ error] eqn:Ha; [| |contradiction].
      * rewrite (safeSerialize_array _ _ _ _ _ Ha Hd).
        destruct (slice_outcome (take 100 items) seen) as [(vs & Es)|(e & Es)].
        2:{ exfalso.
            assert (Hall : forall item, item ∈ take 100 items ->
                             exists v, item = Data v).
            { intros item Hin. apply Hp.
              apply elem_of_take in Hin as (i & Hi & _).
              now apply list_elem_of_lookup_2 in Hi. }
            clear - Es Hall. revert Es Hall.
            generalize (take 100 items). intros l.
            induction l as [|item rest IH]; simpl; intros Es Hall;
              [discriminate|].
            destruct (Hall item) as (v & ->); [left|].
            unfold bind in Es. simpl in Es.
            destruct (mapM read_slot rest seen) as [[vs|e'|] s2] eqn:E2;
              try discriminate.
            inversion Es; subst. apply IH; [reflexivity|].
            intros x Hx. apply Hall. now right. }
        destruct (mapM_returns (fun _ _ => True)
                    (fun item => safeSerialize h item maxDepth (d + 1)) vs)
          with (seen := seen) as (ys & s1 & E & I & _).
        { intros x s. destruct (Hrec x s) as (j & s' & E & I). eauto. }
        exists (JArr ys), s1. split; [|assumption].
        now rewrite (bind_ret _ _ _ _ _ Es), (bind_ret _ _ _ _ _ E).
      * destruct (decide (a ∈ seen)) as [Hin|Hin].
        { exists circular_reference, seen. split; [|set_solver].
          now apply safeSerialize_object_seen with props. }
        rewrite (safeSerialize_object_fresh _ _ _ _ _ _ Ha Hd Hin).
        destruct (mapM_returns (field_of h maxDepth d)
                    (serialize_field h maxDepth d) (take 100 props))
          with (seen := {[a]} ∪ seen) as (ys & s1 & E & I & _).
        { apply serialize_field_returns. intros o s.
          apply safeSerialize_settles. }
        exists (JObj (assign_all ys)), s1. split; [|set_solver].
        now rewrite (bind_ret _ _ _ _ _ E).
    + rewrite (safeSerialize_other _ _ _ _ _ Hd). eexists _, seen.
      split; [reflexivity | set_solver].
Qed.

Lemma safeSerialize_returns h obj maxDepth currentDepth seen :
  plain h ->
  exists j seen',
    safeSerialize h obj maxDepth currentDepth seen = (Ret j, seen')
    /\ seen ⊆ seen'.
Proof.
  intros Hp.
  now apply safeSerialize_returns_within with (n := S maxDepth - currentDepth).
Qed.

(** *** More fuel changes nothing *)

Lemma safeSerialize_fuel_enough fuel : forall h obj maxDepth currentDepth seen,
  S maxDepth - currentDepth < fuel ->
  safeSerialize_fuel fuel h obj maxDepth currentDepth seen
  = safeSerialize h obj maxDepth currentDepth seen.
Proof.
  induction fuel as [|fuel IH]; intros h obj m d seen Hf; [lia|].
  destruct obj as [p|a|str]; [reflexivity | | ].
  - destruct (le_lt_dec d m) as [Hd|Hd].
    + assert (E : (m <? d)%nat = false) by (apply Nat.ltb_ge; lia).
      destruct (h a) as [items|props|[|] error] eqn:Ha.
      * rewrite (safeSerialize_array _ _ _ _ _ Ha Hd). simpl. rewrite E, Ha.
        unfold bind.
        destruct (mapM read_slot (take 100 items) seen) as [[vs|e|] s1];
          try reflexivity.
        rewrite (mapM_ext _
          (fun item => safeSerialize h item m (d + 1))); [reflexivity|].
        intros x s. apply IH. lia.
      * rewrite (safeSerialize_object _ _ _ _ _ Ha Hd). simpl. rewrite E, Ha.
        unfold bind, seen_has, seen_add.
        destruct (bool_decide (a ∈ seen)); [reflexivity|].
        rewrite (for_keys_ext _
          (fun kv : string * slot =>
             try_catch (fun s => match read_slot (snd kv) s with
                                 | (Ret x, s') => safeSerialize h x m (d + 1) s'
                                 | (Throw e, s') => (Throw e, s')
                                 | (OutOfFuel, s') => (OutOfFuel, s')
                                 end)
               (ret serialization_error))); [reflexivity|].
        intros [k sl] s. unfold try_catch.
        destruct sl as [v|e]; simpl; [|reflexivity].
        rewrite IH by lia. reflexivity.
      * rewrite (safeSerialize_revoked _ _ _ _ _ seen Ha Hd). simpl.
        now rewrite E, Ha.
      * rewrite (safeSerialize_keys_throw _ _ _ _ _ seen Ha Hd). simpl.
        rewrite E, Ha. unfold bind, seen_has.
        now destruct (bool_decide (a ∈ seen)).
    + rewrite safeSerialize_too_deep by (reflexivity || assumption).
      simpl. apply Nat.ltb_lt in Hd. now rewrite Hd.
  - destruct (le_lt_dec d m) as [Hd|Hd].
    + rewrite (safeSerialize_other _ _ _ _ _ Hd). simpl.
      assert (E : (m <? d)%nat = false) by (apply Nat.ltb_ge; lia).
      rewrite E. now destruct str.
    + rewrite safeSerialize_too_deep by (reflexivity || assumption).
      simpl. apply Nat.ltb_lt in Hd. now rewrite Hd.
Qed.

(** *** The shape of what comes back within the depth limit *)

(** An array either throws, before or while its elements are
    serialized, or it returns an array. *)
Lemma array_outcome h a items maxDepth currentDepth seen :
  h a = HArray items -> currentDepth <= maxDepth ->
  (exists out seen',
      safeSerialize h (VRef a) maxDepth currentDepth seen
      = (Ret (JArr out), seen'))
  \/ (exists error seen',
        safeSerialize h (VRef a) maxDepth currentDepth seen
        = (Throw error, seen')).
Proof.
  intros Ha Hd.
  destruct (safeSerialize_settles h (VRef a) maxDepth currentDepth seen)
    as [N _].
  rewrite (safeSerialize_array _ _ _ _ _ Ha Hd) in *.
  unfold bind in *.
  destruct (mapM read_slot (take 100 items) seen) as [[vs|e|] s1];
    [|right; eauto|simpl in N; congruence].
  destruct (mapM _ vs s1) as [[ys|e|] s2];
    [left; eauto|right; eauto|simpl in N; congruence].
Qed.

Lemma array_structure h a items maxDepth currentDepth seen j seen' :
  h a = HArray items -> currentDepth <= maxDepth ->
  safeSerialize h (VRef a) maxDepth currentDepth seen = (Ret j, seen') ->
  exists out,
    j = JArr out
    /\ seen ⊆ seen'
    /\ Forall2 (item_of h maxDepth currentDepth) (take 100 items) out.
Proof.
  intros Ha Hd E.
  pose proof (safeSerialize_grows _ _ _ _ _ _ _ E) as I.
  rewrite (safeSerialize_array _ _ _ _ _ Ha Hd) in E.
  unfold bind in E.
  destruct (mapM read_slot (take 100 items) seen) as [[vs|e|] s1] eqn:Es;
    try discriminate.
  destruct (slice_inversion _ _ _ _ Es) as [-> Hitems].
  destruct (mapM _ vs seen) as [[ys|e|] s2] eqn:Em; try discriminate.
  inversion E; subst. exists ys. repeat split; [assumption|].
  rewrite Hitems. apply mapM_inversion in Em.
  clear - Em. induction Em as [|v y vs ys (s & s' & Hv) _ IH]; simpl;
    constructor; [|assumption].
  exists v. split; [reflexivity | now exists s, s'].
Qed.

(** An array of plain elements on a plain heap returns. *)
Lemma array_returns h a items maxDepth currentDepth seen :
  plain h -> h a = HArray items -> currentDepth <= maxDepth ->
  exists out seen',
    safeSerialize h (VRef a) maxDepth currentDepth seen = (Ret (JArr out), seen')
    /\ seen ⊆ seen'
    /\ Forall2 (item_of h maxDepth currentDepth) (take 100 items) out.
Proof.
  intros Hp Ha Hd.
  destruct (safeSerialize_returns h (VRef a) maxDepth currentDepth seen Hp)
    as (j & s' & E & _).
  destruct (array_structure _ _ _ _ _ _ _ _ Ha Hd E) as (out & -> & I & F).
  now exists out, s'.
Qed.

Lemma object_structure h a props maxDepth currentDepth seen :
  h a = HObject props -> currentDepth <= maxDepth -> a ∉ seen ->
  exists fields seen',
    safeSerialize h (VRef a) maxDepth currentDepth seen
    = (Ret (JObj (assign_all fields)), seen')
    /\ {[a]} ∪ seen ⊆ seen'
    /\ Forall2 (field_of h maxDepth currentDepth) (take 100 props) fields.
Proof.
  intros Ha Hd Hin.
  rewrite (safeSerialize_object_fresh _ _ _ _ _ _ Ha Hd Hin).
  destruct (mapM_returns (field_of h maxDepth currentDepth)
              (serialize_field h maxDepth currentDepth) (take 100 props))
    with (seen := {[a]} ∪ seen) as (ys & s1 & E & I & F).
  { apply serialize_field_returns. intros obj s.
    apply safeSerialize_settles. }
  exists ys, s1. repeat split; [|assumption ..].
  now rewrite (bind_ret _ _ _ _ _ E).
Qed.

Lemma field_of_keys h maxDepth currentDepth props fields :
  Forall2 (field_of h maxDepth currentDepth) props fields ->
  map fst fields = map fst props.
Proof.
  induction 1 as [|kv f props fields [Hk _] _ IH]; simpl; [reflexivity|].
  now rewrite Hk, IH.
Qed.



(** *** The serializer on the sample inputs *)

Example serialize_cyclic :
  serialize_default cyclic_heap (VRef 0)
  = Ret (JObj [("self", circular_reference);
               ("list", JArr [JArr [JArr [max_depth_reached]]]);
               ("f", JStr "() => 0");
               ("g", serialization_error)]).
Proof. vm_compute. reflexivity. Qed.

Example serialize_nested :
  serialize_default nested_heap (VRef 0)
  = Ret (JArr [JNum 0; JArr [JNum 1; JArr [JNum 2;
           JArr [JNum 3; max_depth_reached]]]]).
Proof. vm_compute. reflexivity. Qed.

Example serialize_nested_objects :
  serialize_default nested_objects (VRef 0)
  = Ret (JObj [("level", JNum 0); ("next",
         JObj [("level", JNum 1); ("next",
         JObj [("level", JNum 2); ("next",
         JObj [("level", JNum 3); ("next", max_depth_reached)])])])]).
Proof. vm_compute. reflexivity. Qed.

(** [JSON.parse('{"a":1,"__proto__":5,"b":2}')]: the key [__proto__] is
    read and serialized like any other, and the assignment of its value
    creates no key. *)
Example serialize_proto :
  serialize_default proto_heap (VRef 0)
  = Ret (JObj [("a", JNum 1); ("b", JNum 2)]).
Proof. vm_compute. reflexivity. Qed.

(** Where the text of the depth sentinel can come from. *)
Lemma max_depth_reached_inversion h obj maxDepth currentDepth seen seen' :
  safeSerialize h obj maxDepth currentDepth seen
  = (Ret max_depth_reached, seen') ->
  (is_primitive obj = false /\ maxDepth < currentDepth)
  \/ obj = VPrim (PStr "<max depth reached>")
  \/ obj = VOther (Some "<max depth reached>").
Proof.
  intros E. destruct obj as [p|a|str].
  - rewrite safeSerialize_primitive in E. inversion E. now right; left.
  - destruct (le_lt_dec currentDepth maxDepth) as [Hd|Hd]; [|now left].
    exfalso. destruct (h a) as [items|props|[|] error] eqn:Ha.
    + destruct (array_structure h a items _ _ seen _ _ Ha Hd E)
        as (o & E' & _).
      discriminate.
    + destruct (decide (a ∈ seen)) as [Hin|Hin].
      * rewrite (safeSerialize_object_seen _ _ _ _ _ _ Ha Hd Hin) in E.
        discriminate.
      * destruct (object_structure h a props _ _ seen Ha Hd Hin)
          as (o & s & E' & _).
        rewrite E' in E. discriminate.
    + rewrite (safeSerialize_revoked _ _ _ _ _ seen Ha Hd) in E. discriminate.
    + rewrite (safeSerialize_keys_throw _ _ _ _ _ seen Ha Hd) in E.
      destruct (bool_decide (a ∈ seen)); discriminate.
  - destruct (le_lt_dec currentDepth maxDepth) as [Hd|Hd]; [|now left].
    rewrite (safeSerialize_other _ _ _ _ _ Hd) in E.
    destruct str as [s|]; [|discriminate].
    inversion E. now right; right.
Qed.

(** *** One key of the loop, and one step of a map *)

Lemma serialize_field_value h maxDepth currentDepth k v seen j seen' :
  safeSerialize h v maxDepth (currentDepth + 1) seen = (Ret j, seen') ->
  serialize_field h maxDepth currentDepth (k, Data v) seen
  = (Ret (k, j), seen').
Proof.
  intros E. unfold serialize_field. simpl. unfold bind at 1.
  now rewrite (try_catch_ret _ _ _ _ _ (eq_trans (bind_ret _ _ _ _ _ eq_refl) E)).
Qed.

Lemma serialize_field_caught h maxDepth currentDepth k v seen error seen' :
  safeSerialize h v maxDepth (currentDepth + 1) seen = (Throw error, seen') ->
  serialize_field h maxDepth currentDepth (k, Data v) seen
  = (Ret (k, serialization_error), seen').
Proof.
  intros E. unfold serialize_field. simpl. unfold bind at 1.
  now rewrite (try_catch_throw _ _ _ error seen'
                 (eq_trans (bind_ret _ _ _ _ _ eq_refl) E)).
Qed.

Lemma serialize_field_getter h maxDepth currentDepth k error seen :
  serialize_field h maxDepth currentDepth (k, ThrowingGetter error) seen
  = (Ret (k, serialization_error), seen).
Proof. reflexivity. Qed.

Lemma mapM_cons {A B} (f : A -> M B) x rest seen y s1 ys s2 :
  f x seen = (Ret y, s1) -> mapM f rest s1 = (Ret ys, s2) ->
  mapM f (x :: rest) seen = (Ret (y :: ys), s2).
Proof.
  intros E1 E2. simpl.
  now rewrite (bind_ret _ _ _ _ _ E1), (bind_ret _ _ _ _ _ E2).
Qed.

(** *** The claims about the serializer *)

(** C7. Every call of [safeSerialize] ends: the recursion never runs out
    of the fuel that [maxDepth] and [currentDepth] determine, whatever the
    heap, cycles included; and on a heap whose arrays have no accessor
    element and whose objects can all be inspected, every call returns a
    value. But not every call does: an array with an accessor element
    that throws, and an object whose [Object.keys] throws, make the call
    throw, since lines 38-39 and 51 stand outside any [try]; the same
    array under a key of an object is caught by the [try] of lines 54-58
    and becomes ["<serialization error>"]. *)
Theorem safeSerialize_throws_outside_try :
  (forall h obj maxDepth currentDepth seen,
     fst (safeSerialize h obj maxDepth currentDepth seen) <> OutOfFuel)
  /\ (forall h, plain h ->
        forall obj maxDepth currentDepth seen, exists j seen',
          safeSerialize h obj maxDepth currentDepth seen = (Ret j, seen'))
  /\ serialize_default accessor_heap (VRef 0) = Throw "Error: boom"
  /\ serialize_default accessor_heap (VRef 3) = Throw "Error: no keys"
  /\ serialize_default accessor_heap (VRef 1)
     = Ret (JObj [("items", serialization_error); ("n", JNum 2)]).
Proof.
  split; [|split; [|split; [|split]]].
  - intros h obj m d seen. apply safeSerialize_settles.
  - intros h Hp obj m d seen.
    destruct (safeSerialize_returns h obj m d seen Hp) as (j & s' & E & _).
    now exists j, s'.
  - vm_compute. reflexivity.
  - vm_compute. reflexivity.
  - vm_compute. reflexivity.
Qed.

Lemma safeSerialize_throws_outside_try_witness :
  exists j seen', safeSerialize shared_heap (VRef 0) 3 0 ∅ = (Ret j, seen').
Proof.
  destruct safeSerialize_throws_outside_try as (_ & H & _).
  apply (H shared_heap). intros a.
  destruct a as [|[|a]]; exact I.
Defined.




(** C10. The primitive check comes before the depth check: a primitive
    is returned unchanged at every depth, past [maxDepth] too; past
    [maxDepth] every other value becomes ["<max depth reached>"]; and the
    call returns that text only there, or when the value handed in
    already is that text (the string itself, or a function-like value
    whose [String()] is it). *)
Theorem primitive_check_precedes_depth_check h maxDepth currentDepth seen :
  (forall p,
     safeSerialize h (VPrim p) maxDepth currentDepth seen = (Ret (JPrim p), seen))
  /\ (forall obj, is_primitive obj = false -> maxDepth < currentDepth ->
        safeSerialize h obj maxDepth currentDepth seen
        = (Ret max_depth_reached, seen))
  /\ (forall obj seen',
        safeSerialize h obj maxDepth currentDepth seen
        = (Ret max_depth_reached, seen') ->
        (is_primitive obj = false /\ maxDepth < currentDepth)
        \/ obj = VPrim (PStr "<max depth reached>")
        \/ obj = VOther (Some "<max depth reached>")).
Proof.
  repeat split.
  - intros obj Hp Hd. now apply safeSerialize_too_deep.
  - intros obj seen' E. now apply max_depth_reached_inversion with h seen seen'.
Qed.

Lemma primitive_check_precedes_depth_check_witness :
  safeSerialize nested_heap (VPrim (PStr "deep")) 3 7 ∅
    = (Ret (JStr "deep"), ∅)
  /\ safeSerialize nested_heap (VRef 7) 3 7 ∅ = (Ret max_depth_reached, ∅)
  /\ ((is_primitive (VRef 7) = false /\ 3 < 7)
      \/ VRef 7 = VPrim (PStr "<max depth reached>")
      \/ VRef 7 = VOther (Some "<max depth reached>")).
Proof.
  split; [|split].
  - apply (primitive_check_precedes_depth_check nested_heap 3 7 ∅).
  - apply (primitive_check_precedes_depth_check nested_heap 3 7 ∅);
      [reflexivity | lia].
  - destruct (primitive_check_precedes_depth_check nested_heap 3 7 ∅)
      as (_ & _ & H).
    apply (H (VRef 7) ∅). vm_compute. reflexivity.
Defined.




End SerializerFacts.

(* ===================================================================== *)
(** ** Facts about the tool-id substitution *)
(* ===================================================================== *)

Module ToolIdFacts.
Import ToolId.

Lemma replace_all_back s :
  contains " "%char s = false -> commandId_of (toolId_of s) = s.
Proof.
  unfold commandId_of, toolId_of.
  induction s as [|x rest IH]; simpl; [reflexivity|].
  intros H. apply orb_false_iff in H as [Hx Hrest].
  rewrite (IH Hrest). f_equal.
  destruct (Ascii.eqb x ":"%char) eqn:Hc.
  - apply Ascii.eqb_eq in Hc. now subst.
  - now rewrite Hx.
Qed.

(** The substitution of line 318, character by character. *)
Lemma commandId_of_get toolId : forall n,
  String.get n (commandId_of toolId)
  = match String.get n toolId with
    | Some " "%char => Some ":"%char
    | c => c
    end.
Proof.
  unfold commandId_of.
  induction toolId as [|x rest IH]; intros n; simpl; [reflexivity|].
  destruct n as [|n]; [|apply IH].
  destruct (Ascii.eqb x " "%char) eqn:E.
  - apply Ascii.eqb_eq in E. now subst.
  - destruct x as [[] [] [] [] [] [] [] []]; try reflexivity. discriminate.
Qed.

(** A space in the native identifier does not survive the round trip. *)
Example space_is_lossy :
  commandId_of (toolId_of "my cmd:run") = "my:cmd:run".
Proof. reflexivity. Qed.

(** C6. For every host command identifier that contains [':'] and no
    space, replacing every [':'] by a space and then every space by [':']
    gives the identifier back. *)
Theorem tool_id_round_trip (commandId : string) :
  contains ":"%char commandId = true ->
  contains " "%char commandId = false ->
  commandId_of (toolId_of commandId) = commandId.
Proof. intros _. apply replace_all_back. Qed.

Lemma tool_id_round_trip_witness :
  toolId_of "notebook:append-execute" = "notebook append-execute"
  /\ commandId_of (toolId_of "notebook:append-execute")
     = "notebook:append-execute".
Proof.
  split; [reflexivity|].
  apply (tool_id_round_trip "notebook:append-execute"); reflexivity.
Defined.

End ToolIdFacts.

(* ===================================================================== *)
(** ** Facts about the connection manager and the dispatcher *)
(* ===================================================================== *)

Module ManagerFacts.
Import JS Serializer ToolId Manager Samples.

(** *** The scenarios of the specification, run *)

Example catalog_scenario :
  map tool_id (widget_tools (run host [FrameFires] (set_frames 1 connected)))
  = ["notebook run"; "notebook save"].
Proof. vm_compute. reflexivity. Qed.

Example peer_execution_scenario :
  wire (run host [SocketReceives 0 (Some (apply_tool "notebook run" "e1"));
                  CommandSettles 0] connected)
  = [(0, JObj [("type", JStr "tool_result"); ("tool_id", JStr "notebook run");
               ("execution_id", JStr "e1"); ("success", JBool true);
               ("result", JNum 42)])].
Proof. vm_compute. reflexivity. Qed.

Example unknown_command_scenario :
  wire (socket_receives host 0 (Some (apply_tool "nonexistent cmd" "e2"))
          connected)
  = [(0, JObj [("type", JStr "tool_result");
               ("tool_id", JStr "nonexistent cmd");
               ("execution_id", JStr "e2"); ("success", JBool false);
               ("error", JStr "Command not found: nonexistent:cmd")])].
Proof. vm_compute. reflexivity. Qed.

(** The reply of a command that settles late goes out on the socket the
    manager holds by then: here the first socket closes while the command
    runs, the manager reconnects, and the reply leaves on the second. If
    no socket is open by then, the reply is dropped. *)
Example late_reply_scenario :
  wire (run host [SocketReceives 0 (Some (apply_tool "notebook run" "e1"));
                  SocketCloses 0; TimerFires; SocketOpens 1;
                  CommandSettles 0] connected)
  = [(1, JObj [("type", JStr "tool_result"); ("tool_id", JStr "notebook run");
               ("execution_id", JStr "e1"); ("success", JBool true);
               ("result", JNum 42)])]
  /\ wire (run host [SocketReceives 0 (Some (apply_tool "notebook run" "e1"));
                     SocketCloses 0; CommandSettles 0] connected)
     = [].
Proof. split; vm_compute; reflexivity. Qed.

(** A tool id that cannot be printed: the request leaves no trace beyond
    the entry for the received message. *)
Example unprintable_tool_id_scenario :
  let message :=
    JObj [("type", JStr "apply_tool");
          ("tool_id", JObj [("toString", JNum 1)]);
          ("execution_id", JStr "e4")] in
  wire (socket_receives host 0 (Some message) connected) = []
  /\ awaiting (socket_receives host 0 (Some message) connected) = []
  /\ console (socket_receives host 0 (Some message) connected)
     = (console connected ++ [(LOG, "Received message:")])%list.
Proof. repeat split; vm_compute; reflexivity. Qed.

(** *** sendMessage *)

Lemma sendMessage_not_open message st :
  is_open st = false ->
  sendMessage message st = console_ ERROR "WebSocket is not connected" st.
Proof.
  unfold is_open, sendMessage. intros H.
  destruct (ws st) as [i|]; [|reflexivity].
  destruct (sockets st !! i) as [[]|]; try reflexivity. discriminate.
Qed.

Lemma sendMessage_open message st i :
  ws st = Some i -> sockets st !! i = Some OPEN ->
  sendMessage message st
  = addMessage Sent (or_else (field message "type") (JStr "unknown")) message
      (set_wire (wire st ++ [(i, message)]) st).
Proof. unfold sendMessage. now intros -> ->. Qed.

(** *** The peer-initiated path *)

(** C4. An inbound [apply_tool] whose tool id, every space of it turned
    into [':'], names no host command is answered through [sendMessage]
    with a [tool_result] envelope: [success] false, the [execution_id] as
    the peer gave it, the [tool_id] as received, and the error text
    ["Command not found: "] followed by the native command id, which is
    the tool id with [':'] at each place where the tool id has a space
    and the tool id's own character everywhere else. No host command is
    invoked, the function returns normally without reaching its [await],
    so that no call is left standing, and on an open connection the
    envelope is what goes on the wire. *)
Theorem command_not_found_reply app toolId parameters executionId st i :
  hasCommand app (commandId_of toolId) = false ->
  ws st = Some i -> sockets st !! i = Some OPEN ->
  let native := commandId_of toolId in
  let reply :=
    JObj [("type", JStr "tool_result");
          ("tool_id", JStr toolId);
          ("execution_id", executionId);
          ("success", JBool false);
          ("error", JStr ("Command not found: " +:+ native))] in
  let st' := applyToolFromServer app (JStr toolId) parameters executionId st in
  (forall n,
     String.get n native
     = match String.get n toolId with
       | Some " "%char => Some ":"%char
       | c => c
       end)
  /\ wire st' = (wire st ++ [(i, reply)])%list
  /\ invoked st' = invoked st
  /\ awaiting st' = awaiting st
  /\ applyToolFromServer_start app (JStr toolId) parameters executionId st
     = (st', None)
  /\ st' =
     sendMessage reply
       (console_ ERROR ("Command not found: " +:+ native)
          (console_ LOG ("Applying tool from server: " +:+ toolId) st)).
Proof.
  intros Hno Hws Hopen native reply st'.
  assert (S : applyToolFromServer_start app (JStr toolId) parameters
                executionId st = (st', None)).
  { unfold st', applyToolFromServer, applyToolFromServer_start. simpl.
    now rewrite Hno. }
  assert (E : st' =
     sendMessage reply
       (console_ ERROR ("Command not found: " +:+ native)
          (console_ LOG ("Applying tool from server: " +:+ toolId) st))).
  { unfold st', applyToolFromServer, applyToolFromServer_start. simpl.
    now rewrite Hno. }
  split; [apply ToolIdFacts.commandId_of_get|].
  split; [|split; [|split; [|split; [exact S | exact E]]]]; rewrite E.
  - rewrite (sendMessage_open _ _ i); [reflexivity | assumption ..].
  - now rewrite (sendMessage_open _ _ i).
  - now rewrite (sendMessage_open _ _ i).
Qed.

Lemma command_not_found_reply_witness :
  String.get 11 "nonexistent:cmd" = Some ":"%char
  /\ wire (applyToolFromServer host (JStr "nonexistent cmd") (JObj [])
             (JStr "e2") connected)
     = (wire connected
        ++ [(0, JObj [("type", JStr "tool_result");
                      ("tool_id", JStr "nonexistent cmd");
                      ("execution_id", JStr "e2");
                      ("success", JBool false);
                      ("error",
                       JStr "Command not found: nonexistent:cmd")])])%list
  /\ invoked (applyToolFromServer host (JStr "nonexistent cmd") (JObj [])
                (JStr "e2") connected)
     = invoked connected.
Proof.
  destruct (command_not_found_reply host "nonexistent cmd" (JObj [])
              (JStr "e2") connected 0) as (G & W & I & _);
    [reflexivity | reflexivity | reflexivity |].
  split; [exact (G 11)|]. split; [exact W | exact I].
Defined.

(** *** The retry budget *)

Lemma attemptReconnect_below st :
  reconnectAttempts st < maxReconnectAttempts ->
  timers (attemptReconnect st) = (timers st ++ [reconnectDelay])%list
  /\ reconnectAttempts (attemptReconnect st) = S (reconnectAttempts st)
  /\ sockets (attemptReconnect st) = sockets st
  /\ ws (attemptReconnect st) = ws st.
Proof.
  intros H. unfold attemptReconnect.
  apply Nat.ltb_lt in H. rewrite H. now repeat split.
Qed.

Lemma attemptReconnect_exhausted st :
  maxReconnectAttempts <= reconnectAttempts st ->
  attemptReconnect st = console_ ERROR "Max reconnection attempts reached" st.
Proof.
  intros H. unfold attemptReconnect.
  apply Nat.ltb_ge in H. now rewrite H.
Qed.

Lemma onopen_resets st : reconnectAttempts (onopen st) = 0.
Proof. reflexivity. Qed.

(** One unexpected loss while retries remain: a new socket, connecting,
    becomes the manager's socket. *)
Lemma connection_lost_retries st j r :
  ws st = Some j -> sockets st !! j = Some r -> r <> CLOSED ->
  timers st = [] -> reconnectAttempts st < maxReconnectAttempts ->
  let st' := connection_lost st in
  ws st' = Some (length (sockets st))
  /\ sockets st' !! length (sockets st) = Some CONNECTING
  /\ length (sockets st') = S (length (sockets st))
  /\ timers st' = []
  /\ reconnectAttempts st' = S (reconnectAttempts st).
Proof.
  intros Hws Hj Hr Ht Hlt. unfold connection_lost. rewrite Hws.
  unfold socket_closes. rewrite Hj.
  set (st1 := set_sockets (<[j:=CLOSED]> (sockets st)) st).
  assert (E : forall k, match r with CLOSED => k | _ => onclose st1 end
                        = onclose st1) by (now destruct r).
  rewrite E. clear E. unfold onclose.
  set (st2 := console_ LOG "WebSocket closed" st1).
  assert (Hlt2 : reconnectAttempts st2 < maxReconnectAttempts) by assumption.
  destruct (attemptReconnect_below st2 Hlt2) as (T & A & S' & W).
  unfold timer_fires. rewrite T. simpl. rewrite Ht. simpl.
  rewrite S'. simpl. rewrite length_insert. repeat split.
  - rewrite lookup_app_r; rewrite length_insert; [|lia].
    now rewrite Nat.sub_diag.
  - rewrite length_app, length_insert. simpl. lia.
  - assumption.
Qed.

(** One unexpected loss with the budget spent: nothing is scheduled. *)
Lemma connection_lost_gives_up st j r :
  ws st = Some j -> sockets st !! j = Some r -> r <> CLOSED ->
  timers st = [] -> maxReconnectAttempts <= reconnectAttempts st ->
  let st' := connection_lost st in
  ws st' = Some j
  /\ sockets st' !! j = Some CLOSED
  /\ length (sockets st') = length (sockets st)
  /\ timers st' = []
  /\ reconnectAttempts st' = reconnectAttempts st.
Proof.
  intros Hws Hj Hr Ht Hge. unfold connection_lost. rewrite Hws.
  unfold socket_closes. rewrite Hj.
  set (st1 := set_sockets (<[j:=CLOSED]> (sockets st)) st).
  assert (E : forall k, match r with CLOSED => k | _ => onclose st1 end
                        = onclose st1) by (now destruct r).
  rewrite E. clear E. unfold onclose.
  rewrite attemptReconnect_exhausted by assumption.
  unfold timer_fires. simpl. rewrite Ht. simpl. repeat split.
  - assumption.
  - apply list_lookup_insert_eq. now apply lookup_lt_Some with r.
  - apply length_insert.
  - assumption.
Qed.

(** A socket closes once: after that the platform has nothing to
    deliver. *)
Lemma connection_lost_closed st j :
  ws st = Some j -> sockets st !! j = Some CLOSED -> timers st = [] ->
  connection_lost st = st.
Proof.
  intros Hws Hj Ht. unfold connection_lost, socket_closes, timer_fires.
  now rewrite Hws, Hj, Ht.
Qed.

Lemma after_losses_step base n s :
  after_losses base n s -> after_losses base (S n) (connection_lost s).
Proof.
  unfold after_losses, maxReconnectAttempts.
  intros (Ht & Ha & Hl & j & Hws & [(Hn & r & Hj & Hr) | (Hn & Hj)]).
  - destruct (Nat.eq_dec n 5) as [->|Hne].
    + destruct (connection_lost_gives_up s j r Hws Hj Hr Ht)
        as (W & J & L & T & A); [unfold maxReconnectAttempts; lia|].
      repeat split; [assumption | lia | lia |].
      exists j. split; [assumption|]. right. split; [lia | assumption].
    + destruct (connection_lost_retries s j r Hws Hj Hr Ht)
        as (W & J & L & T & A); [unfold maxReconnectAttempts; lia|].
      repeat split; [assumption | lia | lia |].
      exists (length (sockets s)). split; [assumption|]. left.
      split; [lia|]. exists CONNECTING. now split.
  - rewrite (connection_lost_closed s j Hws Hj Ht).
    repeat split; [assumption | lia | lia |].
    exists j. split; [assumption|]. right. split; [lia | assumption].
Qed.

(** C5. After a successful open the retry counter is zero, whatever it
    was; of [n] consecutive unexpected losses that follow, each of the
    first five is answered by one reconnect attempt (one new socket) and
    none after the fifth: no sixth attempt is scheduled, and no timer is
    left pending. *)
Theorem retry_budget st i n :
  ws st = Some i -> sockets st !! i = Some CONNECTING -> timers st = [] ->
  let opened := socket_opens i st in
  let final := Nat.iter n connection_lost opened in
  reconnectAttempts opened = 0
  /\ reconnectAttempts final = Nat.min n 5
  /\ length (sockets final) = length (sockets st) + Nat.min n 5
  /\ timers final = [].
Proof.
  intros Hws Hi Ht opened final.
  assert (Hopened : opened
                    = onopen (set_sockets (<[i:=OPEN]> (sockets st)) st)).
  { unfold opened, socket_opens. now rewrite Hi. }
  assert (H0 : after_losses (length (sockets st)) 0 opened).
  { rewrite Hopened. unfold after_losses. simpl.
    repeat split; [assumption | now rewrite length_insert, Nat.add_0_r |].
    exists i. split; [assumption|]. left.
    split; [unfold maxReconnectAttempts; lia|]. exists OPEN. split; [|easy].
    apply list_lookup_insert_eq. now apply lookup_lt_Some with CONNECTING. }
  assert (Hn : after_losses (length (sockets st)) n final).
  { unfold final. clear final. induction n as [|n IH]; [exact H0|].
    simpl. now apply after_losses_step. }
  destruct Hn as (T & A & L & _).
  split; [now rewrite Hopened|]. now repeat split.
Qed.

Lemma retry_budget_witness :
  reconnectAttempts (socket_opens 0 (connect initial)) = 0
  /\ reconnectAttempts
       (Nat.iter 7 connection_lost (socket_opens 0 (connect initial)))
     = Nat.min 7 5
  /\ length (sockets
       (Nat.iter 7 connection_lost (socket_opens 0 (connect initial))))
     = length (sockets (connect initial)) + Nat.min 7 5
  /\ timers (Nat.iter 7 connection_lost (socket_opens 0 (connect initial)))
     = [].
Proof.
  apply (retry_budget (connect initial) 0 7); reflexivity.
Defined.

(** *** The console is write-only

    No handler reads the console back, so two states that differ only
    there behave alike under every sequence of events. *)

Section WriteOnlyConsole.
Variables s1 s2 : state.
Hypothesis same : mute s1 = mute s2.

Lemma same_ws : ws s1 = ws s2.
Proof. exact (f_equal ws same). Qed.
Lemma same_reconnectAttempts : reconnectAttempts s1 = reconnectAttempts s2.
Proof. exact (f_equal reconnectAttempts same). Qed.
Lemma same_sockets : sockets s1 = sockets s2.
Proof. exact (f_equal sockets same). Qed.
Lemma same_timers : timers s1 = timers s2.
Proof. exact (f_equal timers same). Qed.
Lemma same_frames : frames s1 = frames s2.
Proof. exact (f_equal frames same). Qed.
Lemma same_wire : wire s1 = wire s2.
Proof. exact (f_equal wire same). Qed.
Lemma same_widget_tools : widget_tools s1 = widget_tools s2.
Proof. exact (f_equal widget_tools same). Qed.
Lemma same_widget_messages : widget_messages s1 = widget_messages s2.
Proof. exact (f_equal widget_messages same). Qed.
Lemma same_invoked : invoked s1 = invoked s2.
Proof. exact (f_equal invoked same). Qed.
Lemma same_awaiting : awaiting s1 = awaiting s2.
Proof. exact (f_equal awaiting same). Qed.

Lemma mute_console_ l1 t1 l2 t2 :
  mute (console_ l1 t1 s1) = mute (console_ l2 t2 s2).
Proof. exact same. Qed.
Lemma mute_console_l l t : mute (console_ l t s1) = mute s2.
Proof. exact same. Qed.
Lemma mute_set_ws v : mute (set_ws v s1) = mute (set_ws v s2).
Proof. exact (f_equal (set_ws v) same). Qed.
Lemma mute_set_reconnectAttempts v :
  mute (set_reconnectAttempts v s1) = mute (set_reconnectAttempts v s2).
Proof. exact (f_equal (set_reconnectAttempts v) same). Qed.
Lemma mute_set_sockets v : mute (set_sockets v s1) = mute (set_sockets v s2).
Proof. exact (f_equal (set_sockets v) same). Qed.
Lemma mute_set_timers v : mute (set_timers v s1) = mute (set_timers v s2).
Proof. exact (f_equal (set_timers v) same). Qed.
Lemma mute_set_frames v : mute (set_frames v s1) = mute (set_frames v s2).
Proof. exact (f_equal (set_frames v) same). Qed.
Lemma mute_set_wire v : mute (set_wire v s1) = mute (set_wire v s2).
Proof. exact (f_equal (set_wire v) same). Qed.
Lemma mute_set_widget_tools v :
  mute (set_widget_tools v s1) = mute (set_widget_tools v s2).
Proof. exact (f_equal (set_widget_tools v) same). Qed.
Lemma mute_set_widget_messages v :
  mute (set_widget_messages v s1) = mute (set_widget_messages v s2).
Proof. exact (f_equal (set_widget_messages v) same). Qed.
Lemma mute_set_invoked v : mute (set_invoked v s1) = mute (set_invoked v s2).
Proof. exact (f_equal (set_invoked v) same). Qed.
Lemma mute_set_awaiting v :
  mute (set_awaiting v s1) = mute (set_awaiting v s2).
Proof. exact (f_equal (set_awaiting v) same). Qed.

Lemma mute_addMessage d type data :
  mute (addMessage d type data s1) = mute (addMessage d type data s2).
Proof.
  unfold addMessage. rewrite same_widget_messages.
  apply mute_set_widget_messages.
Qed.

Lemma mute_call_command id args :
  mute (call_command id args s1) = mute (call_command id args s2).
Proof. unfold call_command. rewrite same_invoked. apply mute_set_invoked. Qed.

End WriteOnlyConsole.

Create HintDb quiet.
#[local] Hint Resolve mute_console_ mute_set_ws mute_set_reconnectAttempts
  mute_set_sockets mute_set_timers mute_set_frames mute_set_wire
  mute_set_widget_tools mute_set_widget_messages mute_set_invoked
  mute_set_awaiting mute_addMessage mute_call_command : quiet.

Lemma mute_sendMessage message s1 s2 :
  mute s1 = mute s2 -> mute (sendMessage message s1) = mute (sendMessage message s2).
Proof.
  intros H. unfold sendMessage.
  rewrite (same_ws _ _ H), (same_sockets _ _ H), (same_wire _ _ H).
  destruct (ws s2) as [i|]; [|auto with quiet].
  destruct (sockets s2 !! i) as [[]|]; auto with quiet.
Qed.
#[local] Hint Resolve mute_sendMessage : quiet.

Lemma mute_connect s1 s2 : mute s1 = mute s2 -> mute (connect s1) = mute (connect s2).
Proof.
  intros H. unfold connect. simpl. rewrite (same_sockets _ _ H).
  auto with quiet.
Qed.

Lemma mute_onopen s1 s2 : mute s1 = mute s2 -> mute (onopen s1) = mute (onopen s2).
Proof.
  intros H. unfold onopen. simpl. rewrite (same_frames _ _ H).
  auto with quiet.
Qed.

Lemma mute_onclose s1 s2 : mute s1 = mute s2 -> mute (onclose s1) = mute (onclose s2).
Proof.
  intros H. unfold onclose, attemptReconnect. simpl.
  rewrite (same_reconnectAttempts _ _ H), (same_timers _ _ H).
  destruct (_ <? _)%nat; auto with quiet.
Qed.

Lemma mute_close s1 s2 : mute s1 = mute s2 -> mute (close s1) = mute (close s2).
Proof.
  intros H. unfold close. rewrite (same_ws _ _ H), (same_sockets _ _ H).
  destruct (ws s2); auto with quiet.
Qed.

Lemma mute_collect_tools app ids : forall tools s1 s2,
  mute s1 = mute s2 ->
  fst (collect_tools app ids tools s1) = fst (collect_tools app ids tools s2)
  /\ mute (snd (collect_tools app ids tools s1))
     = mute (snd (collect_tools app ids tools s2)).
Proof.
  induction ids as [|commandId rest IH]; intros tools s1 s2 H; simpl.
  - now split.
  - destruct (describe app commandId); apply IH; auto with quiet.
Qed.

Lemma mute_registerTools app s1 s2 :
  mute s1 = mute s2 ->
  mute (registerTools app s1) = mute (registerTools app s2).
Proof.
  intros H. unfold registerTools.
  set (line := ("Total JupyterLab commands available: " +:+ _)).
  destruct (mute_collect_tools app (listCommands app) []
              (console_ LOG line s1) (console_ LOG line s2)) as [E1 E2];
    [auto with quiet|].
  destruct (collect_tools _ _ _ (console_ LOG line s1)) as [t1 u1].
  destruct (collect_tools _ _ _ (console_ LOG line s2)) as [t2 u2].
  simpl in E1, E2. subst t2. auto 8 with quiet.
Qed.

Lemma mute_applyToolLocal_start app toolId parameters s1 s2 :
  mute s1 = mute s2 ->
  snd (applyToolLocal_start app toolId parameters s1)
  = snd (applyToolLocal_start app toolId parameters s2)
  /\ mute (fst (applyToolLocal_start app toolId parameters s1))
     = mute (fst (applyToolLocal_start app toolId parameters s2)).
Proof.
  intros H. unfold applyToolLocal_start.
  destruct (hasCommand app toolId); simpl; split; auto with quiet.
Qed.

Lemma mute_applyToolLocal_resume toolId parameters settled s1 s2 :
  mute s1 = mute s2 ->
  mute (applyToolLocal_resume toolId parameters settled s1)
  = mute (applyToolLocal_resume toolId parameters settled s2).
Proof.
  intros H. unfold applyToolLocal_resume, applyToolLocal_catch.
  destruct settled as [h result|error]; [|auto 8 with quiet].
  destruct (serialize h result 2); auto 8 with quiet.
Qed.

Lemma mute_applyToolRemote toolId parameters s1 s2 :
  mute s1 = mute s2 ->
  mute (applyToolRemote toolId parameters s1)
  = mute (applyToolRemote toolId parameters s2).
Proof. intros H. unfold applyToolRemote. auto 8 with quiet. Qed.

Lemma mute_applyToolFromServer_catch toolId executionId error s1 s2 :
  mute s1 = mute s2 ->
  mute (applyToolFromServer_catch toolId executionId error s1)
  = mute (applyToolFromServer_catch toolId executionId error s2).
Proof.
  intros H. unfold applyToolFromServer_catch.
  destruct (String_json toolId); auto 8 with quiet.
Qed.
#[local] Hint Resolve mute_applyToolFromServer_catch : quiet.

Lemma mute_applyToolFromServer_start app toolId parameters executionId s1 s2 :
  mute s1 = mute s2 ->
  snd (applyToolFromServer_start app toolId parameters executionId s1)
  = snd (applyToolFromServer_start app toolId parameters executionId s2)
  /\ mute (fst (applyToolFromServer_start app toolId parameters executionId s1))
     = mute (fst (applyToolFromServer_start app toolId parameters executionId
                    s2)).
Proof.
  intros H. unfold applyToolFromServer_start.
  destruct (String_json toolId) as [shown|]; [|now split].
  destruct toolId as [[| | | |id]| |]; simpl;
    try (split; [reflexivity | auto 8 with quiet]).
  destruct (hasCommand app (commandId_of id)); simpl;
    (split; [reflexivity | auto 8 with quiet]).
Qed.

Lemma mute_applyToolFromServer_resume id executionId settled s1 s2 :
  mute s1 = mute s2 ->
  mute (applyToolFromServer_resume id executionId settled s1)
  = mute (applyToolFromServer_resume id executionId settled s2).
Proof.
  intros H. unfold applyToolFromServer_resume.
  destruct settled as [h result|error]; [|auto 8 with quiet].
  destruct (serialize h result 2); auto 8 with quiet.
Qed.

Lemma mute_resume c s1 s2 :
  mute s1 = mute s2 -> mute (resume c s1) = mute (resume c s2).
Proof.
  intros H. unfold resume. destruct (call_origin c).
  - now apply mute_applyToolFromServer_resume.
  - now apply mute_applyToolLocal_resume.
Qed.

Lemma mute_suspend (r1 r2 : state * option call) :
  snd r1 = snd r2 -> mute (fst r1) = mute (fst r2) ->
  mute (suspend r1) = mute (suspend r2).
Proof.
  destruct r1 as [u1 c1], r2 as [u2 c2]. simpl. intros <- H.
  destruct c1; [|assumption].
  rewrite (same_awaiting _ _ H). auto with quiet.
Qed.

Lemma mute_finish (r1 r2 : state * option call) :
  snd r1 = snd r2 -> mute (fst r1) = mute (fst r2) ->
  mute (finish r1) = mute (finish r2).
Proof.
  destruct r1 as [u1 c1], r2 as [u2 c2]. simpl. intros <- H.
  destruct c1; [|assumption]. now apply mute_resume.
Qed.

Lemma mute_applyToolLocal app toolId parameters s1 s2 :
  mute s1 = mute s2 ->
  mute (applyToolLocal app toolId parameters s1)
  = mute (applyToolLocal app toolId parameters s2).
Proof.
  intros H. unfold applyToolLocal.
  now apply mute_finish; apply mute_applyToolLocal_start.
Qed.

Lemma mute_applyToolFromServer app toolId parameters executionId s1 s2 :
  mute s1 = mute s2 ->
  mute (applyToolFromServer app toolId parameters executionId s1)
  = mute (applyToolFromServer app toolId parameters executionId s2).
Proof.
  intros H. unfold applyToolFromServer.
  now apply mute_finish; apply mute_applyToolFromServer_start.
Qed.

Lemma mute_handleMessage app data s1 s2 :
  mute s1 = mute s2 ->
  mute (handleMessage app data s1) = mute (handleMessage app data s2).
Proof.
  intros H. unfold handleMessage.
  destruct data as [message|]; [|auto with quiet].
  destruct (get message "type") as [type|]; [|auto with quiet].
  assert (H' : mute (addMessage Received (or_else type (JStr "unknown")) message
                  (console_ LOG "Received message:" s1))
             = mute (addMessage Received (or_else type (JStr "unknown")) message
                  (console_ LOG "Received message:" s2)))
    by auto with quiet.
  destruct type as [[| | | |t]| |]; try exact H'.
  destruct (String.eqb t "apply_tool") eqn:Et.
  - apply String.eqb_eq in Et. subst t.
    now apply mute_suspend; apply mute_applyToolFromServer_start.
  - assert (forall (k : state) (other : state),
              match t with "apply_tool" => k | _ => other end = other) as E.
    { intros k other.
      repeat (match goal with
              | |- context [match ?x with _ => _ end] =>
                  destruct x; try reflexivity
              end);
      simpl in Et; discriminate. }
    rewrite !E. exact H'.
Qed.

Lemma mute_deliver app e s1 s2 :
  mute s1 = mute s2 -> mute (deliver app e s1) = mute (deliver app e s2).
Proof.
  intros H. destruct e as [i|i|i|i data| | | | |toolId p|toolId p|k]; simpl.
  - unfold socket_opens. rewrite (same_sockets _ _ H).
    destruct (sockets s2 !! i) as [[]|]; try assumption.
    apply mute_onopen. auto with quiet.
  - unfold socket_errors, onerror. rewrite (same_sockets _ _ H).
    destruct (sockets s2 !! i) as [[]|]; auto with quiet.
  - unfold socket_closes. rewrite (same_sockets _ _ H).
    destruct (sockets s2 !! i) as [[]|]; try assumption;
      apply mute_onclose; auto with quiet.
  - unfold socket_receives. rewrite (same_sockets _ _ H).
    destruct (sockets s2 !! i) as [[]|]; try assumption.
    now apply mute_handleMessage.
  - unfold timer_fires. rewrite (same_timers _ _ H).
    destruct (timers s2); [assumption|].
    apply mute_connect. auto with quiet.
  - unfold frame_fires. rewrite (same_frames _ _ H).
    destruct (frames s2); [assumption|].
    apply mute_registerTools. auto with quiet.
  - now apply mute_connect.
  - now apply mute_close.
  - now apply mute_suspend; apply mute_applyToolLocal_start.
  - now apply mute_applyToolRemote.
  - unfold command_settles. rewrite (same_awaiting _ _ H).
    destruct (awaiting s2 !! k); [|assumption].
    apply mute_resume. auto with quiet.
Qed.

Lemma mute_run app es : forall s1 s2,
  mute s1 = mute s2 -> mute (run app es s1) = mute (run app es s2).
Proof.
  unfold run. induction es as [|e es IH]; intros s1 s2 H; simpl.
  - assumption.
  - apply IH. now apply mute_deliver.
Qed.

(** C9. In every state other than open (no socket, or a socket that is
    connecting, closing or closed) [sendMessage] transmits nothing, logs
    one error on the console and returns normally, leaving everything
    else as it was; the message is kept nowhere: whatever events follow,
    the wire carries exactly what it would have carried had the call
    never been made. *)
Theorem send_while_not_open message st :
  is_open st = false ->
  sendMessage message st = console_ ERROR "WebSocket is not connected" st
  /\ wire (sendMessage message st) = wire st
  /\ console (sendMessage message st)
     = (console st ++ [(ERROR, "WebSocket is not connected")])%list
  /\ forall app es,
       wire (run app es (sendMessage message st)) = wire (run app es st).
Proof.
  intros H. rewrite (sendMessage_not_open _ _ H).
  repeat split. intros app es.
  apply same_wire, mute_run. reflexivity.
Qed.

Lemma send_while_not_open_witness :
  sendMessage (apply_tool "notebook run" "e1") initial
  = console_ ERROR "WebSocket is not connected" initial
  /\ wire (sendMessage (apply_tool "notebook run" "e1") initial) = wire initial
  /\ console (sendMessage (apply_tool "notebook run" "e1") initial)
     = (console initial ++ [(ERROR, "WebSocket is not connected")])%list
  /\ wire (run host [CallConnect; SocketOpens 0; FrameFires]
             (sendMessage (apply_tool "notebook run" "e1") initial))
     = wire (run host [CallConnect; SocketOpens 0; FrameFires] initial).
Proof.
  destruct (send_while_not_open (apply_tool "notebook run" "e1") initial)
    as (E & W & C & Q); [reflexivity|].
  split; [exact E|]. split; [exact W|]. split; [exact C|]. apply Q.
Defined.

(** *** close() and the close event that follows it *)

Lemma close_clears st :
  ws (close st) = None
  /\ is_open (close st) = false
  /\ timers (close st) = timers st
  /\ reconnectAttempts (close st) = reconnectAttempts st
  /\ length (sockets (close st)) = length (sockets st).
Proof.
  unfold close, is_open. destruct (ws st) as [i|] eqn:E; simpl.
  - repeat split. apply length_alter.
  - rewrite E. now repeat split.
Qed.

Lemma close_socket st i r :
  ws st = Some i -> sockets st !! i = Some r ->
  sockets (close st) !! i = Some (ws_close r).
Proof.
  intros Hws Hi. unfold close. rewrite Hws. simpl.
  rewrite list_lookup_alter_eq. now rewrite Hi.
Qed.

(** C1, as the claim states it, fails: on an open connection with retries
    left, the close event that follows [close()] schedules a reconnect,
    and when that timer fires the manager holds a new connecting socket. *)
Lemma close_is_followed_by_reconnect :
  ~ (forall st i, ws st = Some i ->
       timers (socket_closes i (close st)) = timers (close st))
  /\ timers (close connected) = []
  /\ timers (socket_closes 0 (close connected)) = [reconnectDelay]
  /\ ws (timer_fires (socket_closes 0 (close connected))) = Some 1
  /\ sockets (timer_fires (socket_closes 0 (close connected)))
     = [CLOSED; CONNECTING].
Proof.
  split; [|repeat split].
  intros H. specialize (H connected 0 eq_refl). vm_compute in H. discriminate.
Qed.

(** C1, amended. [close()] clears the manager's socket reference, after
    which the manager is not open, and it schedules nothing itself; it
    starts closing the socket it held. The close event that follows is
    handled like any other close: it schedules one reconnect after 2000
    units when fewer than 5 attempts were made since the last open, and
    none once that budget is spent. *)
Theorem close_then_close_event st i r :
  ws st = Some i -> sockets st !! i = Some r -> r <> CLOSED ->
  ws (close st) = None
  /\ is_open (close st) = false
  /\ timers (close st) = timers st
  /\ sockets (close st) !! i = Some CLOSING
  /\ (reconnectAttempts st < maxReconnectAttempts ->
        timers (socket_closes i (close st))
        = (timers st ++ [reconnectDelay])%list
        /\ reconnectAttempts (socket_closes i (close st))
           = S (reconnectAttempts st))
  /\ (maxReconnectAttempts <= reconnectAttempts st ->
        timers (socket_closes i (close st)) = timers st
        /\ ws (socket_closes i (close st)) = None
        /\ reconnectAttempts (socket_closes i (close st))
           = reconnectAttempts st).
Proof.
  intros Hws Hi Hr.
  destruct (close_clears st) as (W & O & T & A & _).
  assert (Hc : sockets (close st) !! i = Some CLOSING).
  { rewrite (close_socket st i r Hws Hi). now destruct r. }
  repeat split; try assumption.
  - unfold socket_closes. rewrite Hc. unfold onclose.
    set (st1 := console_ LOG "WebSocket closed" _).
    assert (Hlt : reconnectAttempts st1 < maxReconnectAttempts)
      by (unfold st1; simpl; now rewrite A).
    destruct (attemptReconnect_below st1 Hlt) as (T1 & _).
    rewrite T1. unfold st1. simpl. now rewrite T.
  - unfold socket_closes. rewrite Hc. unfold onclose.
    set (st1 := console_ LOG "WebSocket closed" _).
    assert (Hlt : reconnectAttempts st1 < maxReconnectAttempts)
      by (unfold st1; simpl; now rewrite A).
    destruct (attemptReconnect_below st1 Hlt) as (_ & A1 & _).
    rewrite A1. unfold st1. simpl. now rewrite A.
  - unfold socket_closes. rewrite Hc. unfold onclose.
    rewrite attemptReconnect_exhausted by (simpl; now rewrite A).
    simpl. exact T.
  - unfold socket_closes. rewrite Hc. unfold onclose.
    rewrite attemptReconnect_exhausted by (simpl; now rewrite A).
    simpl. exact W.
  - unfold socket_closes. rewrite Hc. unfold onclose.
    rewrite attemptReconnect_exhausted by (simpl; now rewrite A).
    simpl. exact A.
Qed.

Lemma close_then_close_event_witness :
  ws (close connected) = None
  /\ is_open (close connected) = false
  /\ timers (close connected) = timers connected
  /\ sockets (close connected) !! 0 = Some CLOSING
  /\ timers (socket_closes 0 (close connected))
     = (timers connected ++ [reconnectDelay])%list
  /\ reconnectAttempts (socket_closes 0 (close connected))
     = S (reconnectAttempts connected).
Proof.
  destruct (close_then_close_event connected 0 OPEN)
    as (W & O & T & S' & Below & _);
    [reflexivity | reflexivity | discriminate |].
  destruct Below as (T' & A'); [vm_compute; lia|].
  split; [exact W|]. split; [exact O|]. split; [exact T|].
  split; [exact S'|]. split; [exact T' | exact A'].
Defined.

(** *** The local path *)

Lemma applyToolLocal_not_found app toolId parameters st :
  hasCommand app toolId = false ->
  applyToolLocal app toolId parameters st
  = addMessage Sent (JStr "local_execute")
      (local_failure toolId parameters ("Command not found: " +:+ toolId))
      (console_ ERROR ("Command not found: " +:+ toolId)
         (console_ LOG ("Executing tool LOCALLY: " +:+ toolId) st)).
Proof.
  intros H. unfold applyToolLocal, applyToolLocal_start. now rewrite H.
Qed.

Lemma applyToolLocal_success app toolId parameters st h result j :
  hasCommand app toolId = true ->
  execute app toolId parameters = Resolved h result ->
  serialize h result 2 = Ret j ->
  invoked (applyToolLocal app toolId parameters st)
  = (invoked st ++ [(toolId, parameters)])%list
  /\ widget_messages (applyToolLocal app toolId parameters st)
     = (widget_messages st
        ++ [(Sent, JStr "local_execute",
             local_success toolId parameters j)])%list.
Proof.
  intros H E S. unfold applyToolLocal, applyToolLocal_start.
  rewrite H. simpl. unfold resume, applyToolLocal_resume. simpl.
  rewrite E, S. now split.
Qed.

(** C2, at the failing input. The catalog built from a host that has
    [notebook:run] lists the tool id ["notebook run"]; handed that id,
    the local path asks the host for a command named ["notebook run"],
    finds none, invokes nothing and logs a failure, where the peer path,
    which turns the spaces back into [':'], invokes [notebook:run]. *)
Theorem local_path_does_not_reverse_tool_id :
  hasCommand host "notebook:run" = true
  /\ toolId_of "notebook:run" = "notebook run"
  /\ In "notebook run"
       (map tool_id (widget_tools (frame_fires host (set_frames 1 connected))))
  /\ invoked (applyToolLocal host "notebook run" (JObj []) connected) = []
  /\ widget_messages (applyToolLocal host "notebook run" (JObj []) connected)
     = [(Sent, JStr "local_execute",
         JObj [("tool_id", JStr "notebook run"); ("parameters", JObj []);
               ("error", JStr "Command not found: notebook run");
               ("success", JBool false)])]
  /\ invoked (applyToolFromServer host (JStr "notebook run") (JObj [])
                (JStr "e1") connected)
     = [("notebook:run", JObj [])].
Proof.
  repeat split; try (vm_compute; reflexivity).
  vm_compute. now left.
Qed.

End ManagerFacts.

(* ===================================================================== *)
(** ** More about safeSerialize *)
(* ===================================================================== *)

Module SerializerMore.
Import JS Serializer Shapes Samples SerializerFacts.

Lemma Forall2_right {A B} (R : A -> B -> Prop) (P : B -> Prop) l k :
  (forall x y, R x y -> P y) -> Forall2 R l k -> Forall P k.
Proof. intros H. induction 1; constructor; eauto. Qed.

(** X1. The cap of 100 is a silent truncation. Within the depth limit
    an array whose serialization returns comes back as an array of
    exactly [min 100 length] elements. A keyed object not met before
    comes back as the object built by assigning one value for each of
    its first 100 keys, in order, and for no other key: it has at most
    100 keys, and when those first 100 keys are pairwise distinct and
    none of them is [__proto__], it has exactly those keys in that
    order. *)
Theorem truncation_to_100 h maxDepth currentDepth seen :
  currentDepth <= maxDepth ->
  (forall a items j seen', h a = HArray items ->
     safeSerialize h (VRef a) maxDepth currentDepth seen = (Ret j, seen') ->
     exists out, j = JArr out /\ length out = Nat.min 100 (length items))
  /\ (forall a props, h a = HObject props -> a ∉ seen ->
        exists fields seen',
          safeSerialize h (VRef a) maxDepth currentDepth seen
          = (Ret (JObj (assign_all fields)), seen')
          /\ map fst fields = map fst (take 100 props)
          /\ length (assign_all fields) <= 100
          /\ (NoDup (map fst (take 100 props)) ->
              "__proto__" ∉ map fst (take 100 props) ->
              map fst (assign_all fields) = map fst (take 100 props)
              /\ length (assign_all fields) = Nat.min 100 (length props))).
Proof.
  intros Hd. split.
  - intros a items j seen' Ha E.
    destruct (array_structure h a items _ _ seen j seen' Ha Hd E)
      as (out & -> & _ & F).
    exists out. split; [reflexivity|].
    rewrite <- (Forall2_length _ _ _ F). apply length_take.
  - intros a props Ha Hin.
    destruct (object_structure h a props _ _ seen Ha Hd Hin)
      as (fields & s & E & _ & F).
    pose proof (field_of_keys _ _ _ _ _ F) as K.
    pose proof (Forall2_length _ _ _ F) as L. rewrite length_take in L.
    exists fields, s. repeat split; [assumption | assumption | | |].
    + pose proof (assign_all_length fields). lia.
    + rewrite assign_all_distinct; [assumption | now rewrite K ..].
    + rewrite assign_all_distinct; [lia | now rewrite K ..].
Qed.

Lemma truncation_to_100_witness :
  (exists out,
     JArr (repeat (JPrim PNull) 100) = JArr out
     /\ length out = Nat.min 100 (length (repeat (Data (VPrim PNull)) 150)))
  /\ (exists fields seen',
        safeSerialize wide_heap (VRef 1) 2 0 ∅
        = (Ret (JObj (assign_all fields)), seen')
        /\ map fst fields
           = map fst (take 100 (map (fun n => (Manager.dec n,
                                              Data (VPrim PNull)))
                                  (seq 0 150)))
        /\ length (assign_all fields) <= 100
        /\ map fst (assign_all fields)
           = map fst (take 100 (map (fun n => (Manager.dec n,
                                              Data (VPrim PNull)))
                                  (seq 0 150)))).
Proof.
  destruct (truncation_to_100 wide_heap 2 0 ∅) as (A & O); [lia|].
  split.
  - apply (A 0 (repeat (Data (VPrim PNull)) 150) _ ∅); [reflexivity|].
    vm_compute. reflexivity.
  - destruct (O 1 (map (fun n => (Manager.dec n, Data (VPrim PNull)))
                     (seq 0 150)))
      as (fields & s & E & K & L & D);
      [reflexivity | apply not_elem_of_empty |].
    destruct D as (D & _);
      [apply (bool_decide_unpack _); vm_compute; exact I
      |apply (bool_decide_unpack _); vm_compute; exact I|].
    exists fields, s. split; [exact E|]. split; [exact K|].
    split; [exact L | exact D].
Defined.

Lemma fits_prim n p : fits n (JPrim p).
Proof. now destruct n. Qed.

Lemma fits_within h maxDepth n :
  forall currentDepth, S maxDepth - currentDepth <= n ->
  forall obj seen j seen',
    safeSerialize h obj maxDepth currentDepth seen = (Ret j, seen') ->
    fits (S maxDepth - currentDepth) j.
Proof.
  induction n as [|n IH]; intros d Hn obj seen j seen' E.
  - destruct obj as [p|a|str].
    + rewrite safeSerialize_primitive in E. inversion E. now destruct (_ - _).
    + rewrite safeSerialize_too_deep in E by (reflexivity || lia).
      inversion E. now destruct (_ - _).
    + rewrite safeSerialize_too_deep in E by (reflexivity || lia).
      inversion E. now destruct (_ - _).
  - destruct (le_lt_dec d maxDepth) as [Hd|Hd].
    2:{ destruct obj as [p|a|str].
        - rewrite safeSerialize_primitive in E. inversion E.
          now destruct (_ - _).
        - rewrite safeSerialize_too_deep in E by (reflexivity || lia).
          inversion E. now destruct (_ - _).
        - rewrite safeSerialize_too_deep in E by (reflexivity || lia).
          inversion E. now destruct (_ - _). }
    assert (Hrec : forall item y, element_of h maxDepth d item y ->
                     fits (S maxDepth - (d + 1)) y).
    { intros item y (s & s' & Ey). apply (IH (d + 1)) in Ey; [assumption|lia]. }
    rewrite (fuel_step _ _ Hd).
    destruct obj as [p|a|str].
    + rewrite safeSerialize_primitive in E. now inversion E.
    + destruct (h a) as [items|props|[|] error] eqn:Ha.
      * destruct (array_structure h a items _ _ seen j seen' Ha Hd E)
          as (out & -> & _ & F).
        simpl. split.
        -- rewrite <- (Forall2_length _ _ _ F), length_take. lia.
        -- eapply Forall2_right; [|exact F].
           intros item y (v & _ & Hy). now apply Hrec with v.
      * destruct (decide (a ∈ seen)) as [Hin|Hin].
        { rewrite (safeSerialize_object_seen _ _ _ _ _ _ Ha Hd Hin) in E.
          now inversion E. }
        destruct (object_structure h a props _ _ seen Ha Hd Hin)
          as (fields & s & E' & _ & F).
        rewrite E' in E. inversion E; subst. simpl. split.
        -- pose proof (assign_all_length fields).
           pose proof (Forall2_length _ _ _ F) as L.
           rewrite length_take in L. lia.
        -- apply assign_all_values.
           eapply Forall2_right; [|exact F].
           intros [k sl] [k' y] [_ Hy]. simpl in *.
           destruct sl as [v|e].
           ++ destruct Hy as [Hy | [_ ->]];
                [now apply Hrec with v | apply fits_prim].
           ++ subst y. apply fits_prim.
      * rewrite (safeSerialize_revoked _ _ _ _ _ seen Ha Hd) in E.
        discriminate.
      * rewrite (safeSerialize_keys_throw _ _ _ _ _ seen Ha Hd) in E.
        destruct (bool_decide (a ∈ seen)); [|discriminate].
        now inversion E.
    + rewrite (safeSerialize_other _ _ _ _ _ Hd) in E. inversion E.
      now destruct str.
Qed.

(** X2. Whatever the input, the tree a call returns is bounded: arrays
    and objects nest at most [maxDepth + 1 - currentDepth] deep in it, and
    none has more than 100 entries. *)
Theorem output_is_bounded h obj maxDepth currentDepth seen j seen' :
  safeSerialize h obj maxDepth currentDepth seen = (Ret j, seen') ->
  fits (S maxDepth - currentDepth) j.
Proof.
  intros E.
  apply (fits_within h maxDepth (S maxDepth - currentDepth) currentDepth)
    with obj seen seen'.
  - apply Nat.le_refl.
  - exact E.
Qed.

Lemma output_is_bounded_witness :
  fits (S 3 - 0)
    (JObj [("self", circular_reference);
           ("list", JArr [JArr [JArr [max_depth_reached]]]);
           ("f", JStr "() => 0");
           ("g", serialization_error)]).
Proof.
  apply (output_is_bounded cyclic_heap (VRef 0) 3 0 ∅ _
           (snd (safeSerialize cyclic_heap (VRef 0) 3 0 ∅))).
  vm_compute. reflexivity.
Defined.

Lemma self_array_unrolled h a maxDepth k : forall currentDepth seen,
  h a = HArray [Data (VRef a)] -> currentDepth + k = maxDepth ->
  safeSerialize h (VRef a) maxDepth currentDepth seen
  = (Ret (nest (S k) max_depth_reached), seen).
Proof.
  induction k as [|k IH]; intros d seen Ha Hk.
  - rewrite (safeSerialize_array _ _ _ _ _ Ha) by lia. simpl.
    unfold bind at 1. simpl. unfold bind at 1. unfold bind at 1.
    rewrite safeSerialize_too_deep by (reflexivity || lia). reflexivity.
  - rewrite (safeSerialize_array _ _ _ _ _ Ha) by lia. simpl.
    unfold bind at 1. simpl. unfold bind at 1. unfold bind at 1.
    rewrite (IH (d + 1) seen Ha) by lia. reflexivity.
Qed.

(** X3. Arrays are not subject to the circular-reference check: an array
    that contains itself is unrolled level by level until the depth
    limit cuts it, the innermost level being ["<max depth reached>"],
    and the [seen] set is left as it was. *)
Theorem self_referential_array h a maxDepth currentDepth seen :
  h a = HArray [Data (VRef a)] -> currentDepth <= maxDepth ->
  safeSerialize h (VRef a) maxDepth currentDepth seen
  = (Ret (nest (S (maxDepth - currentDepth)) max_depth_reached), seen).
Proof. intros Ha Hd. apply self_array_unrolled; [assumption | lia]. Qed.

Lemma self_referential_array_witness :
  safeSerialize cyclic_heap (VRef 1) 2 0 ∅
  = (Ret (JArr [JArr [JArr [max_depth_reached]]]), ∅).
Proof.
  apply (self_referential_array cyclic_heap 1 2 0 ∅); [reflexivity | lia].
Defined.

(** X4. A key that fails spoils only itself. For a keyed object not met
    before whose first 100 keys are pairwise distinct, none of them
    [__proto__]: at the position of a key whose getter throws the output
    holds ["<serialization error>"] under the same key, and at the
    position of every other key among the first 100 it holds, under the
    same key, what serializing the value one level down returned, or
    ["<serialization error>"] if that call threw. *)
Theorem getter_failure_is_isolated h a props maxDepth currentDepth seen :
  h a = HObject props -> currentDepth <= maxDepth -> a ∉ seen ->
  NoDup (map fst (take 100 props)) ->
  "__proto__" ∉ map fst (take 100 props) ->
  exists fields seen',
    safeSerialize h (VRef a) maxDepth currentDepth seen
    = (Ret (JObj fields), seen')
    /\ (forall i k error, i < 100 ->
          props !! i = Some (k, ThrowingGetter error) ->
          fields !! i = Some (k, serialization_error))
    /\ (forall i k v, i < 100 -> props !! i = Some (k, Data v) ->
          exists j, fields !! i = Some (k, j)
                    /\ (element_of h maxDepth currentDepth v j
                        \/ (throws_below h maxDepth currentDepth v
                            /\ j = serialization_error))).
Proof.
  intros Ha Hd Hin Hnd Hnp.
  destruct (object_structure h a props _ _ seen Ha Hd Hin)
    as (fields & s & E & _ & F).
  pose proof (field_of_keys _ _ _ _ _ F) as K.
  rewrite assign_all_distinct in E by (now rewrite K).
  exists fields, s. split; [assumption|]. split.
  - intros i k e Hi Hp. rewrite <- (lookup_take_lt _ 100) in Hp by assumption.
    destruct (Forall2_lookup_l _ _ _ _ _ F Hp) as ([k' y] & Hf & Hk & Hy).
    simpl in *. now subst.
  - intros i k v Hi Hp. rewrite <- (lookup_take_lt _ 100) in Hp by assumption.
    destruct (Forall2_lookup_l _ _ _ _ _ F Hp) as ([k' y] & Hf & Hk & Hy).
    simpl in *. subst. now exists y.
Qed.

Lemma getter_failure_is_isolated_witness :
  exists fields seen',
    safeSerialize cyclic_heap (VRef 0) 3 0 ∅ = (Ret (JObj fields), seen')
    /\ fields !! 3 = Some ("g", serialization_error)
    /\ exists j, fields !! 2 = Some ("f", j)
                 /\ (element_of cyclic_heap 3 0 (VOther (Some "() => 0")) j
                     \/ (throws_below cyclic_heap 3 0
                           (VOther (Some "() => 0"))
                         /\ j = serialization_error)).
Proof.
  destruct (getter_failure_is_isolated cyclic_heap 0
              [("self", Data (VRef 0)); ("list", Data (VRef 1));
               ("f", Data (VOther (Some "() => 0")));
               ("g", ThrowingGetter "0")]
              3 0 ∅) as (fields & s & E & G & D);
    [reflexivity | lia | apply not_elem_of_empty
     | apply (bool_decide_unpack _); vm_compute; exact I
     | apply (bool_decide_unpack _); vm_compute; exact I |].
  exists fields, s. split; [exact E|]. split.
  - apply (G 3 "g" "0"); [lia | reflexivity].
  - apply D; [lia | reflexivity].
Defined.

Lemma mapM_primitives h maxDepth d (ps : list prim) seen :
  mapM (fun item => safeSerialize h item maxDepth d) (map VPrim ps) seen
  = (Ret (map JPrim ps), seen).
Proof.
  induction ps as [|p ps IH]; simpl; [reflexivity|].
  unfold bind at 1. rewrite safeSerialize_primitive.
  unfold bind at 1. now rewrite IH.
Qed.

Lemma mapM_primitive_fields h maxDepth d (kps : list (string * prim)) seen :
  mapM (serialize_field h maxDepth d)
    (map (fun kp => (fst kp, Data (VPrim (snd kp)))) kps) seen
  = (Ret (map (fun kp => (fst kp, JPrim (snd kp))) kps), seen).
Proof.
  induction kps as [|[k p] kps IH]; simpl; [reflexivity|].
  unfold bind at 1. unfold serialize_field at 1. simpl.
  unfold bind. now rewrite IH.
Qed.

(** X5. Flat data passes through with its values intact. Within the
    depth limit an array of primitives comes back as the array of its
    first 100 elements and leaves [seen] alone. A keyed object not met
    before whose values are all primitives adds only itself to [seen] and
    comes back as what assigning its first 100 entries in order builds:
    an entry named [__proto__] is dropped, and when the first 100 keys
    are pairwise distinct and none of them is [__proto__] the result is
    those 100 entries as they are. *)
Theorem flat_data_unchanged h a maxDepth currentDepth seen :
  currentDepth <= maxDepth ->
  (forall ps, h a = HArray (map (fun p => Data (VPrim p)) ps) ->
     safeSerialize h (VRef a) maxDepth currentDepth seen
     = (Ret (JArr (map JPrim (take 100 ps))), seen))
  /\ (forall kps,
        h a = HObject (map (fun kp => (fst kp, Data (VPrim (snd kp)))) kps) ->
        a ∉ seen ->
        safeSerialize h (VRef a) maxDepth currentDepth seen
        = (Ret (JObj (assign_all
                        (map (fun kp => (fst kp, JPrim (snd kp)))
                           (take 100 kps)))),
           {[a]} ∪ seen)
        /\ (NoDup (map fst (take 100 kps)) ->
            "__proto__" ∉ map fst (take 100 kps) ->
            safeSerialize h (VRef a) maxDepth currentDepth seen
            = (Ret (JObj (map (fun kp => (fst kp, JPrim (snd kp)))
                            (take 100 kps))),
               {[a]} ∪ seen))).
Proof.
  intros Hd. split.
  - intros ps Ha. rewrite (safeSerialize_array _ _ _ _ _ Ha Hd).
    rewrite (firstn_map (fun p => Data (VPrim p))).
    rewrite <- (map_map VPrim Data).
    rewrite (bind_ret _ _ _ _ _ (slice_plain _ seen)).
    unfold bind. now rewrite mapM_primitives.
  - intros kps Ha Hin.
    assert (E : safeSerialize h (VRef a) maxDepth currentDepth seen
        = (Ret (JObj (assign_all
                        (map (fun kp => (fst kp, JPrim (snd kp)))
                           (take 100 kps)))),
           {[a]} ∪ seen)).
    { rewrite (safeSerialize_object_fresh _ _ _ _ _ _ Ha Hd Hin).
      rewrite (firstn_map (fun kp : string * prim =>
                               (fst kp, Data (VPrim (snd kp))))).
      unfold bind. now rewrite mapM_primitive_fields. }
    split; [exact E|]. intros Hnd Hnp. rewrite E.
    rewrite assign_all_distinct; [reflexivity | |];
      now rewrite map_map; simpl.
Qed.

Lemma flat_data_unchanged_witness :
  safeSerialize proto_heap (VRef 0) 2 0 ∅
  = (Ret (JObj (assign_all [("a", JNum 1); ("__proto__", JNum 5);
                            ("b", JNum 2)])), {[0]} ∪ ∅)
  /\ assign_all [("a", JNum 1); ("__proto__", JNum 5); ("b", JNum 2)]
     = [("a", JNum 1); ("b", JNum 2)].
Proof.
  destruct (flat_data_unchanged proto_heap 0 2 0 ∅) as (_ & O); [lia|].
  split; [|reflexivity].
  apply (O [("a", PNum 1); ("__proto__", PNum 5); ("b", PNum 2)]);
    [reflexivity | apply not_elem_of_empty].
Defined.

End SerializerMore.

(* ===================================================================== *)
(** ** More about the tool-id substitution *)
(* ===================================================================== *)

Module ToolIdMore.
Import ToolId ToolIdFacts.

Lemma replace_all_removes c d s :
  c <> d -> contains c (replace_all c d s) = false.
Proof.
  intros Hne. induction s as [|x rest IH]; simpl; [reflexivity|].
  rewrite IH, orb_false_r.
  destruct (Ascii.eqb x c) eqn:E; [|assumption].
  apply Ascii.eqb_neq. congruence.
Qed.

Lemma replace_all_length c d s :
  String.length (replace_all c d s) = String.length s.
Proof. induction s as [|x rest IH]; simpl; [reflexivity | now rewrite IH]. Qed.

(** X6. A derived tool id never contains [':'] and a recovered command
    id never contains a space; both substitutions keep the length. *)
Theorem substitution_removes_separator (s : string) :
  contains ":"%char (toolId_of s) = false
  /\ contains " "%char (commandId_of s) = false
  /\ String.length (toolId_of s) = String.length s
  /\ String.length (commandId_of s) = String.length s.
Proof.
  repeat split.
  - now apply replace_all_removes.
  - now apply replace_all_removes.
  - apply replace_all_length.
  - apply replace_all_length.
Qed.

(** X7. On command ids without a space the derivation is injective: two
    different commands never share a tool id. *)
Theorem tool_ids_distinct (a b : string) :
  contains " "%char a = false -> contains " "%char b = false ->
  a <> b -> toolId_of a <> toolId_of b.
Proof.
  intros Ha Hb Hne E. apply Hne.
  rewrite <- (replace_all_back a Ha), <- (replace_all_back b Hb).
  now rewrite E.
Qed.

Lemma tool_ids_distinct_witness :
  toolId_of "notebook:run" <> toolId_of "notebook:save".
Proof.
  apply (tool_ids_distinct "notebook:run" "notebook:save");
    [reflexivity | reflexivity | discriminate].
Defined.

(** With a space the derivation collides. *)
Example tool_ids_collide :
  toolId_of "file:save as" = toolId_of "file:save:as"
  /\ "file:save as" <> "file:save:as".
Proof. split; [reflexivity | discriminate]. Qed.

Lemma commandId_of_toolId_of s : commandId_of (toolId_of s) = commandId_of s.
Proof.
  unfold commandId_of, toolId_of.
  induction s as [|x rest IH]; simpl; [reflexivity|].
  rewrite IH. f_equal.
  destruct (Ascii.eqb x ":"%char) eqn:Hc.
  - apply Ascii.eqb_eq in Hc. now subst.
  - reflexivity.
Qed.

Lemma toolId_of_commandId_of s : toolId_of (commandId_of s) = toolId_of s.
Proof.
  unfold commandId_of, toolId_of.
  induction s as [|x rest IH]; simpl; [reflexivity|].
  rewrite IH. f_equal.
  destruct (Ascii.eqb x " "%char) eqn:Hc.
  - apply Ascii.eqb_eq in Hc. now subst.
  - reflexivity.
Qed.

Lemma toolId_of_idempotent s : toolId_of (toolId_of s) = toolId_of s.
Proof.
  unfold toolId_of.
  induction s as [|x rest IH]; simpl; [reflexivity|].
  rewrite IH. f_equal.
  destruct (Ascii.eqb x ":"%char) eqn:Hc; [reflexivity | now rewrite Hc].
Qed.

(** X8. For every command id, spaces or not, what the peer path
    recovers from the derived tool id is the command id with its spaces
    turned into [':'], and deriving a tool id from that gives the same
    tool id again. *)
Theorem recovered_command_id (commandId : string) :
  commandId_of (toolId_of commandId) = commandId_of commandId
  /\ toolId_of (commandId_of (toolId_of commandId)) = toolId_of commandId.
Proof.
  split.
  - apply commandId_of_toolId_of.
  - rewrite toolId_of_commandId_of. apply toolId_of_idempotent.
Qed.

End ToolIdMore.

(* ===================================================================== *)
(** ** More about the connection manager and the dispatcher *)
(* ===================================================================== *)

Module ManagerMore.
Import JS Serializer ToolId Manager Samples Invariants.
Import SerializerFacts ToolIdFacts ManagerFacts.

(** *** What the dispatcher leaves alone *)

Lemma connection_sendMessage message st :
  connection (sendMessage message st) = connection st.
Proof.
  unfold sendMessage. destruct (ws st) as [i|]; [|reflexivity].
  destruct (sockets st !! i) as [[]|]; reflexivity.
Qed.

Lemma collect_tools_spec app ids : forall tools st,
  fst (collect_tools app ids tools st)
  = (tools ++ omap (describe app) ids)%list
  /\ mute (snd (collect_tools app ids tools st)) = mute st.
Proof.
  induction ids as [|commandId rest IH]; intros tools st; simpl.
  - split; [now rewrite app_nil_r | reflexivity].
  - destruct (describe app commandId) as [t|].
    + destruct (IH (tools ++ [t])%list st) as [E1 E2].
      split; [|assumption]. rewrite E1. now rewrite <- app_assoc.
    + destruct (IH tools
                  (console_ WARN
                     ("Error processing command " +:+ commandId +:+ ":") st))
        as [E1 E2].
      split; assumption.
Qed.

Lemma registerTools_unfold app st :
  let tools := omap (describe app) (listCommands app) in
  exists st1,
    mute st1 = mute (set_widget_tools tools st)
    /\ widget_tools st1 = tools
    /\ registerTools app st
       = console_ LOG
           ("Registered " +:+ dec (length tools) +:+ " tools with backend")
           (sendMessage (register_tools tools) st1).
Proof.
  intros tools. unfold registerTools.
  set (line := ("Total JupyterLab commands available: " +:+ _)).
  destruct (collect_tools_spec app (listCommands app) [] (console_ LOG line st))
    as [E1 E2].
  destruct (collect_tools app (listCommands app) [] (console_ LOG line st))
    as [t u]. simpl in E1, E2. subst t. fold tools.
  eexists. split; [|split; [|reflexivity]].
  - apply mute_set_widget_tools. exact E2.
  - reflexivity.
Qed.

(** X9. The catalog [registerTools] hands to the widget holds, in
    registry order, one descriptor for every command id whose metadata
    queries succeed; a command whose queries throw is left out without
    disturbing the others, and the widget receives the catalog whether
    or not the connection is open. *)
Theorem catalog_skips_failing_commands app st :
  widget_tools (registerTools app st)
  = omap (describe app) (listCommands app)
  /\ (forall c t, c ∈ listCommands app -> describe app c = Some t ->
        t ∈ widget_tools (registerTools app st)
        /\ tool_id t = toolId_of c)
  /\ length (widget_tools (registerTools app st)) <= length app.
Proof.
  destruct (registerTools_unfold app st) as (st1 & Hm & Ht & E).
  assert (W : widget_tools (registerTools app st)
              = omap (describe app) (listCommands app)).
  { rewrite E. simpl.
    assert (C : mute (sendMessage
                        (register_tools (omap (describe app) (listCommands app)))
                        st1) = mute _)
      by (apply mute_sendMessage; exact Hm).
    apply (f_equal widget_tools) in C. simpl in C.
    transitivity (widget_tools
                    (sendMessage
                       (register_tools
                          (omap (describe app) (listCommands app)))
                       (set_widget_tools
                          (omap (describe app) (listCommands app)) st)));
      [exact C|].
    unfold sendMessage. simpl. destruct (ws st) as [i|]; [|reflexivity].
    destruct (sockets st !! i) as [[]|]; reflexivity. }
  split; [exact W|]. rewrite W. split.
  - intros c t Hc D. split.
    + apply list_elem_of_omap. now exists c.
    + unfold describe in D. destruct (lookup_command app c); [|discriminate].
      destruct (cmd_info _); [|discriminate]. now inversion D.
  - unfold listCommands. rewrite <- (length_map cmd_id app).
    induction (map cmd_id app) as [|c rest IH]; simpl; [lia|].
    unfold omap in IH. destruct (describe app c); simpl; lia.
Qed.

Lemma catalog_skips_failing_commands_witness :
  {| tool_id := "notebook run"; tool_label := "Run";
     tool_caption := EmptyString; tool_usage := EmptyString;
     tool_isEnabled := true;
     tool_parameters := getCommandParameters "notebook:run" |}
  ∈ widget_tools (registerTools host initial).
Proof.
  destruct (catalog_skips_failing_commands host initial) as (_ & H & _).
  apply (H "notebook:run"); [constructor | reflexivity].
Defined.

Lemma is_open_mute s1 s2 : mute s1 = mute s2 -> is_open s1 = is_open s2.
Proof.
  intros H. unfold is_open.
  now rewrite (same_ws _ _ H), (same_sockets _ _ H).
Qed.

Lemma connection_mute s1 s2 :
  mute s1 = mute s2 -> connection s1 = connection s2.
Proof. intros H. exact (f_equal connection H). Qed.

Lemma connection_registerTools app st :
  connection (registerTools app st) = connection st.
Proof.
  destruct (registerTools_unfold app st) as (st1 & Hm & _ & E).
  rewrite E.
  change (connection (sendMessage
            (register_tools (omap (describe app) (listCommands app))) st1)
          = connection st).
  rewrite connection_sendMessage. now rewrite (connection_mute _ _ Hm).
Qed.

Lemma registerTools_wire_open app st i :
  ws st = Some i -> sockets st !! i = Some OPEN ->
  wire (registerTools app st)
  = (wire st
     ++ [(i, register_tools (omap (describe app) (listCommands app)))])%list.
Proof.
  intros Hws Hi.
  destruct (registerTools_unfold app st) as (st1 & Hm & _ & E).
  rewrite E. simpl.
  rewrite (sendMessage_open _ st1 i).
  - simpl. now rewrite (same_wire _ _ Hm).
  - now rewrite (same_ws _ _ Hm).
  - now rewrite (same_sockets _ _ Hm).
Qed.

Lemma registerTools_wire_not_open app st :
  is_open st = false -> wire (registerTools app st) = wire st.
Proof.
  intros H.
  destruct (registerTools_unfold app st) as (st1 & Hm & _ & E).
  rewrite E. simpl. rewrite sendMessage_not_open.
  - simpl. now rewrite (same_wire _ _ Hm).
  - now rewrite (is_open_mute _ _ Hm).
Qed.

(** X10. Registration follows an open, once: when a connecting socket
    opens and the deferred callback then runs, exactly one
    [register_tools] frame carrying the whole catalog goes out on that
    socket; a further callback does not exist, so nothing more is sent;
    and if the socket closes before the callback runs, nothing is sent
    at all. *)
Theorem registration_follows_open app st i :
  ws st = Some i -> sockets st !! i = Some CONNECTING -> frames st = 0 ->
  let opened := socket_opens i st in
  let registered := frame_fires app opened in
  frames opened = 1
  /\ wire registered
     = (wire st
        ++ [(i, register_tools (omap (describe app) (listCommands app)))])%list
  /\ frame_fires app registered = registered
  /\ wire (frame_fires app (socket_closes i opened)) = wire st.
Proof.
  intros Hws Hi Hf opened registered.
  assert (Hlt : i < length (sockets st))
    by (now apply lookup_lt_Some with CONNECTING).
  assert (Ho : opened = onopen (set_sockets (<[i:=OPEN]> (sockets st)) st)).
  { unfold opened, socket_opens. now rewrite Hi. }
  assert (Hoi : sockets opened !! i = Some OPEN).
  { rewrite Ho. simpl. now apply list_lookup_insert_eq. }
  assert (Hfo : frames opened = 1) by (rewrite Ho; simpl; now rewrite Hf).
  assert (Hr : registered = registerTools app (set_frames 0 opened)).
  { unfold registered, frame_fires. now rewrite Hfo. }
  split; [exact Hfo|]. split; [|split].
  - rewrite Hr. rewrite (registerTools_wire_open _ _ i).
    + rewrite Ho. reflexivity.
    + rewrite Ho. exact Hws.
    + exact Hoi.
  - unfold frame_fires at 1.
    assert (F : frames registered = 0).
    { rewrite Hr.
      exact (f_equal (fun c => snd c)
               (connection_registerTools app (set_frames 0 opened))). }
    now rewrite F.
  - unfold socket_closes. rewrite Hoi. unfold frame_fires.
    assert (Fc : frames (onclose (set_sockets (<[i:=CLOSED]> (sockets opened))
                                    opened)) = 1).
    { unfold onclose, attemptReconnect. simpl.
      destruct (_ <? _)%nat; simpl; exact Hfo. }
    rewrite Fc. rewrite registerTools_wire_not_open.
    + unfold onclose, attemptReconnect. simpl.
      destruct (_ <? _)%nat; simpl; rewrite Ho; reflexivity.
    + unfold is_open, onclose, attemptReconnect. simpl.
      assert (W : ws opened = Some i) by (rewrite Ho; exact Hws).
      assert (L : <[i:=CLOSED]> (sockets opened) !! i = Some CLOSED).
      { apply list_lookup_insert_eq. now apply lookup_lt_Some with OPEN. }
      destruct (_ <? _)%nat; simpl; now rewrite W, L.
Qed.

Lemma registration_follows_open_witness :
  frames (socket_opens 0 (connect initial)) = 1
  /\ wire (frame_fires host (socket_opens 0 (connect initial)))
     = (wire (connect initial)
        ++ [(0, register_tools (omap (describe host) (listCommands host)))])%list
  /\ frame_fires host (frame_fires host (socket_opens 0 (connect initial)))
     = frame_fires host (socket_opens 0 (connect initial))
  /\ wire (frame_fires host
             (socket_closes 0 (socket_opens 0 (connect initial))))
     = wire (connect initial).
Proof.
  apply (registration_follows_open host (connect initial) 0); reflexivity.
Defined.

(** *** Inbound messages *)

Lemma not_apply_tool {A} (t : string) (k other : A) :
  t <> "apply_tool" ->
  match t with "apply_tool" => k | _ => other end = other.
Proof.
  intros H.
  repeat (match goal with
          | |- context [match ?x with _ => _ end] =>
              destruct x; try reflexivity
          end).
  now contradiction H.
Qed.

(** X11. [handleMessage] acts only on a parsed object whose [type] is
    exactly ["apply_tool"]: for unparsable data, a parsed [null] and
    every other message it sends nothing, invokes nothing and leaves the
    connection alone; a parsed message other than [null] is entered once
    in the widget log as received, under its [type] or ["unknown"]. *)
Theorem only_apply_tool_is_acted_on app data st :
  (forall message, data = Some message ->
     get message "type" <> Some (JStr "apply_tool")) ->
  wire (handleMessage app data st) = wire st
  /\ invoked (handleMessage app data st) = invoked st
  /\ connection (handleMessage app data st) = connection st
  /\ widget_messages (handleMessage app data st)
     = match data with
       | Some message =>
           match get message "type" with
           | Some type =>
               (widget_messages st
                ++ [(Received, or_else type (JStr "unknown"), message)])%list
           | None => widget_messages st
           end
       | None => widget_messages st
       end.
Proof.
  intros H. unfold handleMessage.
  destruct data as [message|]; [|now repeat split].
  specialize (H message eq_refl).
  destruct (get message "type") as [type|]; [|now repeat split].
  destruct type as [[| | | |t]| |]; try now repeat split.
  rewrite not_apply_tool; [now repeat split|].
  intros ->. now apply H.
Qed.

Lemma only_apply_tool_is_acted_on_witness :
  wire (handleMessage host
          (Some (JObj [("type", JStr "ping"); ("tool_id", JStr "notebook run")]))
          connected) = wire connected
  /\ invoked (handleMessage host
          (Some (JObj [("type", JStr "ping"); ("tool_id", JStr "notebook run")]))
          connected) = invoked connected.
Proof.
  destruct (only_apply_tool_is_acted_on host
              (Some (JObj [("type", JStr "ping");
                           ("tool_id", JStr "notebook run")])) connected)
    as (W & I & _).
  - intros message E. inversion E. vm_compute. discriminate.
  - split; [exact W | exact I].
Defined.

(** *** The peer-initiated path, every branch *)

Lemma invoked_sendMessage message st :
  invoked (sendMessage message st) = invoked st.
Proof.
  unfold sendMessage. destruct (ws st) as [i|]; [|reflexivity].
  destruct (sockets st !! i) as [[]|]; reflexivity.
Qed.

Lemma applyToolFromServer_catch_open id executionId error st i :
  ws st = Some i -> sockets st !! i = Some OPEN ->
  wire (applyToolFromServer_catch (JStr id) executionId error st)
  = (wire st ++ [(i, tool_result_failure (JStr id) executionId error)])%list.
Proof.
  intros Hws Hi. unfold applyToolFromServer_catch. simpl.
  now rewrite (sendMessage_open _ _ i).
Qed.

(** What the rest of a peer call does to the wire, case by case. *)
Lemma applyToolFromServer_resume_open id executionId settled st i :
  ws st = Some i -> sockets st !! i = Some OPEN ->
  wire (applyToolFromServer_resume id executionId settled st)
  = (wire st
     ++ [(i, match settled with
             | Resolved h result =>
                 match serialize h result 2 with
                 | Ret j => tool_result_success (JStr id) executionId j
                 | Throw error =>
                     tool_result_failure (JStr id) executionId error
                 | OutOfFuel => JUndefined
                 end
             | Rejected error =>
                 tool_result_failure (JStr id) executionId error
             end)])%list.
Proof.
  intros Hws Hi. unfold applyToolFromServer_resume.
  destruct settled as [h result|error].
  - pose proof (serialize_settles h result 2) as N.
    destruct (serialize h result 2) as [j|error|]; [| |congruence].
    + now rewrite (sendMessage_open _ _ i).
    + exact (applyToolFromServer_catch_open id executionId error
               (console_ LOG ("Tool " +:+ id +:+ " executed successfully") st)
               i Hws Hi).
  - now apply applyToolFromServer_catch_open.
Qed.


Lemma invoked_applyToolFromServer_resume id executionId settled st :
  invoked (applyToolFromServer_resume id executionId settled st) = invoked st.
Proof.
  unfold applyToolFromServer_resume, applyToolFromServer_catch. simpl.
  destruct settled as [h result|error].
  - destruct (serialize h result 2); try reflexivity;
      now rewrite invoked_sendMessage.
  - now rewrite invoked_sendMessage.
Qed.

Lemma applyToolFromServer_invokes app id parameters executionId st :
  hasCommand app (commandId_of id) = true ->
  invoked (applyToolFromServer app (JStr id) parameters executionId st)
  = (invoked st ++ [(commandId_of id, parameters)])%list.
Proof.
  intros Hhas. unfold applyToolFromServer, applyToolFromServer_start. simpl.
  rewrite Hhas. simpl. unfold resume. simpl.
  now rewrite invoked_applyToolFromServer_resume.
Qed.

(** A whole peer call for a command that exists, on an open
    connection. *)
Lemma applyToolFromServer_found app id parameters executionId st i :
  hasCommand app (commandId_of id) = true ->
  ws st = Some i -> sockets st !! i = Some OPEN ->
  wire (applyToolFromServer app (JStr id) parameters executionId st)
  = (wire st
     ++ [(i, match execute app (commandId_of id) parameters with
             | Resolved h result =>
                 match serialize h result 2 with
                 | Ret j => tool_result_success (JStr id) executionId j
                 | Throw error =>
                     tool_result_failure (JStr id) executionId error
                 | OutOfFuel => JUndefined
                 end
             | Rejected error =>
                 tool_result_failure (JStr id) executionId error
             end)])%list.
Proof.
  intros Hhas Hws Hi. unfold applyToolFromServer, applyToolFromServer_start.
  simpl. rewrite Hhas. simpl. unfold resume. simpl.
  exact (applyToolFromServer_resume_open id executionId _
           (call_command (commandId_of id) parameters
              (console_ LOG ("Applying tool from server: " +:+ id) st))
           i Hws Hi).
Qed.





Lemma describe_hasCommand app c t :
  describe app c = Some t -> hasCommand app c = true /\ tool_id t = toolId_of c.
Proof.
  unfold describe, hasCommand. destruct (lookup_command app c); [|discriminate].
  destruct (cmd_info _); [|discriminate]. intros E. now inversion E.
Qed.

(** X14. Every tool of the catalog whose command id has no space can be
    reached by the peer: a request for its tool id invokes exactly the
    command it was derived from. *)
Theorem catalog_tool_reaches_its_command app c t parameters executionId st :
  describe app c = Some t -> contains " "%char c = false ->
  invoked (applyToolFromServer app (JStr (tool_id t)) parameters executionId st)
  = (invoked st ++ [(c, parameters)])%list.
Proof.
  intros D Hs. destruct (describe_hasCommand _ _ _ D) as [Hhas Hid].
  assert (Hc : commandId_of (tool_id t) = c)
    by (rewrite Hid; now apply replace_all_back).
  rewrite applyToolFromServer_invokes; rewrite Hc; [reflexivity | assumption].
Qed.

Lemma catalog_tool_reaches_its_command_witness :
  invoked (applyToolFromServer host (JStr "notebook run") (JObj [])
             (JStr "e1") initial)
  = (invoked initial ++ [("notebook:run", JObj [])])%list.
Proof.
  apply (catalog_tool_reaches_its_command host "notebook:run"
           {| tool_id := "notebook run"; tool_label := "Run";
              tool_caption := EmptyString; tool_usage := EmptyString;
              tool_isEnabled := true;
              tool_parameters := getCommandParameters "notebook:run" |});
    reflexivity.
Defined.

(** *** The two UI-initiated paths *)

Lemma applyToolLocal_start_frame app toolId parameters st :
  wire (fst (applyToolLocal_start app toolId parameters st)) = wire st
  /\ connection (fst (applyToolLocal_start app toolId parameters st))
     = connection st.
Proof.
  unfold applyToolLocal_start. destruct (hasCommand app toolId); now split.
Qed.

Lemma applyToolLocal_resume_frame toolId parameters settled st :
  wire (applyToolLocal_resume toolId parameters settled st) = wire st
  /\ connection (applyToolLocal_resume toolId parameters settled st)
     = connection st.
Proof.
  unfold applyToolLocal_resume, applyToolLocal_catch.
  repeat case_match; now split.
Qed.



(** X16. The remote path never invokes a host command. On an open
    connection it sends one [apply_tool] frame with the tool id and the
    parameters, without an [execution_id]; otherwise it sends nothing
    and the widget log gets no entry. *)
Theorem remote_path_only_forwards toolId parameters st :
  invoked (applyToolRemote toolId parameters st) = invoked st
  /\ connection (applyToolRemote toolId parameters st) = connection st
  /\ (forall i, ws st = Some i -> sockets st !! i = Some OPEN ->
        wire (applyToolRemote toolId parameters st)
        = (wire st
           ++ [(i, JObj [("type", JStr "apply_tool");
                         ("tool_id", JStr toolId);
                         ("parameters", parameters)])])%list)
  /\ (is_open st = false ->
        wire (applyToolRemote toolId parameters st) = wire st
        /\ widget_messages (applyToolRemote toolId parameters st)
           = widget_messages st).
Proof.
  unfold applyToolRemote. split; [|split; [|split]].
  - simpl. now rewrite invoked_sendMessage.
  - change (connection (sendMessage
              (JObj [("type", JStr "apply_tool"); ("tool_id", JStr toolId);
                     ("parameters", parameters)])
              (console_ LOG
                 ("Sending tool execution request via WebSocket: " +:+ toolId)
                 st)) = connection st).
    now rewrite connection_sendMessage.
  - intros i Hws Hi. simpl. now rewrite (sendMessage_open _ _ i).
  - intros H. simpl. rewrite sendMessage_not_open by exact H. now split.
Qed.

Lemma remote_path_only_forwards_witness :
  wire (applyToolRemote "notebook run" (JObj []) connected)
  = (wire connected
     ++ [(0, JObj [("type", JStr "apply_tool");
                   ("tool_id", JStr "notebook run");
                   ("parameters", JObj [])])])%list
  /\ wire (applyToolRemote "notebook run" (JObj []) initial) = wire initial.
Proof.
  split.
  - destruct (remote_path_only_forwards "notebook run" (JObj []) connected)
      as (_ & _ & O & _).
    apply O; reflexivity.
  - destruct (remote_path_only_forwards "notebook run" (JObj []) initial)
      as (_ & _ & _ & C).
    apply C. reflexivity.
Defined.

(** *** What every event keeps *)

Lemma connection_applyToolFromServer_catch toolId executionId error st :
  connection (applyToolFromServer_catch toolId executionId error st)
  = connection st.
Proof.
  unfold applyToolFromServer_catch.
  destruct (String_json toolId); [|reflexivity].
  match goal with
  | |- connection (sendMessage ?m ?s) = _ =>
      rewrite (connection_sendMessage m s); reflexivity
  end.
Qed.

Lemma connection_applyToolFromServer_start app toolId parameters executionId
    st :
  connection
    (fst (applyToolFromServer_start app toolId parameters executionId st))
  = connection st.
Proof.
  unfold applyToolFromServer_start.
  destruct (String_json toolId) as [shown|]; [|reflexivity].
  destruct toolId as [[| | | |id]| |]; simpl;
    try (now rewrite connection_applyToolFromServer_catch).
  destruct (hasCommand app (commandId_of id)); simpl; [reflexivity|].
  match goal with
  | |- connection (sendMessage ?m ?s) = _ =>
      rewrite (connection_sendMessage m s); reflexivity
  end.
Qed.

Lemma connection_resume c st : connection (resume c st) = connection st.
Proof.
  unfold resume. destruct (call_origin c) as [executionId|].
  - unfold applyToolFromServer_resume.
    destruct (call_completion c) as [h result|error].
    + destruct (serialize h result 2); try reflexivity.
      * match goal with
        | |- connection (sendMessage ?m ?s) = _ =>
            rewrite (connection_sendMessage m s); reflexivity
        end.
      * now rewrite connection_applyToolFromServer_catch.
    + now rewrite connection_applyToolFromServer_catch.
  - apply applyToolLocal_resume_frame.
Qed.

Lemma connection_suspend (r : state * option call) :
  connection (suspend r) = connection (fst r).
Proof. destruct r as [st [c|]]; reflexivity. Qed.

Lemma connection_applyToolFromServer app toolId parameters executionId st :
  connection (applyToolFromServer app toolId parameters executionId st)
  = connection st.
Proof.
  unfold applyToolFromServer.
  pose proof (connection_applyToolFromServer_start app toolId parameters
                executionId st) as C.
  destruct (applyToolFromServer_start app toolId parameters executionId st)
    as [st1 [c|]]; simpl in *; [|exact C].
  now rewrite connection_resume.
Qed.

Lemma connection_handleMessage app data st :
  connection (handleMessage app data st) = connection st.
Proof.
  unfold handleMessage.
  destruct data as [message|]; [|reflexivity].
  destruct (get message "type") as [type|]; [|reflexivity].
  destruct type as [[| | | |t]| |]; try reflexivity.
  destruct (String.eqb_spec t "apply_tool") as [->|Hne].
  - now rewrite connection_suspend, connection_applyToolFromServer_start.
  - now rewrite not_apply_tool.
Qed.

Lemma well_formed_connection s1 s2 :
  connection s1 = connection s2 -> well_formed s2 -> well_formed s1.
Proof.
  unfold connection, well_formed. intros E. inversion E as [[W A S' T F]].
  now rewrite W, A, S'.
Qed.

Lemma well_formed_onclose st : well_formed st -> well_formed (onclose st).
Proof.
  unfold well_formed, onclose, attemptReconnect. simpl.
  intros [A W]. destruct (_ <? _)%nat eqn:E; simpl.
  - apply Nat.ltb_lt in E. split; [lia | exact W].
  - split; [exact A | exact W].
Qed.

Lemma well_formed_connect st : well_formed st -> well_formed (connect st).
Proof.
  unfold well_formed, connect. simpl. intros [A W]. split; [exact A|].
  intros i E. inversion E. rewrite length_app. simpl. lia.
Qed.

(** X17. Every event keeps the manager well formed: the retry counter
    never exceeds 5 and the manager's socket reference, when set, points
    at a socket that [connect()] created. So it is after any sequence of
    events from the start. *)
Theorem events_keep_well_formed app es st :
  well_formed st -> well_formed (run app es st).
Proof.
  unfold run. revert st. induction es as [|e es IH]; intros st H; simpl.
  - exact H.
  - apply IH. clear IH. destruct H as [A W].
    destruct e as [i|i|i|i data| | | | |toolId p|toolId p|k]; simpl.
    + unfold socket_opens. destruct (sockets st !! i) as [[]|]; try now split.
      unfold well_formed, onopen. simpl. split; [lia|].
      intros j E. rewrite length_insert. now apply W.
    + unfold socket_errors, onerror.
      destruct (sockets st !! i) as [[]|]; now split.
    + unfold socket_closes.
      destruct (sockets st !! i) as [[]|]; try now split.
      all: apply well_formed_onclose; split; [exact A|];
        simpl; intros j E; rewrite length_insert; now apply W.
    + unfold socket_receives.
      destruct (sockets st !! i) as [[]|]; try now split.
      apply (well_formed_connection _ st (connection_handleMessage _ _ _)).
      now split.
    + unfold timer_fires. destruct (timers st); [now split|].
      apply well_formed_connect. now split.
    + unfold frame_fires. destruct (frames st); [now split|].
      apply (well_formed_connection _ (set_frames n st)
               (connection_registerTools _ _)).
      now split.
    + apply well_formed_connect. now split.
    + unfold close. destruct (ws st) eqn:Ews.
      * split; [exact A | discriminate].
      * split; [exact A | intros j Hj; congruence].
    + destruct (applyToolLocal_start_frame app toolId p st) as [_ C].
      apply (well_formed_connection _ st); [|now split].
      now rewrite connection_suspend.
    + apply (well_formed_connection _ st).
      * unfold applyToolRemote.
        change (connection (sendMessage
                  (JObj [("type", JStr "apply_tool"); ("tool_id", JStr toolId);
                         ("parameters", p)])
                  (console_ LOG
                     ("Sending tool execution request via WebSocket: "
                        +:+ toolId) st)) = connection st).
        now rewrite connection_sendMessage.
      * now split.
    + unfold command_settles. destruct (awaiting st !! k); [|now split].
      apply (well_formed_connection _ st); [|now split].
      now rewrite connection_resume.
Qed.

Lemma events_keep_well_formed_witness :
  well_formed
    (run host [CallConnect; SocketOpens 0; SocketCloses 0; TimerFires;
               SocketCloses 1; CallClose; TimerFires] initial).
Proof.
  apply (events_keep_well_formed host).
  split; [unfold maxReconnectAttempts; simpl; lia | discriminate].
Defined.

Lemma sendMessage_sent message st st1 :
  ws st1 = ws st -> sockets st1 = sockets st -> wire st1 = wire st ->
  sent_at_most_one st (sendMessage message st1).
Proof.
  intros W S' R. unfold sent_at_most_one, sendMessage. rewrite W, S', R.
  destruct (ws st) as [i|]; [|now left].
  destruct (sockets st !! i) as [[]|] eqn:E; try now left.
  right. now exists i, message.
Qed.

Lemma unchanged_sent st st1 :
  wire st1 = wire st -> sent_at_most_one st st1.
Proof. intros R. now left. Qed.

Lemma applyToolFromServer_catch_sent toolId executionId error st st1 :
  ws st1 = ws st -> sockets st1 = sockets st -> wire st1 = wire st ->
  sent_at_most_one st (applyToolFromServer_catch toolId executionId error st1).
Proof.
  intros W S' R. unfold applyToolFromServer_catch.
  destruct (String_json toolId); [|now apply unchanged_sent].
  now apply sendMessage_sent.
Qed.

Lemma applyToolFromServer_start_sent app toolId parameters executionId st st1 :
  ws st1 = ws st -> sockets st1 = sockets st -> wire st1 = wire st ->
  sent_at_most_one st
    (suspend (applyToolFromServer_start app toolId parameters executionId st1)).
Proof.
  intros W S' R. unfold applyToolFromServer_start.
  destruct (String_json toolId) as [shown|]; [|now apply unchanged_sent].
  destruct toolId as [[| | | |id]| |]; simpl;
    try (now apply applyToolFromServer_catch_sent).
  destruct (hasCommand app (commandId_of id)); simpl;
    [now apply unchanged_sent | now apply sendMessage_sent].
Qed.

Lemma resume_sent c st st1 :
  ws st1 = ws st -> sockets st1 = sockets st -> wire st1 = wire st ->
  sent_at_most_one st (resume c st1).
Proof.
  intros W S' R. unfold resume. destruct (call_origin c) as [executionId|].
  - unfold applyToolFromServer_resume.
    destruct (call_completion c) as [h result|error].
    + destruct (serialize h result 2).
      * now apply sendMessage_sent.
      * now apply applyToolFromServer_catch_sent.
      * now apply unchanged_sent.
    + now apply applyToolFromServer_catch_sent.
  - apply unchanged_sent.
    destruct (applyToolLocal_resume_frame (call_toolId c) (call_parameters c)
                (call_completion c) st1) as [W1 _].
    congruence.
Qed.

(** X18. One event, at most one frame, and only on an open socket: what
    any event adds to the wire is nothing or a single frame, and a frame
    goes out only on the socket the manager holds at that moment, which
    is then open. Nothing already sent is changed. *)
Theorem one_frame_per_event app e st :
  sent_at_most_one st (deliver app e st).
Proof.
  destruct e as [i|i|i|i data| | | | |toolId p|toolId p|k]; simpl.
  - left. unfold socket_opens.
    destruct (sockets st !! i) as [[]|]; reflexivity.
  - left. unfold socket_errors.
    destruct (sockets st !! i) as [[]|]; reflexivity.
  - left. unfold socket_closes, onclose, attemptReconnect.
    destruct (sockets st !! i) as [[]|]; try reflexivity;
      simpl; destruct (_ <? _)%nat; reflexivity.
  - unfold socket_receives.
    destruct (sockets st !! i) as [[]|]; try now left.
    unfold handleMessage.
    destruct data as [message|]; [|now left].
    destruct (get message "type") as [type|]; [|now left].
    destruct type as [[| | | |t]| |]; try now left.
    destruct (String.eqb_spec t "apply_tool") as [->|Hne].
    + now apply applyToolFromServer_start_sent.
    + rewrite not_apply_tool by assumption. now left.
  - left. unfold timer_fires. destruct (timers st); reflexivity.
  - unfold frame_fires. destruct (frames st) as [|n]; [now left|].
    destruct (registerTools_unfold app (set_frames n st))
      as (st1 & Hm & _ & E).
    rewrite E.
    change (sent_at_most_one st
              (sendMessage
                 (register_tools (omap (describe app) (listCommands app)))
                 st1)).
    apply sendMessage_sent.
    + now rewrite (same_ws _ _ Hm).
    + now rewrite (same_sockets _ _ Hm).
    + now rewrite (same_wire _ _ Hm).
  - now left.
  - left. unfold close. destruct (ws st); reflexivity.
  - left. unfold applyToolLocal_start.
    destruct (hasCommand app toolId); reflexivity.
  - unfold applyToolRemote.
    change (sent_at_most_one st
              (sendMessage
                 (JObj [("type", JStr "apply_tool"); ("tool_id", JStr toolId);
                        ("parameters", p)])
                 (console_ LOG
                    ("Sending tool execution request via WebSocket: "
                       +:+ toolId) st))).
    now apply sendMessage_sent.
  - unfold command_settles. destruct (awaiting st !! k); [|now left].
    now apply resume_sent.
Qed.

(** *** close() and connect() against what is already under way *)

(** X19. [close()] does not cancel a reconnect that is already
    scheduled: when the pending timer fires after the call, [connect()]
    runs all the same and the manager again holds a new connecting
    socket. *)
Theorem pending_reconnect_survives_close st delay rest :
  timers st = delay :: rest ->
  let st' := timer_fires (close st) in
  ws st' = Some (length (sockets st))
  /\ sockets st' !! length (sockets st) = Some CONNECTING
  /\ timers st' = rest.
Proof.
  intros Ht. destruct (close_clears st) as (_ & _ & T & _ & L).
  unfold timer_fires. rewrite T, Ht. unfold connect. simpl.
  rewrite L. repeat split.
  rewrite lookup_app_r by lia. now rewrite L, Nat.sub_diag.
Qed.

Lemma pending_reconnect_survives_close_witness :
  ws (timer_fires (close (socket_closes 0 connected))) = Some 1
  /\ sockets (timer_fires (close (socket_closes 0 connected))) !! 1
     = Some CONNECTING
  /\ timers (timer_fires (close (socket_closes 0 connected))) = [].
Proof.
  apply (pending_reconnect_survives_close (socket_closes 0 connected)
           reconnectDelay []).
  reflexivity.
Defined.

(** X20. [connect()] has no guard: called while the manager holds an
    open socket it creates a second one and makes that the manager's
    socket, leaving the first open with its handlers; until the new
    socket opens the manager counts as not open and what is sent is
    dropped. *)
Theorem connect_while_open st i :
  ws st = Some i -> sockets st !! i = Some OPEN ->
  sockets (connect st) !! i = Some OPEN
  /\ ws (connect st) = Some (length (sockets st))
  /\ sockets (connect st) !! length (sockets st) = Some CONNECTING
  /\ is_open (connect st) = false
  /\ forall message, wire (sendMessage message (connect st)) = wire st.
Proof.
  intros Hws Hi.
  assert (Hn : sockets (connect st) !! length (sockets st) = Some CONNECTING).
  { unfold connect. simpl. rewrite lookup_app_r by lia.
    now rewrite Nat.sub_diag. }
  assert (Ho : is_open (connect st) = false).
  { unfold is_open. change (ws (connect st)) with (Some (length (sockets st))).
    cbv beta iota. now rewrite Hn. }
  repeat split; try assumption.
  - unfold connect. simpl. rewrite lookup_app_l; [assumption|].
    now apply lookup_lt_Some with OPEN.
  - intros message. now rewrite sendMessage_not_open.
Qed.

Lemma connect_while_open_witness :
  sockets (connect connected) !! 0 = Some OPEN
  /\ ws (connect connected) = Some 1
  /\ is_open (connect connected) = false.
Proof.
  destruct (connect_while_open connected 0) as (A & B & _ & C & _);
    [reflexivity | reflexivity |].
  split; [exact A|]. split; [exact B | exact C].
Defined.

End ManagerMore.

(* ===================================================================== *)
(** ** Facts about the panel *)
(* ===================================================================== *)

Module PanelFacts.
Import JS ToolId Manager Samples Panel.

Lemma placeholder_has_no_parameters t commandId :
  tool_parameters t = getCommandParameters commandId ->
  hasParameters t = false.
Proof. intros E. unfold hasParameters. now rewrite E. Qed.

Lemma describe_parameters app c t :
  describe app c = Some t ->
  tool_parameters t = getCommandParameters c /\ tool_id t = toolId_of c.
Proof.
  unfold describe. destruct (lookup_command app c); [|discriminate].
  destruct (cmd_info _); [|discriminate]. intros E. now inversion E.
Qed.

Lemma session_without_form JSON_parse t acts : forall s,
  hasParameters t = false ->
  showForm s = false -> parameters s = "{}" ->
  showForm (fst (session JSON_parse t acts s)) = false
  /\ parameters (fst (session JSON_parse t acts s)) = "{}"
  /\ Forall (fun x : call =>
               snd (fst x) = tool_id t /\ JSON_parse "{}" = Some (snd x))
       (snd (session JSON_parse t acts s)).
Proof.
  intros s Hp. revert s.
  induction acts as [|a rest IH]; intros s Hs Ht; simpl.
  - repeat split; [assumption .. | constructor].
  - assert (Hact :
      let r := act JSON_parse t a s in
      showForm (fst r) = false /\ parameters (fst r) = "{}"
      /\ match snd r with
         | Some x => snd (fst x) = tool_id t /\ JSON_parse "{}" = Some (snd x)
         | None => True
         end).
    { unfold act, offered, handleExecute. rewrite Hp, Hs, Ht. simpl.
      destruct a; simpl; try (now repeat split);
        destruct (tool_isEnabled t); simpl; try (now repeat split);
        destruct (JSON_parse "{}") eqn:E; simpl; now repeat split. }
    destruct (act JSON_parse t a s) as [s1 c]. simpl in Hact.
    destruct Hact as (H1 & H2 & H3).
    specialize (IH s1 H1 H2).
    destruct (session JSON_parse t rest s1) as [s2 cs]. simpl in *.
    destruct IH as (I1 & I2 & I3).
    repeat split; [assumption .. |].
    destruct c as [x|]; [constructor; assumption | assumption].
Qed.

(** X21. The parameter form cannot be opened for a tool of the catalog:
    [registerTools] gives every tool the placeholder schema, whose
    [properties] are empty, so whatever the user does to a fresh item
    the form stays hidden, the parameter text stays ["{}"], and every
    call the item makes carries the tool's id and the parse of ["{}"]. *)
Theorem catalog_tools_run_without_parameters JSON_parse app c t acts :
  describe app c = Some t ->
  showForm (fst (session JSON_parse t acts fresh)) = false
  /\ parameters (fst (session JSON_parse t acts fresh)) = "{}"
  /\ Forall (fun x : call =>
               snd (fst x) = toolId_of c /\ JSON_parse "{}" = Some (snd x))
       (snd (session JSON_parse t acts fresh)).
Proof.
  intros D. destruct (describe_parameters _ _ _ D) as [Hp Hid].
  rewrite <- Hid.
  apply session_without_form; [|reflexivity ..].
  now apply placeholder_has_no_parameters with c.
Qed.

Lemma catalog_tools_run_without_parameters_witness :
  showForm (fst (session parse_braces
                   {| tool_id := "notebook run"; tool_label := "Run";
                      tool_caption := EmptyString; tool_usage := EmptyString;
                      tool_isEnabled := true;
                      tool_parameters := getCommandParameters "notebook:run" |}
                   [HeaderLocal; FormType "[1]"; HeaderRemote] fresh)) = false
  /\ parameters (fst (session parse_braces
                   {| tool_id := "notebook run"; tool_label := "Run";
                      tool_caption := EmptyString; tool_usage := EmptyString;
                      tool_isEnabled := true;
                      tool_parameters := getCommandParameters "notebook:run" |}
                   [HeaderLocal; FormType "[1]"; HeaderRemote] fresh)) = "{}"
  /\ Forall (fun x : call =>
               snd (fst x) = toolId_of "notebook:run"
               /\ parse_braces "{}" = Some (snd x))
       (snd (session parse_braces
               {| tool_id := "notebook run"; tool_label := "Run";
                  tool_caption := EmptyString; tool_usage := EmptyString;
                  tool_isEnabled := true;
                  tool_parameters := getCommandParameters "notebook:run" |}
               [HeaderLocal; FormType "[1]"; HeaderRemote] fresh)).
Proof.
  apply (catalog_tools_run_without_parameters parse_braces host
           "notebook:run"). reflexivity.
Defined.

(** X22. A tool that is listed as disabled cannot be run from the
    panel: its header buttons are disabled and the form, whose buttons
    are not, is reachable only through them, so no sequence of actions
    on a fresh item makes a call. *)
Theorem disabled_tool_is_never_run JSON_parse t acts :
  tool_isEnabled t = false ->
  session JSON_parse t acts fresh = (fresh, []).
Proof.
  intros H. induction acts as [|a rest IH]; simpl; [reflexivity|].
  assert (E : act JSON_parse t a fresh = (fresh, None)).
  { unfold act, offered. rewrite H. simpl. now destruct a. }
  rewrite E, IH. reflexivity.
Qed.

Lemma disabled_tool_is_never_run_witness :
  session parse_braces
    {| tool_id := "notebook get-selected-cell";
       tool_label := "Get Selected Cell";
       tool_caption := EmptyString; tool_usage := EmptyString;
       tool_isEnabled := false;
       tool_parameters := getCommandParameters "notebook:get-selected-cell" |}
    [HeaderLocal; FormLocal; HeaderRemote] fresh
  = (fresh, []).
Proof.
  apply (disabled_tool_is_never_run parse_braces
           {| tool_id := "notebook get-selected-cell";
              tool_label := "Get Selected Cell";
              tool_caption := EmptyString; tool_usage := EmptyString;
              tool_isEnabled := false;
              tool_parameters :=
                getCommandParameters "notebook:get-selected-cell" |}).
  reflexivity.
Defined.

Lemma includes_empty hay : includes hay EmptyString = true.
Proof. now destruct hay. Qed.

(** X23. With an empty search box the panel lists every tool, in
    catalog order. *)
Theorem empty_search_lists_everything toLowerCase tools :
  toLowerCase EmptyString = EmptyString ->
  filteredTools toLowerCase tools EmptyString = tools.
Proof.
  intros H. unfold filteredTools. rewrite H.
  induction tools as [|t rest IH]; simpl; [reflexivity|].
  rewrite includes_empty. simpl. now rewrite IH.
Qed.

Lemma empty_search_lists_everything_witness :
  filteredTools (fun s => s) (omap (describe host) (listCommands host))
    EmptyString
  = omap (describe host) (listCommands host).
Proof.
  apply (empty_search_lists_everything (fun s => s)). reflexivity.
Defined.

End PanelFacts.

(* ===================================================================== *)
(** ** Facts about the input prompt *)
(* ===================================================================== *)

Module PromptFacts.
Import JS Manager Prompt.

Lemma length_append (a b : string) :
  String.length (a +:+ b) = String.length a + String.length b.
Proof. induction a as [|x a IH]; simpl; [reflexivity | now rewrite IH]. Qed.

(** X24. The [executionCount] accessors do not round-trip: whatever
    value is set, with or without a cell index, the getter afterwards
    returns a text, never [null], and never the value that was set. *)
Theorem executionCount_read_back value cellIndex :
  exists text,
    get_executionCount (set_executionCount value cellIndex) = Some text
    /\ Some text <> value.
Proof.
  exists (set_executionCount value cellIndex). split.
  - destruct value, cellIndex; reflexivity.
  - destruct value as [count|]; [|discriminate].
    intros E. inversion E as [E']. apply (f_equal String.length) in E'.
    destruct cellIndex as [i|]; simpl in E';
      rewrite ?length_append in E'; simpl in E'; lia.
Qed.

Lemma updateFrom_lookup widgets : forall k i c,
  widgets !! i = Some c ->
  updateFrom k widgets !! i
  = Some (if String.eqb (type c) "code" then updateCellPrompt c (k + i)
          else c).
Proof.
  induction widgets as [|w rest IH]; intros k i c H; [discriminate|].
  destruct i as [|i]; simpl in *.
  - inversion H; subst. now rewrite Nat.add_0_r.
  - rewrite (IH (S k) i c H). now rewrite Nat.add_succ_r.
Qed.

Lemma updateCellPrompt_again c i j :
  updateCellPrompt (updateCellPrompt c i) j = updateCellPrompt c j.
Proof.
  unfold updateCellPrompt. destruct (promptNode c) eqn:E; simpl.
  - reflexivity.
  - now rewrite E.
Qed.

Lemma updateCellPrompt_type c i : type (updateCellPrompt c i) = type c.
Proof. unfold updateCellPrompt. now destruct (promptNode c). Qed.

Lemma updateFrom_again widgets : forall k,
  updateFrom k (updateFrom k widgets) = updateFrom k widgets.
Proof.
  induction widgets as [|w rest IH]; intros k; simpl; [reflexivity|].
  rewrite IH. f_equal.
  destruct (String.eqb (type w) "code") eqn:E.
  - now rewrite updateCellPrompt_type, E, updateCellPrompt_again.
  - now rewrite E.
Qed.

(** X25. A pass over the notebook's cells rewrites prompts rather than
    adding to them: running it again changes nothing. It touches only
    code cells that have a prompt node, gives each the spans for its
    execution count and its position among all cells (counted from 0,
    non-code cells included), and leaves every other cell as it is. *)
Theorem prompt_pass_replaces widgets :
  updateAll (updateAll widgets) = updateAll widgets
  /\ (forall i c, widgets !! i = Some c -> type c <> "code" ->
        updateAll widgets !! i = Some c)
  /\ (forall i c, widgets !! i = Some c -> type c = "code" ->
        promptNode c = None -> updateAll widgets !! i = Some c)
  /\ (forall i c old, widgets !! i = Some c -> type c = "code" ->
        promptNode c = Some old ->
        exists c',
          updateAll widgets !! i = Some c'
          /\ type c' = type c /\ executionCount c' = executionCount c
          /\ promptNode c'
             = Some (match executionCount c with
                     | Some n =>
                         [ {| textContent := "[" +:+ dec n +:+ "]";
                              className := Some "jp-mcp-exec-count" |};
                           indexSpan i; colon ]
                     | None => [indexSpan i; colon]
                     end)).
Proof.
  unfold updateAll. split; [apply updateFrom_again|]. split; [|split].
  - intros i c H Ht. rewrite (updateFrom_lookup _ 0 i c H).
    apply String.eqb_neq in Ht. now rewrite Ht.
  - intros i c H Ht Hp. rewrite (updateFrom_lookup _ 0 i c H).
    destruct (String.eqb (type c) "code"); [|reflexivity].
    unfold updateCellPrompt. now rewrite Hp.
  - intros i c old H Ht Hp. rewrite (updateFrom_lookup _ 0 i c H).
    apply String.eqb_eq in Ht. rewrite Ht. simpl.
    eexists. split; [reflexivity|].
    unfold updateCellPrompt. rewrite Hp.
    destruct (executionCount c); now repeat split.
Qed.

Lemma prompt_pass_replaces_witness :
  updateAll three_cells !! 0
  = Some {| type := "markdown"; executionCount := None;
            promptNode := Some [] |}
  /\ exists c',
       updateAll three_cells !! 1 = Some c'
       /\ type c' = "code" /\ executionCount c' = Some 3
       /\ promptNode c'
          = Some [ {| textContent := "[" +:+ dec 3 +:+ "]";
                      className := Some "jp-mcp-exec-count" |};
                   indexSpan 1; colon ].
Proof.
  destruct (prompt_pass_replaces three_cells) as (_ & N & _ & C).
  split.
  - apply N; [reflexivity | discriminate].
  - apply (C 1 {| type := "code"; executionCount := Some 3;
                  promptNode := Some [colon; colon; colon; colon] |}
             [colon; colon; colon; colon]); reflexivity.
Defined.

End PromptFacts.

(* ===================================================================== *)
(** ** Facts about the two commands *)
(* ===================================================================== *)

Module CommandsFacts.
Import JS Serializer ToolId Manager Commands.
Import SerializerFacts ManagerFacts ManagerMore.

Lemma serialize_field_primitive h maxDepth d k p seen :
  serialize_field h maxDepth d (k, Data (VPrim p)) seen
  = (Ret (k, JPrim p), seen).
Proof. reflexivity. Qed.

(** A value under a key always gives the key something. *)
Lemma serialize_field_some h maxDepth d k v seen :
  exists j s1,
    serialize_field h maxDepth d (k, Data v) seen = (Ret (k, j), s1).
Proof.
  destruct (safeSerialize_settles h v maxDepth (d + 1) seen) as [N _].
  destruct (safeSerialize h v maxDepth (d + 1) seen) as [[j|e|] s1] eqn:E;
    [| |simpl in N; congruence].
  - exists j, s1. now apply serialize_field_value.
  - exists serialization_error, s1. now apply serialize_field_caught with e.
Qed.

(** What [executionCount] of the result holds. *)
Lemma count_is_primitive c :
  exists p,
    shift_value (if String.eqb (cell_type c) "code"
                 then match cell_executionCount c with
                      | Some n => VNum n
                      | None => VPrim PNull
                      end
                 else VPrim PNull) = VPrim p
    /\ p = (if String.eqb (cell_type c) "code"
            then match cell_executionCount c with
                 | Some n => PNum n
                 | None => PNull
                 end
            else PNull).
Proof.
  destruct (String.eqb (cell_type c) "code");
    [destruct (cell_executionCount c)|]; eexists; split; reflexivity.
Qed.

(** X26. What [notebook:get-selected-cell] returns for an active cell
    survives the serialization both execution paths apply
    ([maxDepth = 2]) in every field but one: the
    cell's type, position, source and execution count ([null] unless it
    is a code cell that ran) arrive intact whatever the cell's metadata
    is; only the metadata is subject to truncation. *)
Theorem selected_cell_survives_serialization nb c args :
  activeCell nb = Some c ->
  exists h v md,
    getSelectedCell (Some nb) args = Resolved h v
    /\ serialize h v 2
       = Ret (JObj [("success", JBool true);
                    ("cellType", JStr (cell_type c));
                    ("cellIndex", JNum (Z.of_nat (activeCellIndex nb)));
                    ("source", JStr (source c));
                    ("metadata", md);
                    ("executionCount",
                     JPrim (if String.eqb (cell_type c) "code"
                            then match cell_executionCount c with
                                 | Some n => PNum n
                                 | None => PNull
                                 end
                            else PNull))]).
Proof.
  intros Ha. unfold getSelectedCell. rewrite Ha. unfold literal.
  cbv beta iota.
  match goal with |- context [Resolved ?hh _] => set (h := hh) end.
  destruct (count_is_primitive c) as (p & Ep & Hp).
  destruct (serialize_field_some h 2 0 "metadata" (shift_value (metadata c))
              ({[0]} ∪ ∅)) as (md & s1 & Emd).
  exists h, (VRef 0), md. split; [reflexivity|].
  unfold serialize.
  rewrite (safeSerialize_object_fresh h 0 _ 2 0 ∅ eq_refl)
    by (lia || apply not_elem_of_empty).
  simpl take. rewrite Ep, <- Hp.
  rewrite (bind_ret _ _ _
             [("success", JBool true);
              ("cellType", JStr (cell_type c));
              ("cellIndex", JNum (Z.of_nat (activeCellIndex nb)));
              ("source", JStr (source c));
              ("metadata", md);
              ("executionCount", JPrim p)] s1); [reflexivity|].
  repeat (eapply mapM_cons;
          [first [apply serialize_field_primitive | exact Emd]|]).
  reflexivity.
Qed.

Lemma selected_cell_survives_serialization_witness :
  exists h v md,
    getSelectedCell (Some one_cell_notebook) (JObj []) = Resolved h v
    /\ serialize h v 2
       = Ret (JObj [("success", JBool true);
                    ("cellType", JStr "code");
                    ("cellIndex", JNum 0);
                    ("source", JStr "print(1)");
                    ("metadata", md);
                    ("executionCount", JPrim (PNum 2))]).
Proof.
  apply (selected_cell_survives_serialization one_cell_notebook
           {| cell_type := "code"; source := "print(1)";
              metadata := VRef 0; cell_executionCount := Some 2%Z |}).
  reflexivity.
Defined.

Lemma serialize_failure_literal message :
  serialize
    (fst (literal [("error", VStr message); ("success", VBool false)]
            no_objects))
    (VRef 0) 2
  = Ret (JObj [("error", JStr message); ("success", JBool false)]).
Proof.
  unfold serialize, literal. simpl fst.
  rewrite (safeSerialize_object_fresh _ 0 _ 2 0 ∅ eq_refl)
    by (lia || apply not_elem_of_empty).
  reflexivity.
Qed.

(** X27. Without a notebook, or in a notebook without an active cell,
    [notebook:get-selected-cell] resolves to an object that says
    [success: false]; the peer path therefore answers with a
    [tool_result] whose own [success] is true and whose [result] carries
    the failure. *)
Theorem selected_cell_failure_is_reported_as_success
    app c current parameters executionId st i :
  lookup_command app "notebook:get-selected-cell" = Some c ->
  cmd_run c = getSelectedCell current ->
  match current with
  | None => True
  | Some nb => activeCell nb = None
  end ->
  ws st = Some i -> sockets st !! i = Some OPEN ->
  wire (applyToolFromServer app (JStr "notebook get-selected-cell")
          parameters executionId st)
  = (wire st
     ++ [(i, tool_result_success (JStr "notebook get-selected-cell")
               executionId
               (JObj [("error",
                       JStr (match current with
                             | None => "No active notebook"
                             | Some _ => "No active cell"
                             end));
                      ("success", JBool false)]))])%list.
Proof.
  intros Hl Hr Hc Hws Hi.
  rewrite (applyToolFromServer_found _ _ _ _ _ i);
    [|unfold hasCommand;
      change (commandId_of "notebook get-selected-cell")
        with "notebook:get-selected-cell"; now rewrite Hl
     |assumption ..].
  change (commandId_of "notebook get-selected-cell")
    with "notebook:get-selected-cell".
  unfold execute. rewrite Hl, Hr.
  unfold getSelectedCell.
  destruct current as [nb|].
  - rewrite Hc.
    change (let (h, v) := literal [("error", VStr "No active cell");
                                   ("success", VBool false)] no_objects in
            Resolved h v)
      with (Resolved
              (fst (literal [("error", VStr "No active cell");
                             ("success", VBool false)] no_objects))
              (VRef 0)).
    cbv beta iota. now rewrite serialize_failure_literal.
  - change (let (h, v) := literal [("error", VStr "No active notebook");
                                   ("success", VBool false)] no_objects in
            Resolved h v)
      with (Resolved
              (fst (literal [("error", VStr "No active notebook");
                             ("success", VBool false)] no_objects))
              (VRef 0)).
    cbv beta iota. now rewrite serialize_failure_literal.
Qed.

Lemma selected_cell_failure_is_reported_as_success_witness :
  wire (applyToolFromServer bare_host (JStr "notebook get-selected-cell")
          (JObj []) (JStr "e1") Samples.connected)
  = (wire Samples.connected
     ++ [(0, tool_result_success (JStr "notebook get-selected-cell")
               (JStr "e1")
               (JObj [("error", JStr "No active notebook");
                      ("success", JBool false)]))])%list.
Proof.
  apply (selected_cell_failure_is_reported_as_success bare_host
           {| cmd_id := "notebook:get-selected-cell";
              cmd_info :=
                Some {| isEnabled := false; label := "Get Selected Cell";
                        caption :=
                          "Get information about the currently selected cell";
                        usage := EmptyString |};
              cmd_run := getSelectedCell None |}
           None (JObj []) (JStr "e1") Samples.connected 0);
    reflexivity || exact I.
Defined.

(** X28. Without a notebook [notebook:append-execute] throws before it
    touches anything; the peer path answers with a [tool_result] whose
    [success] is false and whose error is the text of that exception. *)
Theorem append_without_notebook_is_reported_as_failure
    app c type_error rest parameters executionId st i :
  lookup_command app "notebook:append-execute" = Some c ->
  cmd_run c = appendExecute type_error rest None ->
  parameters <> JPrim PNull ->
  ws st = Some i -> sockets st !! i = Some OPEN ->
  wire (applyToolFromServer app (JStr "notebook append-execute")
          parameters executionId st)
  = (wire st
     ++ [(i, tool_result_failure (JStr "notebook append-execute")
               executionId "Error: No active notebook found")])%list.
Proof.
  intros Hl Hr Hp Hws Hi.
  rewrite (applyToolFromServer_found _ _ _ _ _ i);
    [|unfold hasCommand;
      change (commandId_of "notebook append-execute")
        with "notebook:append-execute"; now rewrite Hl
     |assumption ..].
  change (commandId_of "notebook append-execute")
    with "notebook:append-execute".
  unfold execute. rewrite Hl, Hr.
  assert (E : appendExecute type_error rest None parameters
              = Rejected "Error: No active notebook found").
  { unfold appendExecute. destruct parameters as [[]| |];
      try reflexivity. now contradiction Hp. }
  now rewrite E.
Qed.

Lemma append_without_notebook_is_reported_as_failure_witness :
  wire (applyToolFromServer bare_host (JStr "notebook append-execute")
          (JObj []) (JStr "e1") Samples.connected)
  = (wire Samples.connected
     ++ [(0, tool_result_failure (JStr "notebook append-execute")
               (JStr "e1") "Error: No active notebook found")])%list.
Proof.
  apply (append_without_notebook_is_reported_as_failure bare_host
           {| cmd_id := "notebook:append-execute";
              cmd_info :=
                Some {| isEnabled := true;
                        label := "Append and Execute Cell";
                        caption :=
                          "Append a new cell at the end of the notebook and execute it";
                        usage := EmptyString |};
              cmd_run :=
                appendExecute "TypeError" (fun _ _ => Rejected "unreachable")
                  None |}
           "TypeError" (fun _ _ => Rejected "unreachable")
           (JObj []) (JStr "e1") Samples.connected 0);
    reflexivity || discriminate.
Defined.

End CommandsFacts.
